(** * complete-run: selection, validation and completion of test runs

    A shallow embedding of the Go packages [filter], [match] and
    [complete] of the complete-run pipeline, and the properties of the
    pipeline that its specification states.

    Conventions of the embedding.
    - Go [int] values (run IDs, case IDs, HTTP status codes, counters) are
      [Z].  No arithmetic other than comparison is done on IDs and status
      codes; counters are bounded by the length of a slice, so no 64-bit
      wrap-around can occur and none is written out.
    - Go [string] is [string] (a sequence of bytes); [<] and [>] on Go
      strings are the bytewise lexicographic order.
    - Go [map[int]T] is [gmap Z T].  The order in which [range] visits a
      map is unspecified in Go: every loop over a map takes the visiting
      order from a parameter [rangeOrder], about which the theorems only
      assume that it lists the entries of the map.
    - Calls to the remote service are answered by an oracle passed as an
      argument; code that performs effects returns the trace of what it
      did.
    - The files are a map from names to contents, with the set of the
      names that cannot be opened for writing; a stage of the pipeline is
      a function on the files.
    - The goroutines of a stage are represented by the order in which
      they reach the mutex, a list of positions passed as an argument.
    - The offset of the paginated fetch is the one [int] on which the
      code does arithmetic without a bound: its addition is written with
      the 64-bit wrap-around.  The loop of the fetch has no bound in the
      code; it is run for a number of iterations passed as an argument,
      and its result says whether it has returned by then.
    - A dereference of a [nil] pointer is a result of its own where the
      embedding of a function has one.  A panic in a goroutine that no one
      recovers ends the process: a stage whose goroutine panics does not
      return, the main goroutine is taken not to run again, and the stages
      after it are not run. *)

From Stdlib Require Import ZArith QArith List Bool Lia Ascii String.
From Stdlib Require Import DecimalString DecimalPos.
From stdpp Require Import base tactics option list gmap strings sorting.

Local Open Scope string_scope.
Local Open Scope list_scope.
Local Open Scope Z_scope.

(** ** Go strings *)

Module GoString.

(** [s > t] on Go strings. *)
Definition gtb (s t : string) : bool := String.ltb t s.

(** [s == t] on Go strings. *)
Definition eqb (s t : string) : bool := String.eqb s t.

(** [s >= t] on Go strings: [t] is not greater than [s]. *)
Definition geb (s t : string) : bool := negb (gtb t s).

(** [fmt.Sprintf("%d", z)]. *)
Definition fmt_d (z : Z) : string := NilZero.string_of_int (Z.to_int z).

End GoString.

(** ** The text functions of the Go library that the hand-off files go through

    Strings are sequences of bytes; the functions that look for white
    space read them as UTF-8.  White space is that of Unicode: the six
    characters of ASCII (tab, line feed, vertical tab, form feed, carriage
    return, space), and U+0085, U+00A0, U+1680, U+2000 to U+200A, U+2028,
    U+2029, U+202F, U+205F and U+3000, which UTF-8 writes on two or three
    bytes.  No byte of these encodings is a continuation byte at its
    head, and the bytes that follow the first are continuation bytes: so
    a white-space character never starts inside the encoding of another
    character, and a function that goes through the bytes finds the same
    white space as the Go functions, which go through the characters
    (taking an invalid byte for a character of one byte). *)

Module GoText.

Definition code (c : ascii) : Z := Z.of_N (N_of_ascii c).

(** The white space of one byte, that of the table [asciiSpace] of the
    package strings: tab, line feed, vertical tab, form feed, carriage
    return and space. *)
Definition asciiSpace (c : ascii) : bool :=
  ((9 <=? code c) && (code c <=? 13)) || (code c =? 32).

(** The white space of two bytes: U+0085 and U+00A0. *)
Definition twoByteSpace (c d : ascii) : bool :=
  (code c =? 194) && ((code d =? 133) || (code d =? 160)).

(** The white space of three bytes: U+1680; U+2000 to U+200A, U+2028,
    U+2029 and U+202F; U+205F; U+3000. *)
Definition threeByteSpace (c d e : ascii) : bool :=
  ((code c =? 225) && (code d =? 154) && (code e =? 128))
  || ((code c =? 226) && (code d =? 128)
      && (((128 <=? code e) && (code e <=? 138))
          || (code e =? 168) || (code e =? 169) || (code e =? 175)))
  || ((code c =? 226) && (code d =? 129) && (code e =? 159))
  || ((code c =? 227) && (code d =? 128) && (code e =? 128)).

Definition isDigit (c : ascii) : bool := (48 <=? code c) && (code c <=? 57).

Definition isNewline (c : ascii) : bool := code c =? 10.

Definition isSign (c : ascii) : bool := (code c =? 43) || (code c =? 45).

Definition newline : string := String (ascii_of_N 10) "".

(** What follows the white-space character at the head of a string, when
    the string starts with one. *)
Definition dropSpace (s : string) : option string :=
  match s with
  | String c rest =>
      if asciiSpace c then Some rest
      else match rest with
           | String d rest2 =>
               if twoByteSpace c d then Some rest2
               else match rest2 with
                    | String e rest3 =>
                        if threeByteSpace c d e then Some rest3 else None
                    | "" => None
                    end
           | "" => None
           end
  | "" => None
  end.

(** The string without the white space at its head. *)
Fixpoint trimLeft (s : string) : string :=
  match s with
  | String c rest =>
      if asciiSpace c then trimLeft rest
      else match rest with
           | String d rest2 =>
               if twoByteSpace c d then trimLeft rest2
               else match rest2 with
                    | String e rest3 =>
                        if threeByteSpace c d e then trimLeft rest3 else s
                    | "" => s
                    end
           | "" => s
           end
  | "" => ""
  end.

(** A string that holds white space only. *)
Fixpoint blank (s : string) : bool :=
  match s with
  | String c rest =>
      if asciiSpace c then blank rest
      else match rest with
           | String d rest2 =>
               if twoByteSpace c d then blank rest2
               else match rest2 with
                    | String e rest3 => threeByteSpace c d e && blank rest3
                    | "" => false
                    end
           | "" => false
           end
  | "" => true
  end.

(** The string without the white space at its end: what comes before its
    longest suffix of white space. *)
Fixpoint trimRight (s : string) : string :=
  match s with
  | "" => ""
  | String c rest => if blank s then "" else String c (trimRight rest)
  end.

(** [strings.TrimSpace]. *)
Definition TrimSpace (s : string) : string := trimRight (trimLeft s).

(** [strings.Split(s, sep)] for a separator of one byte: one more element
    than [s] has separators; the empty string gives one empty element. *)
Fixpoint Split (s : string) (sep : ascii) : list string :=
  match s with
  | "" => [""]
  | String c rest =>
      if Ascii.eqb c sep then "" :: Split rest sep
      else match Split rest sep with
           | part :: parts => String c part :: parts
           | [] => [String c ""]
           end
  end.

(** [SkipSpace] of the scanner of [Sscanf]: white space is passed over,
    and a line feed is the error "unexpected newline". *)
Fixpoint skipSpace (s : string) : option string :=
  match s with
  | String c rest =>
      if isNewline c then None
      else if asciiSpace c then skipSpace rest
      else match rest with
           | String d rest2 =>
               if twoByteSpace c d then skipSpace rest2
               else match rest2 with
                    | String e rest3 =>
                        if threeByteSpace c d e then skipSpace rest3 else Some s
                    | "" => Some s
                    end
           | "" => Some s
           end
  | "" => Some ""
  end.

(** The decimal digits at the head of a string, as numbers. *)
Fixpoint scanDigits (s : string) : list Z :=
  match s with
  | String c rest => if isDigit c then (code c - 48) :: scanDigits rest else []
  | "" => []
  end.

Definition decimalValue (digits : list Z) : Z :=
  fold_left (fun acc d => 10 * acc + d) digits 0.

(** The bounds of a 64-bit [int]. *)
Definition fitsInt (z : Z) : bool := (- 2 ^ 63 <=? z) && (z <? 2 ^ 63).

(** [fmt.Sscanf(s, "%d", &id)]: the integer stored in [id], or [None] when
    the scan fails and [id] is left as it was.  After the white space, an
    optional sign and at least one digit are read; what follows the digits
    is not looked at; a number that does not fit an [int] is an error. *)
Definition Sscanf_d (s : string) : option Z :=
  match skipSpace s with
  | None => None
  | Some s1 =>
      let '(negative, s2) :=
        match s1 with
        | String c rest => if isSign c then (code c =? 45, rest) else (false, s1)
        | "" => (false, s1)
        end in
      match scanDigits s2 with
      | [] => None
      | digits =>
          let v := if negative then - decimalValue digits else decimalValue digits in
          if fitsInt v then Some v else None
      end
  end.

(** The number of separators in a string. *)
Fixpoint separators (sep : ascii) (s : string) : nat :=
  match s with
  | "" => O
  | String c rest =>
      if Ascii.eqb c sep then S (separators sep rest) else separators sep rest
  end.

End GoText.

(** ** The files of the pipeline *)

Module Files.
Import GoText.

(** The files by name, and the names that cannot be opened for writing.
    A file that is not in [files] cannot be read. *)
Record FS := mkFS {
  files : gmap string string;
  denied : gset string
}.

(** [readRunIDs], the same function in the packages match and complete:
    [nil] when the file cannot be read; otherwise one ID per
    part of the trimmed content, the ID of a part that does not scan being
    the zero value of [var id int]. *)
Definition readRunIDs (fs : FS) (filename : string) : list Z :=
  match files fs !! filename with
  | None => []
  | Some content =>
      (fun part => default 0 (Sscanf_d part)) <$> Split (TrimSpace content) ","
  end.

End Files.

(** ** The HTTP client as the pipeline sees it *)

Module Http.

(** What the code reads of an [*http.Response]: the status code, and the
    body as [io.ReadAll] returns it ([None] when reading fails). *)
Record Response := mkResponse {
  StatusCode : Z;
  Body : option string
}.

(** A Go [error] is its message; the [nil] error is [None]. *)
Definition error : Type := option string.

(** The two results of [client.Do(req)]. *)
Definition DoResult : Type := option Response * error.

(** [time.Duration]: a number of nanoseconds. *)
Definition Millisecond : Z := 1000000.
Definition Second : Z := 1000 * Millisecond.

(** [http.Client]: the only field the code sets is [Timeout]; zero means
    that requests never time out. *)
Record Client := mkClient { Timeout : Z }.

(** [http.DefaultClient]. *)
Definition DefaultClient : Client := mkClient 0.

(** What a call driver does, in order. *)
Inductive Event :=
| EvDo (client : Client) (attempt : Z)
| EvClose (attempt : Z)
| EvSleep (attempt : Z).

Definition isDo (e : Event) : bool :=
  match e with EvDo _ _ => true | _ => false end.

(** The number of requests sent in a trace. *)
Definition attempts (trace : list Event) : Z :=
  Z.of_nat (length (List.filter isDo trace)).

(** [%v] of an error value. *)
Definition fmt_v (e : error) : string :=
  match e with Some msg => msg | None => "<nil>" end.

(** How a call that uses a pointer without testing it ends: it returns, or
    it dereferences [nil] and its goroutine panics. *)
Inductive Call (A : Type) : Type :=
| Ok (a : A)
| NilPanic.
Arguments Ok {A} a.
Arguments NilPanic {A}.

Definition panics {A : Type} (call : Call A) : bool :=
  match call with Ok _ => false | NilPanic => true end.

End Http.

(** ** Package filter: the Run Selection Engine *)

Module Filter.
Import GoString.

(** The fields of [TestResult] that the selection logic reads; the
    other fields of the Go struct are payload. *)
Record TestResult := mkResult {
  CaseID : Z;
  EndTime : string;
  RunID : Z;
  Status : string
}.

Definition passed (result : TestResult) : bool := eqb (Status result) "passed".

(** The four variables of the loop over the results of one case. *)
Record CaseOutcome := mkOutcome {
  hasPassed : bool;
  latestPassedTime : string;
  latestOverallTime : string;
  latestOverallStatus : string
}.

Definition initOutcome : CaseOutcome := mkOutcome false "" "" "".

(** One iteration of [for _, result := range caseResults]. *)
Definition caseStep (o : CaseOutcome) (result : TestResult) : CaseOutcome :=
  let overall := gtb (EndTime result) (latestOverallTime o) in
  let oTime := if overall then EndTime result else latestOverallTime o in
  let oStatus := if overall then Status result else latestOverallStatus o in
  if passed result then
    mkOutcome true
      (if gtb (EndTime result) (latestPassedTime o)
       then EndTime result else latestPassedTime o)
      oTime oStatus
  else
    mkOutcome (hasPassed o) (latestPassedTime o) oTime oStatus.

Definition caseOutcome (caseResults : list TestResult) : CaseOutcome :=
  fold_left caseStep caseResults initOutcome.

(** The test [if hasPassed { if latestPassedTime == latestOverallTime &&
    latestOverallStatus == "passed" ... }]: [true] when the loop goes on
    with [keepRunID = true], [false] when it breaks. *)
Definition caseKeeps (o : CaseOutcome) : bool :=
  if hasPassed o then
    eqb (latestPassedTime o) (latestOverallTime o)
    && eqb (latestOverallStatus o) "passed"
  else false.

(** [for _, caseResults := range caseStatuses] with its two [break]s, over
    the entries in visiting order.  Returns the final [keepRunID] and the
    case IDs whose records were examined, in order. *)
Fixpoint caseLoop (cases : list (Z * list TestResult)) (keepRunID : bool)
  : bool * list Z :=
  match cases with
  | [] => (keepRunID, [])
  | (caseID, caseResults) :: rest =>
      if caseKeeps (caseOutcome caseResults) then
        let '(keep, visited) := caseLoop rest true in
        (keep, caseID :: visited)
      else (false, [caseID])
  end.

(** One iteration of the first loop over the results of a run: clears
    [allPassed] on a non-passed record and appends the record to the
    slice of its case. *)
Definition groupStep (st : bool * gmap Z (list TestResult)) (result : TestResult)
  : bool * gmap Z (list TestResult) :=
  (if passed result then st.1 else false,
   <[CaseID result := default [] (st.2 !! CaseID result) ++ [result]]> st.2).

Definition groupCases (results : list TestResult) : bool * gmap Z (list TestResult) :=
  fold_left groupStep results (true, ∅).

(** [sort.Ints]: the ascending sort of a slice of ints. *)
Definition sortInts (l : list Z) : list Z := merge_sort Z.le l.

Section WithRangeOrder.
(** The order in which [range] visits a [map[int][]TestResult]. *)
Variable rangeOrder : gmap Z (list TestResult) -> list (Z * list TestResult).

(** The body of [for runID, results := range runResults]: is the run
    appended to [selectedRunIDs]? *)
Definition selectsRun (results : list TestResult) : bool :=
  let '(allPassed, caseStatuses) := groupCases results in
  if allPassed then true
  else (caseLoop (rangeOrder caseStatuses) false).1.

Definition processResults (runResults : gmap Z (list TestResult)) : list Z :=
  sortInts
    (fold_left
       (fun selectedRunIDs '(runID, results) =>
          if selectsRun results then selectedRunIDs ++ [runID]
          else selectedRunIDs)
       (rangeOrder runResults) []).
End WithRangeOrder.

(** Vocabulary of the specification: the records of one case of a run,
    in log order, and a visiting order that lists the entries of a map. *)
Definition caseRecords (caseID : Z) (results : list TestResult) : list TestResult :=
  filter (fun r => CaseID r = caseID) results.

Definition ListsEntries
    (rangeOrder : gmap Z (list TestResult) -> list (Z * list TestResult)) : Prop :=
  forall m, rangeOrder m ≡ₚ map_to_list m.

(** A record with its end time replaced. *)
Definition retime (times : TestResult -> string) (r : TestResult) : TestResult :=
  mkResult (CaseID r) (times r) (RunID r) (Status r).

(** An entry of [caseStatuses] whose case keeps the run. *)
Definition keeps (e : Z * list TestResult) : Prop :=
  caseKeeps (caseOutcome e.2) = true.

(** The records of a case being a passed record at [T1] and a non-passed
    one at [T2], in either log order. *)
Definition passThenFail (cs : list TestResult) (T1 T2 : string) : Prop :=
  exists p f, (cs = [p; f] \/ cs = [f; p]) /\
    passed p = true /\ EndTime p = T1 /\ passed f = false /\ EndTime f = T2.

End Filter.

(** ** Package match: the Run Validation Engine

    [match.go] holds two variants of the package.  They share
    [fetchCasesForRunID] and [MatchResults] and differ in [TestResult] and
    [validateRunCases]: [V1] is the variant of lines 1-159, [V2] that of
    lines 161-337. *)

Module Match.
Import GoString Http.

(** The anonymous struct of the field [Result]. *)
Module ResultStruct.
Record t := mk {
  ID : Z;
  Status : Z;
  Cases : list Z
}.
End ResultStruct.

Record APIResponse := mkAPIResponse {
  Status : bool;
  Result : ResultStruct.t
}.

Definition fetchURL (projectCode : string) (runID : Z) : string :=
  "https://api.qase.io/v1/run/" +:+ projectCode +:+ "/" +:+ fmt_d runID
  +:+ "?include=cases".

Section Fetch.
(** Whether [http.NewRequest(method, url, nil)] returns a request. *)
Variable NewRequest : string -> string -> bool.
(** [json.Unmarshal] of a body into an [APIResponse]. *)
Variable unmarshal : string -> option APIResponse.
(** The remote service: the results of the successive calls of
    [http.DefaultClient.Do] on the request for a URL. *)
Variable Do : string -> Z -> DoResult.

(** [fetchCasesForRunID]: how the call ends and the trace of the requests.
    The error of [http.NewRequest] is dropped: when no request is built,
    [req] is [nil] and [req.Header.Add] dereferences it before anything is
    sent.  In the same way [defer res.Body.Close()] dereferences a [nil]
    response that comes with a [nil] error.  The error of [io.ReadAll] is
    dropped too: a body that cannot be read is handed to [json.Unmarshal]
    empty. *)
Definition fetchCasesForRunID (apiToken projectCode : string) (runID : Z)
  : Call (list Z * bool) * list Event :=
  let url := fetchURL projectCode runID in
  if negb (NewRequest "GET" url) then (NilPanic, [])
  else
    let trace := [EvDo DefaultClient 0] in
    match Do url 0 with
    | (_, Some _) => (Ok ([], false), trace)
    | (None, None) => (NilPanic, trace)
    | (Some res, None) =>
        match unmarshal (default "" (Body res)) with
        | None => (Ok ([], false), trace)
        | Some apiResp =>
            if negb (Status apiResp)
               || negb (ResultStruct.Status (Result apiResp) =? 0)
            then (Ok ([], false), trace)
            else (Ok (ResultStruct.Cases (Result apiResp), true), trace)
        end
    end.
End Fetch.

(** [caseCount[caseID]++] and [foundCases[result.CaseID]++]. *)
Definition increment (m : gmap Z Z) (k : Z) : gmap Z Z :=
  <[k := default 0 (m !! k) + 1]> m.

Module V1.

Record TestResult := mkResult {
  RunID : Z;
  CaseID : Z;
  Status : string
}.

Definition passed (result : TestResult) : bool := eqb (Status result) "passed".

(** One iteration of [for _, result := range results]. *)
Definition scanStep (runID : Z) (st : gmap Z Z * gmap Z bool) (result : TestResult)
  : gmap Z Z * gmap Z bool :=
  if RunID result =? runID then
    (increment st.1 (CaseID result),
     if negb (passed result) then <[CaseID result := false]> st.2
     else match st.2 !! CaseID result with
          | None => <[CaseID result := true]> st.2
          | Some _ => st.2
          end)
  else st.

(** [for caseID, expectedCount := range caseCount] with its [return false],
    over the entries in visiting order. *)
Fixpoint checkLoop (foundCases : gmap Z Z) (passedCases : gmap Z bool)
    (entries : list (Z * Z)) : bool :=
  match entries with
  | [] => true
  | (caseID, expectedCount) :: rest =>
      if (default 0 (foundCases !! caseID) <? expectedCount)
         || negb (default false (passedCases !! caseID))
      then false
      else checkLoop foundCases passedCases rest
  end.

Definition validateRunCases (rangeOrder : gmap Z Z -> list (Z * Z))
    (runID : Z) (caseIDs : list Z) (results : list TestResult) : bool :=
  let caseCount := fold_left increment caseIDs ∅ in
  let '(foundCases, passedCases) := fold_left (scanStep runID) results (∅, ∅) in
  checkLoop foundCases passedCases (rangeOrder caseCount).

End V1.

Module V2.

Record TestResult := mkResult {
  RunID : Z;
  CaseID : Z;
  Status : string;
  EndTime : string
}.

Definition passed (result : TestResult) : bool := eqb (Status result) "passed".

(** The three maps of the first loop. *)
Record Scan := mkScan {
  foundCases : gmap Z Z;
  latestPassTime : gmap Z string;
  passedCases : gmap Z bool
}.

(** One iteration of the first [for _, result := range results]. *)
Definition scanStep (runID : Z) (st : Scan) (result : TestResult) : Scan :=
  if RunID result =? runID then
    let found := increment (foundCases st) (CaseID result) in
    if passed result then
      let latest := default "" (latestPassTime st !! CaseID result) in
      mkScan found
        (if eqb latest "" || gtb (EndTime result) latest
         then <[CaseID result := EndTime result]> (latestPassTime st)
         else latestPassTime st)
        (<[CaseID result := true]> (passedCases st))
    else mkScan found (latestPassTime st) (passedCases st)
  else st.

(** The second [for _, result := range results], with its [return false]. *)
Fixpoint rejectLoop (runID : Z) (latestPassTime : gmap Z string)
    (results : list TestResult) : bool :=
  match results with
  | [] => true
  | result :: rest =>
      if (RunID result =? runID) && negb (passed result)
         && negb (eqb (default "" (latestPassTime !! CaseID result)) "")
         && gtb (EndTime result) (default "" (latestPassTime !! CaseID result))
      then false
      else rejectLoop runID latestPassTime rest
  end.

Definition validateRunCases (runID : Z) (caseIDs : list Z)
    (results : list TestResult) : bool :=
  let st := fold_left (scanStep runID) results (mkScan ∅ ∅ ∅) in
  rejectLoop runID (latestPassTime st) results.

End V2.

Section MatchResults.
Context {TestResult : Type}.
(** [validateRunCases] of the variant. *)
Variable validateRunCases : Z -> list Z -> list TestResult -> bool.
(** [fetchCasesForRunID] on the remote service, per run ID. *)
Variable fetch : Z -> list Z * bool.

(** The test of the goroutine of a run. *)
Definition confirms (results : list TestResult) (runID : Z) : bool :=
  let '(cases, valid) := fetch runID in
  valid && validateRunCases runID cases results.

(** [validRunIDs] after [wg.Wait()].  One goroutine is started per
    position of [runIDs]; [schedule] lists the positions in the order in
    which the goroutines reach [mu.Lock()]. *)
Definition MatchResults (runIDs : list Z) (results : list TestResult)
    (schedule : list nat) : list string :=
  fold_left
    (fun validRunIDs i =>
       match runIDs !! i with
       | Some runID =>
           if confirms results runID then validRunIDs ++ [fmt_d runID]
           else validRunIDs
       | None => validRunIDs
       end)
    schedule [].
End MatchResults.

(** [writeValidRunIDs]: the content written to the file. *)
Definition writeValidRunIDs (runIDs : list string) : string :=
  String.concat "," runIDs.

(** Vocabulary of the specification. *)

(** The number of times a case ID is listed. *)
Definition occurrences (caseID : Z) (caseIDs : list Z) : Z :=
  Z.of_nat (length (filter (fun c => c = caseID) caseIDs)).

(** The records of the local log for a run and a case, in log order. *)
Definition localRecords (runID caseID : Z) (results : list V1.TestResult)
  : list V1.TestResult :=
  filter (fun r => V1.RunID r = runID /\ V1.CaseID r = caseID) results.

(** The run IDs in the order in which their goroutines finish. *)
Definition completionOrder (runIDs : list Z) (schedule : list nat) : list Z :=
  omap (fun i => runIDs !! i) schedule.

(** The confirmed run IDs, in the order in which their goroutines finish. *)
Definition confirmedIDs {TestResult : Type}
    (validateRunCases : Z -> list Z -> list TestResult -> bool)
    (fetch : Z -> list Z * bool)
    (runIDs : list Z) (results : list TestResult) (schedule : list nat) : list Z :=
  filter (fun id => confirms validateRunCases fetch results id = true)
         (completionOrder runIDs schedule).

(** A schedule the semaphore of five slots allows: every goroutine
    finishes once, and the goroutine of position [j] starts only after
    [j - 4] earlier ones have released their slot. *)
Definition Feasible (runIDs : list Z) (schedule : list nat) : Prop :=
  schedule ≡ₚ seq 0 (length runIDs)
  /\ forall p j, schedule !! p = Some j -> (j < p + 5)%nat.

End Match.

(** ** Package complete: the retrying executor and the completion call *)

Module Complete.
Import GoString GoText Files Http.

Record RetryConfig := mkRetryConfig {
  MaxRetries : Z;
  InitialDelay : Z;
  MaxDelay : Z;
  BackoffFactor : Q;
  RequestTimeout : Z
}.

Definition defaultRetryConfig : RetryConfig :=
  mkRetryConfig 3 (500 * Millisecond) (10 * Second) 2%Q (30 * Second).

(** The package-level client: its timeout is that of [defaultRetryConfig]. *)
Definition httpClient : Client := mkClient (RequestTimeout defaultRetryConfig).

Definition isRetryableError (err : error) (statusCode : Z) : bool :=
  match err with
  | Some _ => true
  | None =>
      if statusCode =? 429 then true
      else if (statusCode =? 500) || (statusCode =? 502)
              || (statusCode =? 503) || (statusCode =? 504) then true
      else false
  end.

(** What one iteration of the retry loop decides. *)
Inductive Verdict :=
| Return (resp : option Response) (err : error)
| Retry (closed : bool).

(** The part of the loop body before the backoff sleep, on the results of
    [httpClient.Do(req)]. *)
Definition classify (resp : option Response) (lastErr : error) : Verdict :=
  match lastErr, resp with
  | None, Some r =>
      if (200 <=? StatusCode r) && (StatusCode r <? 300) then Return resp None
      else if negb (isRetryableError None (StatusCode r)) then
        Return resp (Some ("non-retryable HTTP error: " +:+ fmt_d (StatusCode r)))
      else Retry true
  | _, _ => Retry false
  end.

(** [for attempt := 0; attempt <= config.MaxRetries; attempt++], with
    [fuel] the number of iterations left; [resp] and [lastErr] are the two
    variables declared before the loop.  The delay of a sleep is
    [calculateBackoffDelay(attempt, config)], a floating-point computation
    that the trace does not record.  [MaxRetries] is below the largest
    [int] in every configuration of the code, so that [attempt] and
    [MaxRetries + 1] do not wrap around. *)
Fixpoint retryLoop (Do : Z -> DoResult) (config : RetryConfig) (fuel : nat)
    (attempt : Z) (resp : option Response) (lastErr : error)
  : (option Response * error) * list Event :=
  match fuel with
  | O =>
      ((resp, Some ("request failed after " +:+ fmt_d (MaxRetries config + 1)
                    +:+ " attempts: " +:+ fmt_v lastErr)), [])
  | S fuel' =>
      let '(resp, lastErr) := Do attempt in
      match classify resp lastErr with
      | Return resp err => ((resp, err), [EvDo httpClient attempt])
      | Retry closed =>
          let '(out, trace) :=
            retryLoop Do config fuel' (attempt + 1) resp lastErr in
          (out,
           EvDo httpClient attempt
             :: (if closed then [EvClose attempt] else [])
             ++ (if attempt <? MaxRetries config then [EvSleep attempt] else [])
             ++ trace)
      end
  end.

Definition retryableHTTPRequest (Do : Z -> DoResult) (config : RetryConfig)
  : (option Response * error) * list Event :=
  retryLoop Do config (Z.to_nat (MaxRetries config + 1)) 0 None None.

Record APIResponse := mkAPIResponse {
  Status : bool;
  ErrorMessage : string
}.

Definition completionRetryConfig : RetryConfig :=
  mkRetryConfig 2 (300 * Millisecond) (5 * Second) 2%Q (20 * Second).

Definition completionURL (projectCode : string) (runID : Z) : string :=
  "https://api.qase.io/v1/run/" +:+ projectCode +:+ "/" +:+ fmt_d runID
  +:+ "/complete".

Section CompletionCall.
(** Whether [http.NewRequest(method, url, nil)] returns a request. *)
Variable NewRequest : string -> string -> bool.
(** [json.Unmarshal] of a body into an [APIResponse]. *)
Variable unmarshal : string -> option APIResponse.
(** The remote service: the results of the successive calls of
    [httpClient.Do] on the request for a URL. *)
Variable Do : string -> Z -> DoResult.

(** [completeRun] with the retrying executor: the answer and the trace of
    the requests.  A [nil] error never comes with a [nil] response; that
    branch, where the Go code would dereference [nil], is answered
    [false]. *)
Definition completeRun (apiToken projectCode : string) (runID : Z)
  : bool * list Event :=
  let url := completionURL projectCode runID in
  if negb (NewRequest "POST" url) then (false, [])
  else
    let '((res, err), trace) :=
      retryableHTTPRequest (Do url) completionRetryConfig in
    match err, res with
    | Some _, _ => (false, trace)
    | None, None => (false, trace)
    | None, Some r =>
        match Body r with
        | None => (false, trace)
        | Some body =>
            match unmarshal body with
            | None => (false, trace)
            | Some apiResp => (Status apiResp, trace)
            end
        end
    end.
End CompletionCall.

(** The line that [logError] writes for a run. *)
Definition ledgerEntry (runID : Z) : string :=
  "Run ID " +:+ fmt_d runID +:+ ": Test run not found" +:+ newline.

(** [logError]: [errors.txt] is opened with [O_APPEND|O_CREATE|O_WRONLY],
    so that the line is written after the content the file has, and the
    file is created empty when it is missing; when it cannot be opened
    nothing is written.  The code drops the errors of the write and of the
    flush; a file that was opened is taken to accept the line. *)
Definition logError (fs : FS) (runID : Z) : FS :=
  if decide ("errors.txt" ∈ denied fs) then fs
  else mkFS (<["errors.txt" :=
                 default "" (files fs !! "errors.txt") +:+ ledgerEntry runID]>
               (files fs))
            (denied fs).

Section CompleteRuns.
Variable NewRequest : string -> string -> bool.
Variable unmarshal : string -> option APIResponse.
(** The remote service during one execution: for the completion call of
    each position, the results of its successive requests. *)
Variable net : nat -> string -> Z -> DoResult.

(** One iteration of [for _, runID := range runIDs]: the call is added to
    the calls made, and a run whose call is answered [false] is logged.
    The tick of the rate limiter only spaces the calls in time. *)
Definition completeNext (apiToken projectCode : string)
    (st : list (Z * bool) * FS) (runID : Z) : list (Z * bool) * FS :=
  let ok := (completeRun NewRequest unmarshal (net (length st.1))
               apiToken projectCode runID).1 in
  (st.1 ++ [(runID, ok)], if ok then st.2 else logError st.2 runID).

(** [CompleteRuns]: the completion calls made, each with its answer, and
    the files afterwards. *)
Definition CompleteRuns (apiToken projectCode : string) (fs : FS)
  : list (Z * bool) * FS :=
  if eqb apiToken "" || eqb projectCode "" then ([], fs)
  else
    fold_left (completeNext apiToken projectCode)
      (readRunIDs fs "final.txt") ([], fs).
End CompleteRuns.

(** Vocabulary of the specification of the executor. *)

(** A transport-level error, or an HTTP response outside 2xx. *)
Definition failure (r : DoResult) : Prop :=
  r.2 <> None \/
  exists resp, r = (Some resp, None)
               /\ ~ (200 <= StatusCode resp < 300).

Definition retryableStatus (code : Z) : Prop :=
  code ∈ [429; 500; 502; 503; 504].

(** A transport-level error, or an HTTP response with a retryable status. *)
Definition retryable (r : DoResult) : Prop :=
  r.2 <> None \/
  exists resp, r = (Some resp, None) /\ retryableStatus (StatusCode resp).

(** Attempt [k] was sent. *)
Definition sent (trace : list Event) (k : Z) : Prop := EvDo httpClient k ∈ trace.

(** The number of requests after the first one. *)
Definition retries (trace : list Event) : Z := attempts trace - 1.

(** The content of the error ledger. *)
Definition ledger (fs : FS) : string := default "" (files fs !! "errors.txt").

(** The entries of a list of runs, one after the other. *)
Definition entries (runIDs : list Z) : string :=
  fold_right (fun runID rest => ledgerEntry runID +:+ rest) "" runIDs.

(** The run IDs of the calls that were answered [false], in call order. *)
Definition failedRuns (calls : list (Z * bool)) : list Z :=
  (filter (fun call => call.2 = false) calls).*1.

(** A token that is a decimal numeral: an optional sign and one or more
    digits, and nothing else. *)
Definition isNumeral (token : string) : bool :=
  let digits :=
    match token with
    | String c rest => if isSign c then rest else token
    | "" => token
    end in
  negb (eqb digits "")
  && forallb isDigit (list_ascii_of_string digits).

End Complete.

(** ** Package filter: what the test on a case amounts to *)

Module FilterSpec.
Import GoString Filter.

(** The first record, in log order, that carries the greatest end time of
    the case has a non-empty end time and the status "passed". *)
Definition latestIsPassed (cs : list TestResult) : Prop :=
  exists pre r post,
    cs = pre ++ r :: post
    /\ EndTime r <> ""
    /\ Status r = "passed"
    /\ (forall x, x ∈ pre -> gtb (EndTime r) (EndTime x) = true)
    /\ (forall x, x ∈ post -> gtb (EndTime x) (EndTime r) = false).

End FilterSpec.

(** ** More text functions of the Go library: printing and cutting

    As in [GoText], white space is that of Unicode, found byte by byte. *)

Module GoFmt.
Import GoString GoText.

(** [fmt.Sprint(runIDs)] for a slice of ints: the elements in decimal,
    separated by one space, between brackets. *)
Definition Sprint (runIDs : list Z) : string :=
  "[" +:+ String.concat " " (fmt_d <$> runIDs) +:+ "]".

(** A field goes on with the byte [c], where [fields] are the fields of
    what follows [c]. *)
Definition grow (c : ascii) (rest : string) (fields : list string) : list string :=
  match dropSpace rest, fields with
  | None, field :: fields' => String c field :: fields'
  | _, _ => String c "" :: fields
  end.

(** [strings.Fields]: the maximal runs of characters other than white
    space. *)
Fixpoint Fields (s : string) : list string :=
  match s with
  | "" => []
  | String c rest =>
      if asciiSpace c then Fields rest
      else match rest with
           | String d rest2 =>
               if twoByteSpace c d then Fields rest2
               else match rest2 with
                    | String e rest3 =>
                        if threeByteSpace c d e then Fields rest3
                        else grow c rest (Fields rest)
                    | "" => grow c rest (Fields rest)
                    end
           | "" => grow c rest (Fields rest)
           end
  end.

(** [strings.Join]. *)
Definition Join (elems : list string) (sep : string) : string :=
  String.concat sep elems.

Definition inCutset (cutset : string) (c : ascii) : bool :=
  existsb (Ascii.eqb c) (list_ascii_of_string cutset).

Fixpoint trimLeftCut (cutset s : string) : string :=
  match s with
  | String c rest => if inCutset cutset c then trimLeftCut cutset rest else s
  | "" => ""
  end.

Fixpoint trimRightCut (cutset s : string) : string :=
  match s with
  | "" => ""
  | String c rest =>
      match trimRightCut cutset rest with
      | "" => if inCutset cutset c then "" else String c ""
      | r => String c r
      end
  end.

(** [strings.Trim(s, cutset)]: [s] without its leading and trailing
    characters that are in [cutset]. *)
Definition Trim (s cutset : string) : string :=
  trimRightCut cutset (trimLeftCut cutset s).

End GoFmt.

(** ** Package filter: reading the log and writing the Selected list *)

Module FilterIO.
Import GoString GoText GoFmt Files Filter.

(** The text that [writeOutput] writes for a list of run IDs. *)
Definition outputText (runIDs : list Z) : string :=
  Trim (Join (Fields (Sprint runIDs)) ",") "[]".

(** [writeOutput]: [os.Create] empties the file or creates it; when it
    fails nothing is written.  The error of the write is only printed; a
    file that was created is taken to accept the text. *)
Definition writeOutput (runIDs : list Z) (outputFile : string) (fs : FS) : FS :=
  if decide (outputFile ∈ denied fs) then fs
  else mkFS (<[outputFile := outputText runIDs]> (files fs)) (denied fs).

Section FilterResults.
(** [json.Unmarshal] of a line into a [TestResult]. *)
Variable unmarshal : string -> option TestResult.
(** [bufio.Scanner] over the content of a file: the lines it yields, and
    whether [scanner.Err()] is an error afterwards. *)
Variable scanLines : string -> list string * bool.
Variable rangeOrder : gmap Z (list TestResult) -> list (Z * list TestResult).

(** The body of [for scanner.Scan()]: a line that does not parse is
    skipped, a record is appended to the slice of its run. *)
Definition collect (runResults : gmap Z (list TestResult)) (line : string)
  : gmap Z (list TestResult) :=
  match unmarshal line with
  | None => runResults
  | Some result =>
      <[RunID result := default [] (runResults !! RunID result) ++ [result]]>
        runResults
  end.

(** [FilterResults]: the files afterwards. *)
Definition FilterResults (fs : FS) : FS :=
  match files fs !! "results.json" with
  | None => fs
  | Some content =>
      let '(lines, scanErr) := scanLines content in
      let runResults := fold_left collect lines ∅ in
      if scanErr then fs
      else writeOutput (processResults rangeOrder runResults) "filtered.txt" fs
  end.
End FilterResults.

(** The records of a run among the records of the log, in log order. *)
Definition runRecords (runID : Z) (records : list TestResult) : list TestResult :=
  filter (fun r => RunID r = runID) records.

End FilterIO.

(** ** Vocabulary for the texts of the hand-off files *)

Module TextSpec.
Import GoString GoText GoFmt.

(** A character of a decimal numeral: a digit or the minus sign. *)
Definition numeralChar (c : ascii) : bool := isDigit c || (code c =? 45).

(** A character of a list of numerals: a numeral character or a comma. *)
Definition listChar (c : ascii) : bool := numeralChar c || (code c =? 44).

Definition chars (s : string) : list ascii := list_ascii_of_string s.

(** A byte of ASCII that is not white space. *)
Definition plainByte (c : ascii) : bool := (code c <? 128) && negb (asciiSpace c).

(** A word: a non-empty string of bytes of ASCII without white space. *)
Definition word (w : string) : Prop :=
  w <> "" /\ forallb plainByte (chars w) = true.

(** The words with a closing bracket added to the last one. *)
Fixpoint closeLast (ws : list string) : list string :=
  match ws with
  | [] => []
  | [w] => [w +:+ "]"]
  | w :: ws' => w :: closeLast ws'
  end.

(** The fields of the printed form of a slice whose elements print as
    [ws]. *)
Definition bracketed (ws : list string) : list string :=
  match ws with
  | [] => ["[]"]
  | w :: ws' => closeLast (("[" +:+ w) :: ws')
  end.

(** One step of the evaluation of a numeral. *)
Definition step (acc d : Z) : Z := 10 * acc + d.

(** The parts of a content as [readRunIDs] reads them. *)
Definition parseRunIDs (content : string) : list Z :=
  (fun part => default 0 (Sscanf_d part)) <$> Split (TrimSpace content) ",".

Definition bytes (codes : list N) : string :=
  string_of_list_ascii (ascii_of_N <$> codes).

(** The UTF-8 forms of the characters with the Unicode property
    White_Space: U+0009 to U+000D, U+0020, U+0085, U+00A0, U+1680, U+2000
    to U+200A, U+2028, U+2029, U+202F, U+205F and U+3000. *)
Definition whiteSpace : list string :=
  bytes <$>
    [[9]; [10]; [11]; [12]; [13]; [32]; [194; 133]; [194; 160];
     [225; 154; 128];
     [226; 128; 128]; [226; 128; 129]; [226; 128; 130]; [226; 128; 131];
     [226; 128; 132]; [226; 128; 133]; [226; 128; 134]; [226; 128; 135];
     [226; 128; 136]; [226; 128; 137]; [226; 128; 138];
     [226; 128; 168]; [226; 128; 169]; [226; 128; 175];
     [226; 129; 159]; [227; 128; 128]]%N.

(** The strings one after the other. *)
Definition joined (ws : list string) : string :=
  fold_right (fun w rest => w +:+ rest) "" ws.

(** A byte of what follows the integer of a part: of ASCII, and neither
    white space nor a comma. *)
Definition restByte (c : ascii) : bool := plainByte c && negb (Ascii.eqb c ",").

(** What may follow the integer at the head of a part: bytes of ASCII
    without white space and commas, the first of which is not a digit. *)
Definition afterInteger (rest : string) : Prop :=
  forallb restByte (chars rest) = true
  /\ match rest with String c _ => isDigit c = false | "" => True end.

End TextSpec.

(** ** Package match: the stage on the files *)

Module MatchIO.
Import GoString GoText Files Http Match.

(** [os.WriteFile(filename, content, 0644)]: the file is created, or
    replaced by the content; when it cannot be opened for writing nothing
    changes. *)
Definition WriteFile (filename content : string) (fs : FS) : FS :=
  if decide (filename ∈ denied fs) then fs
  else mkFS (<[filename := content]> (files fs)) (denied fs).

(** [writeValidRunIDs]: the error of [os.WriteFile] is dropped, or only
    printed. *)
Definition writeValidRunIDs (filename : string) (runIDs : list string) (fs : FS)
  : FS :=
  WriteFile filename (Match.writeValidRunIDs runIDs) fs.

Section Stage.
Context {TestResult : Type}.
(** [json.Unmarshal] of a line into a [TestResult]. *)
Variable unmarshalResult : string -> option TestResult.
(** [bufio.Scanner] over the content of a file: the lines it yields, and
    whether [scanner.Err()] is an error afterwards. *)
Variable scanLines : string -> list string * bool.
(** [validateRunCases] of the variant. *)
Variable validateRunCases : Z -> list Z -> list TestResult -> bool.
(** Whether [http.NewRequest(method, url, nil)] returns a request. *)
Variable NewRequest : string -> string -> bool.
(** [json.Unmarshal] of a body into an [APIResponse]. *)
Variable unmarshal : string -> option APIResponse.
(** The remote service, as for [fetchCasesForRunID]: a run ID that the
    hand-off file lists twice is asked for twice, and is answered the
    same. *)
Variable Do : string -> Z -> DoResult.

(** [readResults]: [nil] when the file cannot be opened; otherwise the
    records of the lines that parse.  [scanner.Err()] is not looked at. *)
Definition readResults (fs : FS) (filename : string) : list TestResult :=
  match files fs !! filename with
  | None => []
  | Some content => omap unmarshalResult (scanLines content).1
  end.

(** The two results of a call of [fetchCasesForRunID] that returns. *)
Definition fetchCases (apiToken projectCode : string) (runID : Z) : list Z * bool :=
  match (fetchCasesForRunID NewRequest unmarshal Do apiToken projectCode runID).1 with
  | Ok results => results
  | NilPanic => ([], false)
  end.

(** Whether the goroutine of one of the runs panics.  The loop starts a
    goroutine for every run ID, and none of them recovers. *)
Definition crashes (apiToken projectCode : string) (runIDs : list Z) : bool :=
  existsb
    (fun runID =>
       panics (fetchCasesForRunID NewRequest unmarshal Do
                 apiToken projectCode runID).1)
    runIDs.


(** [MatchResults]: the files afterwards, for a schedule of the
    goroutines.  A panic in a goroutine ends the process while the main
    goroutine is in [wg.Wait()], before [writeValidRunIDs]: the files are
    then as they were. *)
Definition MatchResults (apiToken projectCode : string) (schedule : list nat)
    (fs : FS) : FS :=
  if eqb apiToken "" || eqb projectCode "" then fs
  else
    let runIDs := readRunIDs fs "filtered.txt" in
    let results := readResults fs "results.json" in
    if crashes apiToken projectCode runIDs then fs
    else
      let validRunIDs :=
        Match.MatchResults validateRunCases (fetchCases apiToken projectCode)
          runIDs results schedule in
      writeValidRunIDs "final.txt" validRunIDs fs.
End Stage.

End MatchIO.

(** ** Package main: the stages one after the other *)

Module Main.
Import GoString GoText Files Http.

Section Pipeline.
(** [json.Unmarshal] of a line of the log into the [TestResult] of the
    package filter and into that of the package match. *)
Variable unmarshalRecord : string -> option Filter.TestResult.
Context {TestResult : Type}.
Variable unmarshalResult : string -> option TestResult.
(** [bufio.Scanner] over the content of the log. *)
Variable scanLines : string -> list string * bool.
Variable rangeOrder
  : gmap Z (list Filter.TestResult) -> list (Z * list Filter.TestResult).
Variable validateRunCases : Z -> list Z -> list TestResult -> bool.
(** [json.Unmarshal] of the bodies of the two remote calls. *)
Variable unmarshalCases : string -> option Match.APIResponse.
Variable unmarshalCompletion : string -> option Complete.APIResponse.
Variable NewRequest : string -> string -> bool.
(** The remote service during the validation and during the completion. *)
Variable Do : string -> Z -> DoResult.
Variable net : nat -> string -> Z -> DoResult.
(** The two environment variables. *)
Variables apiToken projectCode : string.

End Pipeline.

End Main.

(** ** Package match: vocabulary for the second variant of the validation *)

Module MatchSpec.
Import GoString Match.

(** The passed records of a case of a run, in log order. *)
Definition passes (runID caseID : Z) (results : list V2.TestResult)
  : list V2.TestResult :=
  filter (fun r => V2.RunID r = runID /\ V2.CaseID r = caseID
                   /\ V2.Status r = "passed") results.

(** A record of the run that is not passed, whose case has a passed
    record with an end time, and whose end time is greater than that of
    every passed record of its case. *)
Definition lateFailure (runID : Z) (results : list V2.TestResult)
    (f : V2.TestResult) : Prop :=
  V2.RunID f = runID /\ V2.Status f <> "passed"
  /\ (exists p, p ∈ passes runID (V2.CaseID f) results /\ V2.EndTime p <> "")
  /\ forall p, p ∈ passes runID (V2.CaseID f) results ->
       gtb (V2.EndTime f) (V2.EndTime p) = true.

(** [latestPassTime[caseID]] after the first loop. *)
Definition latest (runID : Z) (results : list V2.TestResult) (caseID : Z) : string :=
  default ""
    (V2.latestPassTime
       (fold_left (V2.scanStep runID) results (V2.mkScan ∅ ∅ ∅)) !! caseID).

End MatchSpec.

(** ** Package complete: completing every run in progress *)

Module CompleteAll.
Import GoString GoText Files Http Complete.

Module Run.
Record t := mk {
  ID : Z;
  Status : Z
}.
End Run.

(** The anonymous struct of the field [Result]. *)
Module RunsResult.
Record t := mk {
  Total : Z;
  Filtered : Z;
  Count : Z;
  Entities : list Run.t
}.
End RunsResult.

Record RunsAPIResponse := mkRunsAPIResponse {
  Status : bool;
  Result : RunsResult.t
}.

Definition limit : Z := 100.

Definition maxConsecutiveFailures : Z := 3.

(** The sum of two [int]s, on 64 bits. *)
Definition addInt (a b : Z) : Z := (a + b + 2 ^ 63) mod 2 ^ 64 - 2 ^ 63.

Definition runsURL (projectCode : string) (offset : Z) : string :=
  "https://api.qase.io/v1/run/" +:+ projectCode +:+ "?limit=" +:+ fmt_d limit
  +:+ "&offset=" +:+ fmt_d offset.

(** One iteration of [for _, run := range apiResp.Result.Entities]. *)
Definition keepInProgress (allInProgressRuns : list Z) (run : Run.t) : list Z :=
  if Run.Status run =? 0 then allInProgressRuns ++ [Run.ID run]
  else allInProgressRuns.

(** The variables of the loop of [fetchAllInProgressRuns], and the offsets
    for which a request was handed to the executor, in order. *)
Record FetchState := mkFetch {
  offset : Z;
  consecutiveFailures : Z;
  allInProgressRuns : list Z;
  requested : list Z
}.

(** How an iteration of the loop ends: with [continue] or at its end,
    with [break], or on the [nil] response that the Go code would
    dereference. *)
Inductive Step :=
| Continue (st : FetchState)
| Break (st : FetchState)
| NilResponse.

(** What is known of a call after a number of iterations. *)
Inductive Outcome :=
| Running
| Panics
| Returns (st : FetchState).

Section Fetch.
Variable NewRequest : string -> string -> bool.
(** [json.Unmarshal] of a body into a [RunsAPIResponse]. *)
Variable unmarshal : string -> option RunsAPIResponse.
(** The remote service during one execution: for the request of each
    position, the results of its successive attempts. *)
Variable net : nat -> string -> Z -> DoResult.

(** The body of [for { ... }].  [consecutiveFailures] stays below
    [maxConsecutiveFailures], so that its increment does not wrap
    around. *)
Definition fetchStep (projectCode : string) (st : FetchState) : Step :=
  let url := runsURL projectCode (offset st) in
  if negb (NewRequest "GET" url) then
    let failures := consecutiveFailures st + 1 in
    if maxConsecutiveFailures <=? failures
    then Break (mkFetch (offset st) failures (allInProgressRuns st) (requested st))
    else Continue (mkFetch (offset st) failures (allInProgressRuns st) (requested st))
  else
    let asked := requested st ++ [offset st] in
    let '((resp, err), _) :=
      retryableHTTPRequest (net (length (requested st)) url) defaultRetryConfig in
    match err, resp with
    | Some _, _ =>
        let failures := consecutiveFailures st + 1 in
        if maxConsecutiveFailures <=? failures
        then Break (mkFetch (offset st) failures (allInProgressRuns st) asked)
        else Continue (mkFetch (addInt (offset st) limit) failures
                         (allInProgressRuns st) asked)
    | None, None => NilResponse
    | None, Some r =>
        let skip :=
          Continue (mkFetch (addInt (offset st) limit) 0 (allInProgressRuns st) asked) in
        match Body r with
        | None => skip
        | Some body =>
            match unmarshal body with
            | None => skip
            | Some apiResp =>
                if negb (Status apiResp) then skip
                else
                  let entities := RunsResult.Entities (Result apiResp) in
                  let runs := fold_left keepInProgress entities (allInProgressRuns st) in
                  if Z.of_nat (length entities) <? limit
                  then Break (mkFetch (offset st) 0 runs asked)
                  else Continue (mkFetch (addInt (offset st) limit) 0 runs asked)
            end
        end
    end.

(** The loop, for a number of iterations. *)
Fixpoint fetchLoop (projectCode : string) (fuel : nat) (st : FetchState) : Outcome :=
  match fuel with
  | O => Running
  | S fuel' =>
      match fetchStep projectCode st with
      | Continue st' => fetchLoop projectCode fuel' st'
      | Break st' => Returns st'
      | NilResponse => Panics
      end
  end.

(** [fetchAllInProgressRuns] after at most [fuel] iterations of its loop;
    the slice returned is [allInProgressRuns] of the final state. *)
Definition fetchAllInProgressRuns (apiToken projectCode : string) (fuel : nat)
  : Outcome :=
  fetchLoop projectCode fuel (mkFetch 0 0 [] []).
End Fetch.

(** The two counters of [completeRunsInParallel]. *)
Record Summary := mkSummary {
  successCount : Z;
  errorCount : Z
}.

Section Parallel.
Variable NewRequest : string -> string -> bool.
Variable unmarshal : string -> option APIResponse.
(** The remote service: for the goroutine of each position of [runIDs],
    the results of the successive attempts of its completion call. *)
Variable net : nat -> string -> Z -> DoResult.

(** The goroutine of position [i], from [completeRun] to [mu.Unlock()]. *)
Definition finish (apiToken projectCode : string) (runIDs : list Z)
    (st : Summary * FS) (i : nat) : Summary * FS :=
  match runIDs !! i with
  | None => st
  | Some id =>
      let success :=
        (completeRun NewRequest unmarshal (net i) apiToken projectCode id).1 in
      if success
      then (mkSummary (successCount st.1 + 1) (errorCount st.1), st.2)
      else (mkSummary (successCount st.1) (errorCount st.1 + 1), logError st.2 id)
  end.

(** [completeRunsInParallel]: the counters and the files after
    [wg.Wait()].  One goroutine is started per position of [runIDs];
    [schedule] lists the positions in the order in which the goroutines
    reach [mu.Lock()]. *)
Definition completeRunsInParallel (apiToken projectCode : string)
    (runIDs : list Z) (schedule : list nat) (fs : FS) : Summary * FS :=
  fold_left (finish apiToken projectCode runIDs) schedule (mkSummary 0 0, fs).
End Parallel.

(** How an execution of [CompleteAllInProgressRuns] ends: the runs
    fetched, the counters and the files. *)
Inductive AllOutcome :=
| StillFetching
| Panicked
| Finished (inProgressRuns : list Z) (summary : Summary) (fs : FS).

Section CompleteAll.
Variable NewRequest : string -> string -> bool.
Variable unmarshalRuns : string -> option RunsAPIResponse.
Variable unmarshal : string -> option APIResponse.
(** The remote service during the fetch and during the completion. *)
Variable fetchNet : nat -> string -> Z -> DoResult.
Variable net : nat -> string -> Z -> DoResult.

(** [CompleteAllInProgressRuns], for a number of iterations of the fetch
    and a schedule of the goroutines. *)
Definition CompleteAllInProgressRuns (apiToken projectCode : string)
    (fuel : nat) (schedule : list nat) (fs : FS) : AllOutcome :=
  if eqb apiToken "" || eqb projectCode "" then Finished [] (mkSummary 0 0) fs
  else
    match fetchAllInProgressRuns NewRequest unmarshalRuns fetchNet
            apiToken projectCode fuel with
    | Running => StillFetching
    | Panics => Panicked
    | Returns st =>
        let inProgressRuns := allInProgressRuns st in
        if (length inProgressRuns =? 0)%nat
        then Finished inProgressRuns (mkSummary 0 0) fs
        else
          let '(summary, fs') :=
            completeRunsInParallel NewRequest unmarshal net apiToken projectCode
              inProgressRuns schedule fs in
          Finished inProgressRuns summary fs'
    end.
End CompleteAll.

(** Vocabulary: the run IDs in progress among the entities of a page. *)
Definition inProgress (entities : list Run.t) : list Z :=
  Run.ID <$> filter (fun run => Run.Status run = 0) entities.

(** The page that a response carries: its body can be read and parses to
    an answer with the status [true]. *)
Definition pageOf (unmarshal : string -> option RunsAPIResponse) (x : Response)
    (entities : list Run.t) : Prop :=
  exists body apiResp,
    Body x = Some body /\ unmarshal body = Some apiResp
    /\ Status apiResp = true /\ RunsResult.Entities (Result apiResp) = entities.

(** The result of the request of an iteration of the fetch. *)
Definition answer (net : nat -> string -> Z -> DoResult) (projectCode : string)
    (st : FetchState) : option Response * error :=
  (retryableHTTPRequest
     (net (length (requested st)) (runsURL projectCode (offset st)))
     defaultRetryConfig).1.

(** The service listed the run in progress: one of the attempts of a
    request for one of the offsets was answered by a 2xx response that
    carries a page with an entity of that ID whose status is 0. *)
Definition listedInProgress (unmarshal : string -> option RunsAPIResponse)
    (net : nat -> string -> Z -> DoResult) (projectCode : string)
    (offsets : list Z) (id : Z) : Prop :=
  exists i off k x entities run,
    off ∈ offsets /\ 0 <= k <= MaxRetries defaultRetryConfig
    /\ net i (runsURL projectCode off) k = (Some x, None)
    /\ 200 <= StatusCode x < 300
    /\ pageOf unmarshal x entities
    /\ run ∈ entities /\ Run.Status run = 0 /\ Run.ID run = id.

(** The runs whose completion call is answered [false], in the order in
    which their goroutines finish. *)
Definition failedInOrder (NewRequest : string -> string -> bool)
    (unmarshal : string -> option APIResponse)
    (net : nat -> string -> Z -> DoResult) (apiToken projectCode : string)
    (runIDs : list Z) (schedule : list nat) : list Z :=
  omap (fun i =>
          match runIDs !! i with
          | Some id =>
              if (completeRun NewRequest unmarshal (net i) apiToken projectCode id).1
              then None else Some id
          | None => None
          end)
       schedule.

End CompleteAll.

(** ** Package complete: the variant without the retrying executor *)

Module Simple.
Import GoString GoText Files Http Complete.

(** How a call ends: with a result, or on the dereference of a [nil]
    pointer. *)
Inductive Result (A : Type) :=
| Returns (a : A)
| Panics.
Arguments Returns {A} a.
Arguments Panics {A}.

Section CompletionCall.
Variable NewRequest : string -> string -> bool.
Variable unmarshal : string -> option APIResponse.
(** The remote service: the result of [http.DefaultClient.Do] on the
    request for a URL. *)
Variable Do : string -> DoResult.

(** [completeRun]: the error of [http.NewRequest] is dropped, and
    [req.Header.Add] dereferences the [nil] request; the error of
    [io.ReadAll] is dropped, and a body that cannot be read is handed to
    [json.Unmarshal] empty.  The status code of the response is not
    looked at. *)
Definition completeRun (apiToken projectCode : string) (runID : Z) : Result bool :=
  let url := completionURL projectCode runID in
  if negb (NewRequest "POST" url) then Panics
  else
    match Do url with
    | (_, Some _) => Returns false
    | (None, None) => Panics
    | (Some res, None) =>
        match unmarshal (default "" (Body res)) with
        | None => Returns false
        | Some apiResp => Returns (Status apiResp)
        end
    end.
End CompletionCall.

(** The variables of the loop of [fetchAllInProgressRuns], and the offsets
    for which a request was sent, in order. *)
Record FetchState := mkFetch {
  offset : Z;
  allInProgressRuns : list Z;
  requested : list Z
}.

Inductive Step :=
| Continue (st : FetchState)
| Break (st : FetchState)
| NilResponse.

Inductive Outcome :=
| Running
| Panicked
| Returned (st : FetchState).

Section Fetch.
Variable NewRequest : string -> string -> bool.
Variable unmarshal : string -> option CompleteAll.RunsAPIResponse.
(** The remote service: for the request of each position, the result of
    [http.DefaultClient.Do]. *)
Variable net : nat -> string -> DoResult.

(** The body of [for { ... }]: every failure is a [break]. *)
Definition fetchStep (projectCode : string) (st : FetchState) : Step :=
  let url := CompleteAll.runsURL projectCode (offset st) in
  if negb (NewRequest "GET" url) then Break st
  else
    let asked := requested st ++ [offset st] in
    let stop := Break (mkFetch (offset st) (allInProgressRuns st) asked) in
    match net (length (requested st)) url with
    | (_, Some _) => stop
    | (None, None) => NilResponse
    | (Some r, None) =>
        match Body r with
        | None => stop
        | Some body =>
            match unmarshal body with
            | None => stop
            | Some apiResp =>
                if negb (CompleteAll.Status apiResp) then stop
                else
                  let entities :=
                    CompleteAll.RunsResult.Entities (CompleteAll.Result apiResp) in
                  let runs :=
                    fold_left CompleteAll.keepInProgress entities
                      (allInProgressRuns st) in
                  if Z.of_nat (length entities) <? CompleteAll.limit
                  then Break (mkFetch (offset st) runs asked)
                  else Continue (mkFetch (CompleteAll.addInt (offset st)
                                            CompleteAll.limit) runs asked)
            end
        end
    end.

Fixpoint fetchLoop (projectCode : string) (fuel : nat) (st : FetchState) : Outcome :=
  match fuel with
  | O => Running
  | S fuel' =>
      match fetchStep projectCode st with
      | Continue st' => fetchLoop projectCode fuel' st'
      | Break st' => Returned st'
      | NilResponse => Panicked
      end
  end.

(** [fetchAllInProgressRuns] after at most [fuel] iterations of its
    loop. *)
Definition fetchAllInProgressRuns (apiToken projectCode : string) (fuel : nat)
  : Outcome :=
  fetchLoop projectCode fuel (mkFetch 0 [] []).
End Fetch.

(** Vocabulary: a request that brings no page. *)
Definition noPage (unmarshal : string -> option CompleteAll.RunsAPIResponse)
    (r : DoResult) : Prop :=
  r.2 <> None
  \/ exists x, r = (Some x, None)
               /\ forall entities, ~ CompleteAll.pageOf unmarshal x entities.

End Simple.

(** ** Scenarios: logs, remote services and files used in the examples *)

Module Scenarios.
Import GoString GoText Files Http.

Definition T1 : string := "2024-03-01T10:00:00Z".
Definition T2 : string := "2024-03-02T10:00:00Z".

(** Run 100: case 1 passed at T1 and failed at T2 > T1. *)
Definition run100 : list Filter.TestResult :=
  [Filter.mkResult 1 T1 100 "passed"; Filter.mkResult 1 T2 100 "failed"].

(** Run 101: case 1 failed at T1 and passed at T2 > T1; case 2 passed. *)
Definition run101 : list Filter.TestResult :=
  [Filter.mkResult 1 T2 101 "passed"; Filter.mkResult 2 T1 101 "passed";
   Filter.mkResult 1 T1 101 "failed"].

(** Run 200: every record passed, with end times in no particular order. *)
Definition run200 : list Filter.TestResult :=
  [Filter.mkResult 5 T2 200 "passed"; Filter.mkResult 5 T1 200 "passed";
   Filter.mkResult 6 "" 200 "passed"].

(** Run 300: case 1 fully passing, case 2 without any passed record. *)
Definition run300 : list Filter.TestResult :=
  [Filter.mkResult 1 T1 300 "passed"; Filter.mkResult 2 T1 300 "failed";
   Filter.mkResult 1 T2 300 "passed"].

Definition exampleLog : gmap Z (list Filter.TestResult) :=
  <[100 := run100]> (<[101 := run101]> (<[200 := run200]> {[300 := run300]})).

(** The remote service answering every request with one status. *)
Definition always (statusCode : Z) : Z -> DoResult :=
  fun _ => (Some (mkResponse statusCode (Some "")), None).

(** The transport failing on every request. *)
Definition down : Z -> DoResult :=
  fun _ => (None, Some "dial tcp: connection refused").

(** A service that answers 503, then fails in the transport, then answers
    404. *)
Definition flaky (attempt : Z) : DoResult :=
  if attempt =? 0 then (Some (mkResponse 503 (Some "")), None)
  else if attempt =? 1 then (None, Some "timeout")
  else (Some (mkResponse 404 (Some "{}")), None).

(** The transport failing on every request, for every URL. *)
Definition unreachable : string -> Z -> DoResult :=
  fun _ _ => (None, Some "dial tcp: connection refused").

(** The remote service reporting every run in progress with case 5. *)
Definition inProgress : Z -> list Z * bool := fun _ => ([5], true).

(** A local log in which runs 1 and 2 each passed case 5. *)
Definition twoRuns : list Match.V2.TestResult :=
  [Match.V2.mkResult 1 5 "passed" T1; Match.V2.mkResult 2 5 "passed" T1].

(** The files after an earlier execution logged run 3; the runs to
    complete are 7 and 8. *)
Definition filesBefore : FS :=
  mkFS (<["final.txt" := "7,8"]>
          {["errors.txt" := "Run ID 3: Test run not found" +:+ newline]}) ∅.

Definition requestOK : string -> string -> bool := fun _ _ => true.

(** With a project code such as "%zz" no URL parses, and no request is
    built. *)
Definition noRequest : string -> string -> bool := fun _ _ => false.

(** The body "done" stands for a response whose [status] is [true]. *)
Definition parse (body : string) : option Complete.APIResponse :=
  if eqb body "done" then Some (Complete.mkAPIResponse true "")
  else if eqb body "refused" then Some (Complete.mkAPIResponse false "Test run not found")
  else None.

(** The service completes run 8 and answers 404 for every other run. *)
Definition service : nat -> string -> Z -> DoResult :=
  fun _ url _ =>
    if eqb url (Complete.completionURL "DEMO" 8)
    then (Some (mkResponse 200 (Some "done")), None)
    else (Some (mkResponse 404 (Some "refused")), None).

(** A hand-off file holding only a line feed. *)
Definition blankFinal : FS := mkFS {["final.txt" := newline]} ∅.

End Scenarios.

(** ** Further scenarios *)

Module ExtraScenarios.
Import GoString GoText Files Http.

(** A service that answers 503 and then completes the request. *)
Definition recovers (attempt : Z) : DoResult :=
  if attempt =? 0 then (Some (mkResponse 503 (Some "")), None)
  else (Some (mkResponse 200 (Some "done")), None).

(** A configuration that allows no attempt. *)
Definition noAttempt : Complete.RetryConfig :=
  Complete.mkRetryConfig (-1) 0 0 2%Q 0.

(** The scanner of a toy log format: the lines are separated by
    semicolons, and the scan does not fail. *)
Definition logLines (content : string) : list string * bool :=
  (Split content ";", false).

(** The records of the lines of the toy log; the other lines do not
    parse. *)
Definition logRecord (line : string) : option Filter.TestResult :=
  if String.eqb line "a" then Some (Filter.mkResult 7 Scenarios.T1 101 "passed")
  else if String.eqb line "b" then Some (Filter.mkResult 8 Scenarios.T2 101 "passed")
  else if String.eqb line "c" then Some (Filter.mkResult 7 Scenarios.T1 300 "failed")
  else None.

Definition logFiles : FS := mkFS {["results.json" := "a;x;b;c"]} ∅.

(** A log of two runs whose only case passed, the greater run first. *)
Definition runLog (line : string) : option Filter.TestResult :=
  if String.eqb line "p" then Some (Filter.mkResult 7 Scenarios.T1 205 "passed")
  else if String.eqb line "q" then Some (Filter.mkResult 7 Scenarios.T1 101 "passed")
  else None.

Definition twoRunFiles : FS := mkFS {["results.json" := "p;q"]} ∅.

(** A map visited in the reverse of the order of [map_to_list]. *)
Definition visitBackwards (m : gmap Z (list Filter.TestResult))
  : list (Z * list Filter.TestResult) :=
  reverse (map_to_list m).

(** The records of the lines of the toy log as the package match reads
    them. *)
Definition matchRecord (line : string) : option Match.V2.TestResult :=
  if String.eqb line "a" then Some (Match.V2.mkResult 101 7 "passed" Scenarios.T1)
  else if String.eqb line "b" then Some (Match.V2.mkResult 101 8 "passed" Scenarios.T2)
  else if String.eqb line "c" then Some (Match.V2.mkResult 300 7 "failed" Scenarios.T1)
  else None.

(** A remote service that reports every run in progress with case 7; the
    body "open" stands for such a report. *)
Definition caseService : string -> Z -> DoResult :=
  fun _ _ => (Some (mkResponse 200 (Some "open")), None).

Definition parseCases (body : string) : option Match.APIResponse :=
  if String.eqb body "open"
  then Some (Match.mkAPIResponse true (Match.ResultStruct.mk 0 0 [7]))
  else None.

(** The files after the selection stage kept run 101. *)
Definition selectedFiles : FS :=
  mkFS (<["filtered.txt" := "101"]> {["results.json" := "a;x;b;c"]}) ∅.

(** A page of three runs, two of them in progress, and a full page of
    completed runs. *)
Definition lastPage : list CompleteAll.Run.t :=
  [CompleteAll.Run.mk 11 0; CompleteAll.Run.mk 12 1; CompleteAll.Run.mk 13 0].

Definition fullPage : list CompleteAll.Run.t :=
  replicate 100 (CompleteAll.Run.mk 5 1).

(** The body "full" stands for the full page and "last" for the page of
    three runs. *)
Definition parseRuns (body : string) : option CompleteAll.RunsAPIResponse :=
  if String.eqb body "full"
  then Some (CompleteAll.mkRunsAPIResponse true
               (CompleteAll.RunsResult.mk 103 103 100 fullPage))
  else if String.eqb body "last"
  then Some (CompleteAll.mkRunsAPIResponse true
               (CompleteAll.RunsResult.mk 103 103 3 lastPage))
  else None.

(** A service that answers the first request with the full page and the
    later ones with the page of three runs. *)
Definition runsService : nat -> string -> Z -> DoResult :=
  fun i _ _ =>
    match i with
    | O => (Some (mkResponse 200 (Some "full")), None)
    | _ => (Some (mkResponse 200 (Some "last")), None)
    end.

(** A proxy that answers every request with a page of HTML. *)
Definition htmlService : nat -> string -> Z -> DoResult :=
  fun _ _ _ => (Some (mkResponse 200 (Some "<html>")), None).

(** The transport failing on every request of every call. *)
Definition downService : nat -> string -> Z -> DoResult :=
  fun _ => Scenarios.unreachable.

(** The completion service completes every run but run 13. *)
Definition completionService : nat -> string -> Z -> DoResult :=
  fun _ url _ =>
    if String.eqb url (Complete.completionURL "DEMO" 13)
    then (Some (mkResponse 404 (Some "refused")), None)
    else (Some (mkResponse 200 (Some "done")), None).

End ExtraScenarios.

(** ** Facts about the order on Go strings *)

Module GoStringFacts.
Import GoString.

Lemma ascii_compare_refl (a : ascii) : Ascii.compare a a = Eq.
Proof. unfold Ascii.compare. apply N.compare_refl. Qed.

Lemma ascii_compare_lt_trans (a b c : ascii) :
  Ascii.compare a b = Lt -> Ascii.compare b c = Lt -> Ascii.compare a c = Lt.
Proof.
  unfold Ascii.compare. rewrite !N.compare_lt_iff. apply N.lt_trans.
Qed.

Lemma compare_refl (s : string) : String.compare s s = Eq.
Proof.
  induction s as [|a s IH]; simpl; [reflexivity|].
  now rewrite ascii_compare_refl.
Qed.

Lemma compare_lt_trans (s t u : string) :
  String.compare s t = Lt -> String.compare t u = Lt -> String.compare s u = Lt.
Proof.
  revert t u. induction s as [|a s IH]; intros [|b t] [|c u]; simpl; try congruence.
  destruct (Ascii.compare a b) eqn:Hab; try congruence;
    destruct (Ascii.compare b c) eqn:Hbc; try congruence; intros Hst Htu.
  - apply Ascii.compare_eq_iff in Hab, Hbc. subst.
    rewrite ascii_compare_refl. eauto.
  - apply Ascii.compare_eq_iff in Hab. subst. now rewrite Hbc.
  - apply Ascii.compare_eq_iff in Hbc. subst. now rewrite Hab.
  - now rewrite (ascii_compare_lt_trans _ _ _ Hab Hbc).
Qed.

Lemma gtb_irrefl (s : string) : gtb s s = false.
Proof. unfold gtb, String.ltb. now rewrite compare_refl. Qed.

Lemma gtb_trans (s t u : string) :
  gtb s t = true -> gtb t u = true -> gtb s u = true.
Proof.
  unfold gtb, String.ltb. intros Hst Htu.
  destruct (String.compare t s) eqn:H1; try discriminate.
  destruct (String.compare u t) eqn:H2; try discriminate.
  now rewrite (compare_lt_trans _ _ _ H2 H1).
Qed.

Lemma gtb_asym (s t : string) : gtb s t = true -> gtb t s = false.
Proof.
  intros H. destruct (gtb t s) eqn:H'; [|reflexivity].
  pose proof (gtb_trans _ _ _ H H') as Hs. now rewrite gtb_irrefl in Hs.
Qed.

(** Trichotomy: two strings neither of which is greater are equal. *)
Lemma gtb_total (s t : string) :
  gtb s t = false -> gtb t s = false -> s = t.
Proof.
  unfold gtb, String.ltb. intros H1 H2.
  destruct (String.compare s t) eqn:Hc.
  - now apply String.compare_eq_iff.
  - discriminate.
  - rewrite String.compare_antisym, Hc in H1. discriminate.
Qed.

Lemma gtb_empty_r (s : string) : gtb "" s = false.
Proof. now destruct s. Qed.

Lemma gtb_nonempty (s : string) : s <> "" -> gtb s "" = true.
Proof. destruct s; [congruence|reflexivity]. Qed.

Lemma eqb_eq (s t : string) : eqb s t = true <-> s = t.
Proof. apply String.eqb_eq. Qed.

Lemma geb_refl s : geb s s = true.
Proof. unfold geb. now rewrite gtb_irrefl. Qed.

Lemma geb_trans s t u : geb s t = true -> geb t u = true -> geb s u = true.
Proof.
  unfold geb. rewrite !negb_true_iff. intros Hst Htu.
  destruct (gtb u s) eqn:Hus; [|reflexivity].
  destruct (gtb s t) eqn:Hgt.
  - pose proof (gtb_trans _ _ _ Hus Hgt). congruence.
  - pose proof (gtb_total _ _ Hgt Hst). subst. congruence.
Qed.

Lemma gtb_geb s t : gtb s t = true -> geb s t = true.
Proof. intros H. unfold geb. now rewrite (gtb_asym _ _ H). Qed.

Lemma gtb_geb_trans s t u : gtb s t = true -> geb t u = true -> gtb s u = true.
Proof.
  unfold geb. rewrite negb_true_iff. intros Hst Htu.
  destruct (gtb t u) eqn:Hgt.
  - eapply gtb_trans; eauto.
  - pose proof (gtb_total _ _ Hgt Htu). now subst.
Qed.

End GoStringFacts.

(** ** Facts about the Run Selection Engine *)

Module FilterFacts.
Import GoString GoStringFacts Filter.

Ltac in_front := apply elem_of_app; left; assumption.
Ltac in_last := apply elem_of_app; right; apply list_elem_of_singleton; reflexivity.

Lemma passed_true (result : TestResult) :
  passed result = true <-> Status result = "passed".
Proof. unfold passed. apply eqb_eq. Qed.

Lemma caseOutcome_snoc (cs : list TestResult) (r : TestResult) :
  caseOutcome (cs ++ [r]) = caseStep (caseOutcome cs) r.
Proof. unfold caseOutcome. now rewrite fold_left_app. Qed.

(** [hasPassed] records whether some record of the case is passed. *)
Lemma hasPassed_iff (cs : list TestResult) :
  hasPassed (caseOutcome cs) = true <-> exists r, r ∈ cs /\ passed r = true.
Proof.
  induction cs as [|r cs IH] using rev_ind.
  - split; [discriminate|]. intros (r & Hr & _). now apply not_elem_of_nil in Hr.
  - rewrite caseOutcome_snoc. unfold caseStep.
    destruct (passed r) eqn:Hp; simpl.
    + split; [|reflexivity]. intros _. exists r. split; [in_last|assumption].
    + rewrite IH. split; intros (r' & Hin & Hp').
      * exists r'. split; [in_front|assumption].
      * exists r'. split; [|assumption].
        apply elem_of_app in Hin as [Hin|Hin]; [assumption|].
        apply list_elem_of_singleton in Hin. congruence.
Qed.

(** Before any passed record is seen, [latestPassedTime] is empty. *)
Lemma latestPassedTime_init (cs : list TestResult) :
  hasPassed (caseOutcome cs) = false -> latestPassedTime (caseOutcome cs) = "".
Proof.
  induction cs as [|r cs IH] using rev_ind; [reflexivity|].
  rewrite caseOutcome_snoc. unfold caseStep.
  destruct (passed r); simpl; [discriminate|exact IH].
Qed.

(** [latestOverallTime] is at least the end time of every record. *)
Lemma latestOverallTime_ub (cs : list TestResult) (r : TestResult) :
  r ∈ cs -> geb (latestOverallTime (caseOutcome cs)) (EndTime r) = true.
Proof.
  induction cs as [|x cs IH] using rev_ind; [intros H; now apply not_elem_of_nil in H|].
  rewrite caseOutcome_snoc. intros Hin.
  assert (Hstep : forall t,
    geb (latestOverallTime (caseOutcome cs)) t = true ->
    geb (latestOverallTime (caseStep (caseOutcome cs) x)) t = true).
  { intros t Ht. unfold caseStep.
    destruct (gtb (EndTime x) (latestOverallTime (caseOutcome cs))) eqn:Hgt;
      destruct (passed x); simpl; try assumption;
      apply gtb_geb; eapply gtb_geb_trans; eauto. }
  apply elem_of_app in Hin as [Hin|Hin].
  - apply Hstep, IH, Hin.
  - apply list_elem_of_singleton in Hin. subst x. unfold caseStep.
    destruct (gtb (EndTime r) (latestOverallTime (caseOutcome cs))) eqn:Hgt;
      destruct (passed r); simpl; try apply geb_refl;
      unfold geb; now rewrite Hgt.
Qed.

(** [latestPassedTime] is at least the end time of every passed record. *)
Lemma latestPassedTime_ub (cs : list TestResult) (r : TestResult) :
  r ∈ cs -> passed r = true ->
  geb (latestPassedTime (caseOutcome cs)) (EndTime r) = true.
Proof.
  induction cs as [|x cs IH] using rev_ind; [intros H; now apply not_elem_of_nil in H|].
  rewrite caseOutcome_snoc. intros Hin Hp.
  assert (Hstep : forall t,
    geb (latestPassedTime (caseOutcome cs)) t = true ->
    geb (latestPassedTime (caseStep (caseOutcome cs) x)) t = true).
  { intros t Ht. unfold caseStep. destruct (passed x); simpl; [|assumption].
    destruct (gtb (EndTime x) (latestPassedTime (caseOutcome cs))) eqn:Hgt;
      [|assumption].
    apply gtb_geb; eapply gtb_geb_trans; eauto. }
  apply elem_of_app in Hin as [Hin|Hin].
  - apply Hstep, IH; assumption.
  - apply list_elem_of_singleton in Hin. subst x. unfold caseStep.
    rewrite Hp. simpl.
    destruct (gtb (EndTime r) (latestPassedTime (caseOutcome cs))) eqn:Hgt;
      [apply geb_refl|]. unfold geb. now rewrite Hgt.
Qed.

(** Once a passed record was seen, [latestPassedTime] is the end time of
    one of the passed records. *)
Lemma latestPassedTime_attained (cs : list TestResult) :
  hasPassed (caseOutcome cs) = true ->
  exists r, r ∈ cs /\ passed r = true
            /\ EndTime r = latestPassedTime (caseOutcome cs).
Proof.
  induction cs as [|x cs IH] using rev_ind; [discriminate|].
  rewrite caseOutcome_snoc. unfold caseStep.
  destruct (passed x) eqn:Hp; simpl.
  - intros _.
    destruct (gtb (EndTime x) (latestPassedTime (caseOutcome cs))) eqn:Hgt.
    + exists x. split; [in_last|]. now split.
    + destruct (hasPassed (caseOutcome cs)) eqn:Hh.
      * destruct (IH eq_refl) as (r & Hin & Hpr & Ht).
        exists r. split; [in_front|]. now split.
      * exists x. split; [in_last|]. split; [assumption|].
        rewrite (latestPassedTime_init _ Hh) in *.
        apply gtb_total; [assumption|apply gtb_empty_r].
  - intros Hh. destruct (IH Hh) as (r & Hin & Hpr & Ht).
    exists r. split; [in_front|]. now split.
Qed.

(** A case that lets the run through has a passed record that no record
    of the case is later than. *)
Lemma caseKeeps_latest_passed (cs : list TestResult) :
  caseKeeps (caseOutcome cs) = true ->
  exists r, r ∈ cs /\ passed r = true /\
    forall r', r' ∈ cs -> gtb (EndTime r') (EndTime r) = false.
Proof.
  unfold caseKeeps. destruct (hasPassed (caseOutcome cs)) eqn:Hh; [|discriminate].
  rewrite andb_true_iff, !eqb_eq. intros [Heq _].
  destruct (latestPassedTime_attained cs Hh) as (r & Hin & Hp & Ht).
  exists r. split; [assumption|]. split; [assumption|].
  intros r' Hin'. pose proof (latestOverallTime_ub cs r' Hin') as Hub.
  rewrite <- Heq, <- Ht in Hub. unfold geb in Hub.
  now apply negb_true_iff in Hub.
Qed.

(** A case with no passed record stops the run. *)
Lemma caseKeeps_no_pass (cs : list TestResult) :
  (forall r, r ∈ cs -> passed r = false) ->
  caseKeeps (caseOutcome cs) = false.
Proof.
  intros Hno. unfold caseKeeps.
  destruct (hasPassed (caseOutcome cs)) eqn:Hh; [|reflexivity].
  apply hasPassed_iff in Hh as (r & Hin & Hp). rewrite (Hno r Hin) in Hp.
  discriminate.
Qed.

(** A case with a non-passed record later than all its passed records
    stops the run. *)
Lemma caseKeeps_later_failure (cs : list TestResult) (r2 : TestResult) :
  r2 ∈ cs ->
  (forall r, r ∈ cs -> passed r = true -> gtb (EndTime r2) (EndTime r) = true) ->
  caseKeeps (caseOutcome cs) = false.
Proof.
  intros Hin Hlater. destruct (caseKeeps (caseOutcome cs)) eqn:Hk; [|reflexivity].
  destruct (caseKeeps_latest_passed cs Hk) as (r & Hr & Hp & Hmax).
  specialize (Hmax r2 Hin). rewrite (Hlater r Hr Hp) in Hmax. discriminate.
Qed.

(** *** Grouping by case *)

Lemma groupCases_snoc (results : list TestResult) (r : TestResult) :
  groupCases (results ++ [r]) = groupStep (groupCases results) r.
Proof. unfold groupCases. now rewrite fold_left_app. Qed.

Lemma groupCases_allPassed (results : list TestResult) :
  (groupCases results).1 = forallb passed results.
Proof.
  induction results as [|r results IH] using rev_ind; [reflexivity|].
  rewrite groupCases_snoc, forallb_app. simpl. rewrite IH.
  destruct (passed r), (forallb passed results); reflexivity.
Qed.

Lemma groupCases_lookup (results : list TestResult) (c : Z) :
  (groupCases results).2 !! c =
    match caseRecords c results with [] => None | cs => Some cs end.
Proof.
  unfold caseRecords.
  induction results as [|r results IH] using rev_ind; [reflexivity|].
  rewrite groupCases_snoc, filter_app. simpl.
  destruct (decide (CaseID r = c)) as [Heq|Hne].
  - rewrite Heq, lookup_insert_eq, IH.
    rewrite filter_cons_True, filter_nil by assumption.
    destruct (filter _ results); reflexivity.
  - rewrite lookup_insert_ne, IH by assumption.
    rewrite filter_cons_False, filter_nil, app_nil_r by assumption.
    reflexivity.
Qed.

Lemma caseRecords_nonempty (results : list TestResult) (r : TestResult) :
  r ∈ results -> r ∈ caseRecords (CaseID r) results.
Proof. intros Hin. apply list_elem_of_filter. now split. Qed.

Lemma groupCases_lookup_Some (results : list TestResult) (c : Z) cs :
  (groupCases results).2 !! c = Some cs <->
  cs = caseRecords c results /\ exists r, r ∈ results /\ CaseID r = c.
Proof.
  rewrite groupCases_lookup. split.
  - destruct (caseRecords c results) as [|x l] eqn:Hcs; [discriminate|].
    intros [= <-]. split; [reflexivity|]. exists x.
    assert (Hx : x ∈ caseRecords c results) by (rewrite Hcs; left).
    apply list_elem_of_filter in Hx as [? ?]. now split.
  - intros [-> (r & Hin & Hc)]. subst c.
    pose proof (caseRecords_nonempty results r Hin) as Hne.
    destruct (caseRecords (CaseID r) results); [|reflexivity].
    now apply not_elem_of_nil in Hne.
Qed.

(** *** The loop over the cases of a run *)

Lemma caseLoop_true (cases : list (Z * list TestResult)) :
  (caseLoop cases true).1 = true <-> Forall keeps cases.
Proof.
  induction cases as [|[c cs] cases IH]; simpl.
  - split; [constructor|reflexivity].
  - destruct (caseKeeps (caseOutcome cs)) eqn:Hk.
    + destruct (caseLoop cases true) as [keep visited]; simpl in *.
      rewrite IH. split; [now constructor|now inversion 1].
    + simpl. split; [discriminate|]. inversion 1 as [|? ? Hk']. unfold keeps in Hk'.
      simpl in Hk'. congruence.
Qed.

Lemma caseLoop_false (cases : list (Z * list TestResult)) :
  (caseLoop cases false).1 = true <-> cases <> [] /\ Forall keeps cases.
Proof.
  destruct cases as [|[c cs] cases]; simpl.
  - split; [discriminate|]. now intros [? _].
  - pose proof (caseLoop_true cases) as Ht.
    destruct (caseKeeps (caseOutcome cs)) eqn:Hk.
    + destruct (caseLoop cases true) as [keep visited]; simpl in *.
      rewrite Ht. split; [now split; [|constructor]|]. intros [_ H]. now inversion H.
    + simpl. split; [discriminate|]. intros [_ H]. inversion H as [|? ? Hk'].
      unfold keeps in Hk'. simpl in Hk'. congruence.
Qed.

(** The loop examines the cases up to the first one that does not keep
    the run, and none after it. *)
Lemma caseLoop_stops (pre rest : list (Z * list TestResult)) c cs k :
  Forall keeps pre -> caseKeeps (caseOutcome cs) = false ->
  caseLoop (pre ++ (c, cs) :: rest) k = (false, pre.*1 ++ [c]).
Proof.
  intros Hpre Hk. revert k. induction Hpre as [|[c' cs'] pre Hk' Hpre IH]; intros k; simpl.
  - now rewrite Hk.
  - unfold keeps in Hk'. simpl in Hk'. rewrite Hk', IH. reflexivity.
Qed.

(** *** Selection of a run, for any visiting order *)

Section Selection.
Variable rangeOrder : gmap Z (list TestResult) -> list (Z * list TestResult).
Hypothesis rangeOrder_entries : ListsEntries rangeOrder.

Lemma elem_of_rangeOrder (m : gmap Z (list TestResult)) c cs :
  (c, cs) ∈ rangeOrder m <-> m !! c = Some cs.
Proof. rewrite (rangeOrder_entries m). apply elem_of_map_to_list. Qed.

(** A run is selected exactly when all its records are passed or every
    one of its cases keeps it. *)
Lemma selectsRun_spec (results : list TestResult) :
  selectsRun rangeOrder results = true <->
  forallb passed results = true \/
  (forall r, r ∈ results ->
     caseKeeps (caseOutcome (caseRecords (CaseID r) results)) = true).
Proof.
  unfold selectsRun.
  pose proof (groupCases_allPassed results) as Hall.
  pose proof (groupCases_lookup_Some results) as Hlk.
  destruct (groupCases results) as [allPassed caseStatuses]. simpl in *.
  subst allPassed. destruct (forallb passed results) eqn:Hfa.
  { split; [now left|reflexivity]. }
  rewrite caseLoop_false. split.
  - intros [_ Hforall]. right. intros r Hin.
    rewrite Forall_forall in Hforall.
    apply (Hforall (CaseID r, caseRecords (CaseID r) results)).
    apply elem_of_rangeOrder, Hlk. split; [reflexivity|]. now exists r.
  - intros [|Hcases]; [discriminate|]. split.
    + destruct results as [|r results]; [discriminate|].
      assert (Hin : (CaseID r, caseRecords (CaseID r) (r :: results))
                      ∈ rangeOrder caseStatuses).
      { apply elem_of_rangeOrder, Hlk. split; [reflexivity|].
        exists r. split; [left|reflexivity]. }
      intros Hnil. rewrite Hnil in Hin. now apply not_elem_of_nil in Hin.
    + apply Forall_forall. intros [c cs] Hin.
      apply elem_of_rangeOrder, Hlk in Hin as [-> (r & Hr & <-)].
      apply Hcases, Hr.
Qed.

Lemma selected_fold (order : list (Z * list TestResult)) (acc : list Z) :
  fold_left
    (fun selectedRunIDs '(runID, results) =>
       if selectsRun rangeOrder results then selectedRunIDs ++ [runID]
       else selectedRunIDs) order acc
  = acc ++ (filter (fun e => selectsRun rangeOrder e.2 = true) order).*1.
Proof.
  revert acc. induction order as [|[runID results] order IH]; intros acc; simpl.
  - now rewrite app_nil_r.
  - rewrite IH. destruct (selectsRun rangeOrder results) eqn:Hs.
    + rewrite filter_cons_True by assumption. simpl. now rewrite <- app_assoc.
    + rewrite filter_cons_False by (simpl; congruence). reflexivity.
Qed.

Lemma processResults_perm (runResults : gmap Z (list TestResult)) :
  processResults rangeOrder runResults ≡ₚ
  (filter (fun e => selectsRun rangeOrder e.2 = true) (map_to_list runResults)).*1.
Proof.
  unfold processResults, sortInts.
  rewrite merge_sort_Permutation, selected_fold. simpl.
  now rewrite (rangeOrder_entries runResults).
Qed.

(** The selected run IDs are exactly the keys of the log whose run is
    selected. *)
Lemma elem_of_processResults (runResults : gmap Z (list TestResult)) (runID : Z) :
  runID ∈ processResults rangeOrder runResults <->
  exists results, runResults !! runID = Some results
                  /\ selectsRun rangeOrder results = true.
Proof.
  rewrite processResults_perm, list_elem_of_fmap. split.
  - intros ([k results] & -> & Hin).
    apply list_elem_of_filter in Hin as [Hs Hin].
    apply elem_of_map_to_list in Hin. now exists results.
  - intros (results & Hlk & Hs). exists (runID, results). split; [reflexivity|].
    apply list_elem_of_filter. split; [assumption|].
    now apply elem_of_map_to_list.
Qed.

Lemma processResults_Sorted (runResults : gmap Z (list TestResult)) :
  Sorted Z.le (processResults rangeOrder runResults).
Proof. unfold processResults, sortInts. apply (Sorted_merge_sort Z.le). Qed.

Lemma processResults_NoDup (runResults : gmap Z (list TestResult)) :
  NoDup (processResults rangeOrder runResults).
Proof.
  rewrite processResults_perm.
  eapply sublist_NoDup; [apply (NoDup_fst_map_to_list runResults)|].
  apply fmap_sublist, sublist_filter.
Qed.
End Selection.

(** The selected list does not depend on the visiting order. *)
Lemma processResults_order_irrelevant rangeOrder1 rangeOrder2 runResults :
  ListsEntries rangeOrder1 -> ListsEntries rangeOrder2 ->
  processResults rangeOrder1 runResults = processResults rangeOrder2 runResults.
Proof.
  intros H1 H2.
  apply (Sorted_unique Z.le); try apply processResults_Sorted.
  rewrite !processResults_perm by assumption.
  assert (Hsel : forall results,
    selectsRun rangeOrder1 results = selectsRun rangeOrder2 results).
  { intros results. apply eq_true_iff_eq.
    now rewrite !selectsRun_spec by assumption. }
  rewrite (list_filter_iff _ (fun e => selectsRun rangeOrder2 e.2 = true));
    [reflexivity|].
  intros e. now rewrite Hsel.
Qed.

End FilterFacts.

(** ** Properties of the Run Selection Engine *)

Module SelectionClaims.
Import GoString GoStringFacts Filter FilterFacts.

Lemma caseKeeps_pass_after_fail (cs : list TestResult) (T1 T2 : string) :
  passThenFail cs T1 T2 -> gtb T1 T2 = true ->
  caseKeeps (caseOutcome cs) = true.
Proof.
  intros (p & f & Hcs & Hp & <- & Hf & <-) Hgt.
  assert (Hne : gtb (EndTime p) "" = true).
  { apply gtb_nonempty. intros He. rewrite He, gtb_empty_r in Hgt. discriminate. }
  pose proof (gtb_asym _ _ Hgt) as Hlt.
  destruct Hcs as [-> | ->]; unfold caseKeeps, caseOutcome, caseStep; simpl;
    rewrite ?Hp, ?Hf; simpl; rewrite ?Hne; simpl; rewrite ?Hlt; simpl;
    rewrite ?Hp, ?Hf; simpl; rewrite ?Hne; simpl.
  - unfold eqb. rewrite String.eqb_refl. apply Hp.
  - destruct (gtb (EndTime f) "") eqn:Hfe; simpl; rewrite ?Hgt, ?Hne; simpl;
      unfold eqb; rewrite String.eqb_refl; apply Hp.
Qed.

(** C1 (latest-wins selection rule).  For every visiting order of the Go
    maps: (1) when a run that is not all-passed is selected, every case of
    the run has a passed record, [latestPassedTime] equals
    [latestOverallTime], [latestOverallStatus] is "passed", and some
    passed record of the case has an end time that no record of the case
    exceeds; (2) a run with a non-passed record whose end time is greater
    than that of every passed record of its case (T1 passed, T2 failed,
    T2 > T1) is not selected; (3) a run whose case has a passed record at
    T1 and a non-passed one at T2 < T1 is selected as soon as its other
    cases keep it. *)
Theorem latest_wins
    (rangeOrder : gmap Z (list TestResult) -> list (Z * list TestResult))
    (Hentries : ListsEntries rangeOrder) :
  (forall runResults runID results r,
      runResults !! runID = Some results ->
      forallb passed results = false ->
      runID ∈ processResults rangeOrder runResults ->
      r ∈ results ->
      let cs := caseRecords (CaseID r) results in
      hasPassed (caseOutcome cs) = true /\
      latestPassedTime (caseOutcome cs) = latestOverallTime (caseOutcome cs) /\
      latestOverallStatus (caseOutcome cs) = "passed" /\
      exists p, p ∈ cs /\ Status p = "passed" /\
                forall r', r' ∈ cs -> gtb (EndTime r') (EndTime p) = false) /\
  (forall runResults runID results r2,
      runResults !! runID = Some results ->
      r2 ∈ results -> Status r2 <> "passed" ->
      (forall r1, r1 ∈ results -> CaseID r1 = CaseID r2 -> Status r1 = "passed" ->
                  gtb (EndTime r2) (EndTime r1) = true) ->
      runID ∉ processResults rangeOrder runResults) /\
  (forall runResults runID results caseID T1 T2,
      runResults !! runID = Some results ->
      passThenFail (caseRecords caseID results) T1 T2 ->
      gtb T1 T2 = true ->
      (forall r, r ∈ results -> CaseID r <> caseID ->
                 caseKeeps (caseOutcome (caseRecords (CaseID r) results)) = true) ->
      runID ∈ processResults rangeOrder runResults).
Proof.
  split; [|split].
  - intros runResults runID results r Hlk Hnot Hsel Hr cs.
    apply (elem_of_processResults _ Hentries) in Hsel as (results' & Hlk' & Hs).
    assert (results' = results) by congruence. subst results'.
    apply (selectsRun_spec _ Hentries) in Hs as [Hall|Hcases]; [congruence|].
    specialize (Hcases r Hr). fold cs in Hcases.
    destruct (caseKeeps_latest_passed cs Hcases) as (p & Hp & Hpp & Hmax).
    unfold caseKeeps in Hcases.
    destruct (hasPassed (caseOutcome cs)); [|discriminate].
    apply andb_true_iff in Hcases as [Ht Hst]. apply eqb_eq in Ht, Hst.
    repeat split; try assumption.
    exists p. split; [assumption|]. split; [now apply passed_true|assumption].
  - intros runResults runID results r2 Hlk Hr2 Hst Hlater Hsel.
    apply (elem_of_processResults _ Hentries) in Hsel as (results' & Hlk' & Hs).
    assert (results' = results) by congruence. subst results'.
    assert (Hnp : passed r2 = false).
    { destruct (passed r2) eqn:Hp; [|reflexivity]. now apply passed_true in Hp. }
    apply (selectsRun_spec _ Hentries) in Hs as [Hall|Hcases].
    + rewrite forallb_forall in Hall. rewrite Hall in Hnp; [discriminate|].
      now apply list_elem_of_In.
    + specialize (Hcases r2 Hr2).
      rewrite (caseKeeps_later_failure _ r2) in Hcases; [discriminate| |].
      * now apply caseRecords_nonempty.
      * intros r Hin Hp. apply list_elem_of_filter in Hin as [Hc Hin].
        apply Hlater; [assumption..|now apply passed_true].
  - intros runResults runID results caseID T1 T2 Hlk Hcs Hgt Hothers.
    apply (elem_of_processResults _ Hentries). exists results. split; [assumption|].
    apply (selectsRun_spec _ Hentries). right. intros r Hr.
    destruct (decide (CaseID r = caseID)) as [->|Hne].
    + eapply caseKeeps_pass_after_fail; eauto.
    + now apply Hothers.
Qed.

(** C3 (all-passed shortcut).  A run all of whose records have status
    "passed" is selected; it is selected whatever the loop over the cases
    would have answered, [selectsRun] returning [true] for every function
    standing for the order of that loop; and it stays selected when the end
    times of its records are replaced by any others. *)
Theorem all_passed_shortcut
    (rangeOrder : gmap Z (list TestResult) -> list (Z * list TestResult))
    (Hentries : ListsEntries rangeOrder)
    (runResults : gmap Z (list TestResult)) (runID : Z) (results : list TestResult) :
  runResults !! runID = Some results ->
  (forall r, r ∈ results -> Status r = "passed") ->
  runID ∈ processResults rangeOrder runResults /\
  (forall anyOrder, selectsRun anyOrder results = true) /\
  (forall anyOrder times, selectsRun anyOrder (retime times <$> results) = true).
Proof.
  intros Hlk Hall.
  assert (Hany : forall anyOrder rs,
            (forall r, r ∈ rs -> Status r = "passed") ->
            selectsRun anyOrder rs = true).
  { intros anyOrder rs Hrs. unfold selectsRun.
    pose proof (groupCases_allPassed rs) as Hg.
    destruct (groupCases rs) as [allPassed caseStatuses]. simpl in Hg.
    rewrite Hg. replace (forallb passed rs) with true; [reflexivity|].
    symmetry. apply forallb_forall. intros r Hr. apply passed_true, Hrs.
    now apply list_elem_of_In. }
  split; [|split].
  - apply (elem_of_processResults _ Hentries). exists results.
    split; [assumption|]. now apply Hany.
  - intros anyOrder. now apply Hany.
  - intros anyOrder times. apply Hany. intros r Hr.
    apply list_elem_of_fmap in Hr as (r0 & -> & Hr0). simpl. now apply Hall.
Qed.

(** C4 (single-failure veto).  A run one of whose cases has no passed
    record is never selected, whatever its other cases are; and the loop
    over the cases answers [false] having examined no case placed after
    the first case without a passed record. *)
Theorem single_failure_veto
    (rangeOrder : gmap Z (list TestResult) -> list (Z * list TestResult))
    (Hentries : ListsEntries rangeOrder) :
  (forall runResults runID results r,
      runResults !! runID = Some results ->
      r ∈ results ->
      (forall r', r' ∈ results -> CaseID r' = CaseID r -> Status r' <> "passed") ->
      runID ∉ processResults rangeOrder runResults) /\
  (forall pre caseID caseResults rest keepRunID,
      (forall r, r ∈ caseResults -> Status r <> "passed") ->
      let out := caseLoop (pre ++ (caseID, caseResults) :: rest) keepRunID in
      out.1 = false /\ out.2 `prefix_of` pre.*1 ++ [caseID]).
Proof.
  assert (Hnp : forall r, Status r <> "passed" -> passed r = false).
  { intros r Hst. destruct (passed r) eqn:Hp; [|reflexivity].
    now apply passed_true in Hp. }
  split.
  - intros runResults runID results r Hlk Hr Hnone Hsel.
    apply (elem_of_processResults _ Hentries) in Hsel as (results' & Hlk' & Hs).
    assert (results' = results) by congruence. subst results'.
    apply (selectsRun_spec _ Hentries) in Hs as [Hall|Hcases].
    + rewrite forallb_forall in Hall.
      pose proof (Hnp r (Hnone r Hr eq_refl)) as Hpr.
      rewrite Hall in Hpr; [discriminate|now apply list_elem_of_In].
    + specialize (Hcases r Hr). rewrite caseKeeps_no_pass in Hcases; [discriminate|].
      intros r' Hin. apply list_elem_of_filter in Hin as [Hc Hin]. auto.
  - intros pre caseID caseResults rest keepRunID Hnone.
    assert (Hk : caseKeeps (caseOutcome caseResults) = false).
    { apply caseKeeps_no_pass. auto. }
    revert keepRunID. induction pre as [|[c cs] pre IH]; intros keepRunID; simpl.
    + now rewrite Hk.
    + destruct (caseKeeps (caseOutcome cs)).
      * specialize (IH true). simpl in IH.
        destruct (caseLoop (pre ++ (caseID, caseResults) :: rest) true)
          as [keep visited]. simpl in *. destruct IH as [-> Hpre].
        split; [reflexivity|]. now apply prefix_cons.
      * simpl. split; [reflexivity|]. apply prefix_cons, prefix_nil.
Qed.

End SelectionClaims.

(** ** The Run Selection Engine on the example log *)

Module SelectionExamples.
Import GoString GoStringFacts Filter FilterFacts SelectionClaims Scenarios.

Lemma map_to_list_entries : ListsEntries map_to_list.
Proof. intros m. reflexivity. Defined.

Example exampleLog_selected : processResults map_to_list exampleLog = [101; 200].
Proof. vm_compute. reflexivity. Qed.

Ltac in_concrete H :=
  apply list_elem_of_In in H; simpl in H;
  repeat (destruct H as [<-|H]; [|]); try contradiction.

Lemma latest_wins_witness :
  (let cs := caseRecords 1 run101 in
   latestPassedTime (caseOutcome cs) = latestOverallTime (caseOutcome cs)
   /\ latestOverallStatus (caseOutcome cs) = "passed")
  /\ (100 ∉ processResults map_to_list exampleLog)
  /\ (101 ∈ processResults map_to_list exampleLog).
Proof.
  destruct (latest_wins map_to_list map_to_list_entries) as (Hrule & Hreject & Hselect).
  assert (H101 : 101 ∈ processResults map_to_list exampleLog).
  { apply (Hselect exampleLog 101 run101 1 T2 T1).
    - vm_compute. reflexivity.
    - exists (mkResult 1 T2 101 "passed"), (mkResult 1 T1 101 "failed").
      split; [left; vm_compute; reflexivity|]. repeat split; reflexivity.
    - vm_compute. reflexivity.
    - intros r Hr Hne. in_concrete Hr; try (vm_compute; reflexivity);
        exfalso; apply Hne; reflexivity. }
  split; [|split].
  - pose proof (Hrule exampleLog 101 run101 (mkResult 1 T2 101 "passed")) as H.
    simpl in H. destruct H as (_ & Ht & Hs & _).
    + vm_compute. reflexivity.
    + vm_compute. reflexivity.
    + exact H101.
    + left.
    + split; assumption.
  - apply (Hreject exampleLog 100 run100 (mkResult 1 T2 100 "failed")).
    + vm_compute. reflexivity.
    + right. left.
    + simpl. discriminate.
    + intros r1 Hr1 _ Hst. in_concrete Hr1; [vm_compute; reflexivity|discriminate Hst].
  - exact H101.
Defined.

Lemma all_passed_shortcut_witness :
  200 ∈ processResults map_to_list exampleLog
  /\ (forall anyOrder, selectsRun anyOrder run200 = true)
  /\ (forall anyOrder times,
        selectsRun anyOrder (retime times <$> run200) = true).
Proof.
  apply (all_passed_shortcut map_to_list map_to_list_entries exampleLog 200 run200).
  - vm_compute. reflexivity.
  - intros r Hr. in_concrete Hr; reflexivity.
Defined.

Lemma single_failure_veto_witness :
  (300 ∉ processResults map_to_list exampleLog)
  /\ (let out := caseLoop [(1, caseRecords 1 run300); (2, caseRecords 2 run300);
                           (3, [mkResult 3 T1 300 "passed"])] false in
      out.1 = false /\ out.2 `prefix_of` [1; 2]).
Proof.
  destruct (single_failure_veto map_to_list map_to_list_entries) as (Hveto & Hstop).
  split.
  - apply (Hveto exampleLog 300 run300 (mkResult 2 T1 300 "failed")).
    + vm_compute. reflexivity.
    + right. left.
    + intros r' Hr' Hc. in_concrete Hr'; simpl in Hc; try discriminate.
  - apply (Hstop [(1, caseRecords 1 run300)] 2 (caseRecords 2 run300)
                 [(3, [mkResult 3 T1 300 "passed"])] false).
    intros r Hr. in_concrete Hr. discriminate.
Defined.

End SelectionExamples.

(** ** Facts about the retrying executor *)

Module CompleteFacts.
Import GoString Http Complete.

Lemma isRetryableError_spec (err : error) (statusCode : Z) :
  isRetryableError err statusCode = true <->
  err <> None \/ retryableStatus statusCode.
Proof.
  unfold isRetryableError, retryableStatus. destruct err as [msg|].
  - split; [now left|reflexivity].
  - rewrite !elem_of_cons, elem_of_nil.
    destruct (statusCode =? 429) eqn:H429; [apply Z.eqb_eq in H429; now intuition|].
    destruct (statusCode =? 500) eqn:H500; [apply Z.eqb_eq in H500; now intuition|].
    destruct (statusCode =? 502) eqn:H502; [apply Z.eqb_eq in H502; now intuition|].
    destruct (statusCode =? 503) eqn:H503; [apply Z.eqb_eq in H503; now intuition|].
    destruct (statusCode =? 504) eqn:H504; [apply Z.eqb_eq in H504; now intuition|].
    apply Z.eqb_neq in H429, H500, H502, H503, H504. simpl.
    split; [discriminate|]. intuition congruence.
Qed.

(** A failure is classified [Retry] exactly when it is retryable. *)
Lemma classify_retry_iff (r : DoResult) :
  failure r -> (retryable r <-> exists closed, classify r.1 r.2 = Retry closed).
Proof.
  destruct r as [resp [msg|]]; unfold failure, retryable, classify; cbn [fst snd].
  - intros _. split; [intros _; exists false; now destruct resp|].
    intros _. now left.
  - intros [Hne|(r & [= ->] & Hcode)]; [congruence|].
    assert (H2xx : (200 <=? StatusCode r) && (StatusCode r <? 300) = false).
    { apply andb_false_iff. destruct (200 <=? StatusCode r) eqn:H1; [|now left].
      right. apply Z.leb_le in H1. apply Z.ltb_ge. lia. }
    rewrite H2xx. pose proof (isRetryableError_spec None (StatusCode r)) as Hspec.
    destruct (isRetryableError None (StatusCode r)); cbn [negb].
    + split; [intros _; now exists true|]. intros _. right. exists r.
      split; [reflexivity|].
      destruct Hspec as [Hs _]. destruct (Hs eq_refl); [congruence|assumption].
    + split; [|intros [closed Hc]; discriminate].
      intros [Hne|(r' & [= <-] & Hst)]; [congruence|].
      destruct Hspec as [_ Hs]. discriminate Hs. now right.
Qed.

(** A response outside 2xx whose status is not retryable is returned with
    the non-retryable error. *)
Lemma classify_terminal (resp : Response) :
  ~ (200 <= StatusCode resp < 300) -> ~ retryableStatus (StatusCode resp) ->
  classify (Some resp) None =
    Return (Some resp)
      (Some ("non-retryable HTTP error: " +:+ fmt_d (StatusCode resp))).
Proof.
  intros Hcode Hst. unfold classify.
  assert (H2xx : (200 <=? StatusCode resp) && (StatusCode resp <? 300) = false).
  { apply andb_false_iff. destruct (200 <=? StatusCode resp) eqn:H1; [|now left].
    right. apply Z.leb_le in H1. apply Z.ltb_ge. lia. }
  rewrite H2xx.
  destruct (isRetryableError None (StatusCode resp)) eqn:Hr; [|reflexivity].
  apply isRetryableError_spec in Hr as [Hr|Hr]; [congruence|contradiction].
Qed.

Section RetryLoop.
Variable Do : Z -> DoResult.
Variable config : RetryConfig.

Lemma sent_retry_trace (trace : list Event) (a j : Z) (closed : bool) :
  sent (EvDo httpClient a
          :: (if closed then [EvClose a] else [])
          ++ (if a <? MaxRetries config then [EvSleep a] else [])
          ++ trace) j
  <-> j = a \/ sent trace j.
Proof.
  unfold sent. rewrite elem_of_cons, !elem_of_app. split.
  - intros [[= ->]|[H|[H|H]]]; [now left| | |now right].
    + destruct closed; [apply list_elem_of_singleton in H; discriminate|].
      now apply elem_of_nil in H.
    + destruct (a <? MaxRetries config);
        [apply list_elem_of_singleton in H; discriminate|].
      now apply elem_of_nil in H.
  - intros [->|H]; [now left|]. right. right. now right.
Qed.

(** Only the attempts from [attempt] to [attempt + fuel - 1] are sent. *)
Lemma retryLoop_sent_range fuel attempt resp lastErr j :
  sent (retryLoop Do config fuel attempt resp lastErr).2 j ->
  attempt <= j < attempt + Z.of_nat fuel.
Proof.
  revert attempt resp lastErr.
  induction fuel as [|fuel IH]; intros attempt resp lastErr; simpl.
  - intros H. now apply elem_of_nil in H.
  - destruct (Do attempt) as [resp' err'].
    destruct (classify resp' err') as [r e|closed].
    + simpl. intros H. apply list_elem_of_singleton in H. injection H as ->. lia.
    + specialize (IH (attempt + 1) resp' err').
      destruct (retryLoop Do config fuel (attempt + 1) resp' err') as [out trace].
      simpl in *. rewrite sent_retry_trace. intros [->|H]; [lia|].
      apply IH in H. lia.
Qed.

(** With an iteration left, the first attempt of the loop is sent. *)
Lemma retryLoop_sent_first fuel attempt resp lastErr :
  sent (retryLoop Do config (S fuel) attempt resp lastErr).2 attempt.
Proof.
  simpl. destruct (Do attempt) as [resp' err'].
  destruct (classify resp' err') as [r e|closed].
  - simpl. now left.
  - destruct (retryLoop Do config fuel (attempt + 1) resp' err') as [out trace].
    simpl. apply sent_retry_trace. now left.
Qed.

(** The next attempt is sent exactly when an iteration is left and the
    current attempt is classified [Retry]. *)
Lemma retryLoop_sent_succ fuel attempt resp lastErr j :
  attempt <= j ->
  sent (retryLoop Do config fuel attempt resp lastErr).2 (j + 1) <->
  sent (retryLoop Do config fuel attempt resp lastErr).2 j
  /\ j + 1 < attempt + Z.of_nat fuel
  /\ exists closed, classify (Do j).1 (Do j).2 = Retry closed.
Proof.
  revert attempt resp lastErr.
  induction fuel as [|fuel IH]; intros attempt resp lastErr Hle.
  - simpl. split; [intros H; now apply elem_of_nil in H|].
    intros [H _]. now apply elem_of_nil in H.
  - pose proof (retryLoop_sent_range fuel (attempt + 1)) as Hrange.
    pose proof (retryLoop_sent_first) as Hfirst.
    simpl. destruct (Do attempt) as [resp' err'] eqn:HDo.
    destruct (classify resp' err') as [r e|closed] eqn:Hcl.
    + simpl. split.
      * intros H. apply list_elem_of_singleton in H. injection H as H. lia.
      * intros (H & _ & c & Hc). apply list_elem_of_singleton in H.
        injection H as ->. rewrite HDo in Hc. simpl in Hc. congruence.
    + specialize (IH (attempt + 1) resp' err').
      specialize (Hrange resp' err').
      destruct fuel as [|fuel'].
      * simpl in *. rewrite !sent_retry_trace. split.
        -- intros [H|H]; [lia|now apply elem_of_nil in H].
        -- intros ([->|H] & Hlt & _); [lia|now apply elem_of_nil in H].
      * specialize (Hfirst fuel' (attempt + 1) resp' err').
        destruct (retryLoop Do config (S fuel') (attempt + 1) resp' err')
          as [out trace]. simpl in *. rewrite !sent_retry_trace.
        destruct (decide (j = attempt)) as [->|Hne].
        -- split.
           ++ intros _. split; [now left|]. split; [lia|].
              exists closed. now rewrite HDo.
           ++ intros _. now right.
        -- rewrite IH by lia. split.
           ++ intros [Heq|(H & Hlt & Hc)]; [lia|]. split; [now right|].
              split; [lia|assumption].
           ++ intros ([->|H] & Hlt & Hc); [congruence|]. right.
              split; [assumption|]. split; [lia|assumption].
Qed.

(** An attempt classified [Return] ends the loop: its results are those of
    the call, and no later attempt is sent. *)
Lemma retryLoop_return fuel attempt resp lastErr k r e :
  sent (retryLoop Do config fuel attempt resp lastErr).2 k ->
  classify (Do k).1 (Do k).2 = Return r e ->
  (retryLoop Do config fuel attempt resp lastErr).1 = (r, e)
  /\ forall j, sent (retryLoop Do config fuel attempt resp lastErr).2 j -> j <= k.
Proof.
  revert attempt resp lastErr.
  induction fuel as [|fuel IH]; intros attempt resp lastErr; simpl.
  - intros H. now apply elem_of_nil in H.
  - destruct (Do attempt) as [resp' err'] eqn:HDo.
    destruct (classify resp' err') as [r' e'|closed] eqn:Hcl.
    + simpl. intros H Hk. apply list_elem_of_singleton in H. injection H as ->.
      rewrite HDo in Hk. simpl in Hk. split; [congruence|].
      intros j Hj. apply list_elem_of_singleton in Hj. injection Hj as ->. lia.
    + specialize (IH (attempt + 1) resp' err').
      pose proof (retryLoop_sent_range fuel (attempt + 1) resp' err' k) as Hrange.
      destruct (retryLoop Do config fuel (attempt + 1) resp' err') as [out trace].
      simpl in *. rewrite sent_retry_trace. intros [->|H] Hk.
      * rewrite HDo in Hk. simpl in Hk. congruence.
      * destruct (IH H Hk) as [-> Hmax]. split; [reflexivity|].
        intros j Hj. apply sent_retry_trace in Hj as [->|Hj]; [|now apply Hmax].
        specialize (Hrange H). lia.
Qed.

Lemma attempts_retry_trace (trace : list Event) (a : Z) (closed : bool) :
  attempts (EvDo httpClient a
              :: (if closed then [EvClose a] else [])
              ++ (if a <? MaxRetries config then [EvSleep a] else [])
              ++ trace)
  = 1 + attempts trace.
Proof.
  unfold attempts. simpl. rewrite !List.filter_app.
  destruct closed, (a <? MaxRetries config); simpl; lia.
Qed.

(** Every request of the loop goes through the package-level client,
    whatever [RequestTimeout] the configuration holds. *)
Lemma retryLoop_client fuel attempt resp lastErr client k :
  EvDo client k ∈ (retryLoop Do config fuel attempt resp lastErr).2 ->
  client = httpClient.
Proof.
  revert attempt resp lastErr.
  induction fuel as [|fuel IH]; intros attempt resp lastErr; simpl.
  - intros H. now apply elem_of_nil in H.
  - destruct (Do attempt) as [resp' err'].
    destruct (classify resp' err') as [r e|closed].
    + simpl. intros H. apply list_elem_of_singleton in H. congruence.
    + specialize (IH (attempt + 1) resp' err').
      destruct (retryLoop Do config fuel (attempt + 1) resp' err') as [out trace].
      simpl in *. rewrite elem_of_cons, !elem_of_app.
      intros [H|[H|[H|H]]]; [congruence| | |now apply IH].
      * destruct closed; [apply list_elem_of_singleton in H; discriminate|].
        now apply elem_of_nil in H.
      * destruct (attempt <? MaxRetries config);
          [apply list_elem_of_singleton in H; discriminate|].
        now apply elem_of_nil in H.
Qed.

(** The loop sends at most one request per iteration. *)
Lemma retryLoop_attempts_le fuel attempt resp lastErr :
  attempts (retryLoop Do config fuel attempt resp lastErr).2 <= Z.of_nat fuel.
Proof.
  revert attempt resp lastErr.
  induction fuel as [|fuel IH]; intros attempt resp lastErr; simpl.
  - unfold attempts. simpl. lia.
  - destruct (Do attempt) as [resp' err'].
    destruct (classify resp' err') as [r e|closed].
    + unfold attempts. simpl. lia.
    + specialize (IH (attempt + 1) resp' err').
      destruct (retryLoop Do config fuel (attempt + 1) resp' err') as [out trace].
      simpl in *. rewrite attempts_retry_trace. lia.
Qed.

(** When every attempt of the loop is classified [Retry], the loop runs
    out: it returns the response of the last call and an error whose text
    is built from the error of the last call. *)
Lemma retryLoop_exhausted fuel attempt resp lastErr :
  (forall k, attempt <= k < attempt + Z.of_nat fuel ->
             exists closed, classify (Do k).1 (Do k).2 = Retry closed) ->
  let last := if decide (fuel = O) then (resp, lastErr)
              else Do (attempt + Z.of_nat fuel - 1) in
  (retryLoop Do config fuel attempt resp lastErr).1 =
    (last.1, Some ("request failed after " +:+ fmt_d (MaxRetries config + 1)
                   +:+ " attempts: " +:+ fmt_v last.2))
  /\ attempts (retryLoop Do config fuel attempt resp lastErr).2 = Z.of_nat fuel.
Proof.
  revert attempt resp lastErr.
  induction fuel as [|fuel IH]; intros attempt resp lastErr Hall.
  - simpl. split; reflexivity.
  - cbn [retryLoop]. destruct (Hall attempt ltac:(lia)) as [closed Hcl].
    destruct (Do attempt) as [resp' err'] eqn:HDo. simpl in Hcl. rewrite Hcl.
    specialize (IH (attempt + 1) resp' err').
    destruct (retryLoop Do config fuel (attempt + 1) resp' err') as [out trace].
    cbn [fst snd] in *. rewrite attempts_retry_trace.
    destruct IH as [-> ->]; [intros k Hk; apply Hall; lia|].
    split; [|lia]. destruct (decide (S fuel = O)) as [|_]; [discriminate|].
    destruct (decide (fuel = O)) as [->|Hne].
    + replace (attempt + Z.of_nat 1 - 1) with attempt by lia. now rewrite HDo.
    + replace (attempt + 1 + Z.of_nat fuel - 1) with (attempt + Z.of_nat (S fuel) - 1)
        by lia. reflexivity.
Qed.

End RetryLoop.

End CompleteFacts.

(** ** Properties of the retrying executor *)

Module ExecutorClaims.
Import GoString Http Complete CompleteFacts Scenarios.

(** C5 (retry classification).  [isRetryableError] answers [true] exactly
    on a transport error or a status among 429, 500, 502, 503 and 504.  In
    [retryableHTTPRequest], a failed attempt that is not the last one the
    configuration allows is followed by another attempt if and only if the
    failure is a transport error or a response with one of those statuses;
    and a response outside 2xx with any other status is returned at once,
    with the non-retryable error, no later attempt being sent. *)
Theorem retry_classification :
  (forall (err : error) (statusCode : Z),
      isRetryableError err statusCode = true <->
      err <> None \/ retryableStatus statusCode) /\
  (forall (Do : Z -> DoResult) (config : RetryConfig) (k : Z),
      let run := retryableHTTPRequest Do config in
      sent run.2 k -> failure (Do k) -> k < MaxRetries config ->
      (sent run.2 (k + 1) <-> retryable (Do k))) /\
  (forall (Do : Z -> DoResult) (config : RetryConfig) (k : Z) (resp : Response),
      let run := retryableHTTPRequest Do config in
      sent run.2 k -> Do k = (Some resp, None) ->
      ~ (200 <= StatusCode resp < 300) ->
      ~ retryableStatus (StatusCode resp) ->
      run.1 = (Some resp,
               Some ("non-retryable HTTP error: " +:+ fmt_d (StatusCode resp)))
      /\ forall j, sent run.2 j -> j <= k).
Proof.
  split; [exact isRetryableError_spec|]. split.
  - intros Do config k run Hsent Hfail Hlt. subst run.
    unfold retryableHTTPRequest in *.
    pose proof (retryLoop_sent_range Do config _ _ _ _ _ Hsent) as Hrange.
    rewrite (retryLoop_sent_succ Do config _ 0 None None k) by lia.
    rewrite (classify_retry_iff (Do k) Hfail). split.
    + now intros (_ & _ & H).
    + intros H. split; [assumption|]. split; [lia|assumption].
  - intros Do config k resp run Hsent HDo Hcode Hst. subst run.
    unfold retryableHTTPRequest in *.
    apply (retryLoop_return Do config _ 0 None None k); [assumption|].
    rewrite HDo. simpl. now apply classify_terminal.
Qed.

(** When every attempt is a retryable failure, the executor runs out of
    attempts: it returns the response of the last call and an error whose
    text ends with the [%v] form of the error of the last call. *)
Lemma retries_exhausted_error (Do : Z -> DoResult) (config : RetryConfig) :
  0 <= MaxRetries config ->
  (forall k, 0 <= k <= MaxRetries config -> retryable (Do k)) ->
  (retryableHTTPRequest Do config).1 =
    ((Do (MaxRetries config)).1,
     Some ("request failed after " +:+ fmt_d (MaxRetries config + 1)
           +:+ " attempts: " +:+ fmt_v (Do (MaxRetries config)).2))
  /\ attempts (retryableHTTPRequest Do config).2 = MaxRetries config + 1.
Proof.
  intros Hpos Hall. unfold retryableHTTPRequest.
  destruct (retryLoop_exhausted Do config (Z.to_nat (MaxRetries config + 1))
              0 None None) as [Hout Hn].
  { intros k Hk. apply classify_retry_iff; [|apply Hall; lia].
    destruct (Hall k ltac:(lia)) as [Herr|(resp & HDo & Hst)]; [now left|].
    right. exists resp. split; [assumption|]. unfold retryableStatus in Hst.
    rewrite !elem_of_cons, elem_of_nil in Hst. lia. }
  rewrite Hn, Hout. split; [|lia].
  destruct (decide (Z.to_nat (MaxRetries config + 1) = O)) as [H0|_]; [lia|].
  replace (0 + Z.of_nat (Z.to_nat (MaxRetries config + 1)) - 1)
    with (MaxRetries config) by lia.
  reflexivity.
Qed.

(** C6 (retry exhaustion result), evaluated.  When the three attempts of a
    completion call are answered 503, the error returned is
    "request failed after 3 attempts: <nil>": it names no failure, and it is
    the same error when the attempts are answered 429.  When they fail in
    the transport, the error carries the transport error. *)
Theorem exhaustion_error_after_status :
  (retryableHTTPRequest (always 503) completionRetryConfig).1
    = (Some (mkResponse 503 (Some "")),
       Some "request failed after 3 attempts: <nil>")
  /\ (retryableHTTPRequest (always 429) completionRetryConfig).1.2
     = (retryableHTTPRequest (always 503) completionRetryConfig).1.2
  /\ (retryableHTTPRequest down completionRetryConfig).1
     = (None, Some "request failed after 3 attempts: dial tcp: connection refused").
Proof. repeat split; vm_compute; reflexivity. Qed.

End ExecutorClaims.

(** ** The retrying executor on an unreliable service *)

Module ExecutorExamples.
Import GoString Http Complete CompleteFacts ExecutorClaims Scenarios.

Example flaky_run :
  retryableHTTPRequest flaky defaultRetryConfig
  = ((Some (mkResponse 404 (Some "{}")), Some "non-retryable HTTP error: 404"),
     [EvDo httpClient 0; EvClose 0; EvSleep 0;
      EvDo httpClient 1; EvSleep 1; EvDo httpClient 2]).
Proof. vm_compute. reflexivity. Qed.

Ltac sent_concrete := unfold sent; apply list_elem_of_In; vm_compute; tauto.

Lemma retry_classification_witness :
  isRetryableError None 503 = true
  /\ sent (retryableHTTPRequest flaky defaultRetryConfig).2 1
  /\ (retryableHTTPRequest flaky defaultRetryConfig).1
     = (Some (mkResponse 404 (Some "{}")), Some "non-retryable HTTP error: 404")
  /\ ~ sent (retryableHTTPRequest flaky defaultRetryConfig).2 3.
Proof.
  destruct retry_classification as (Hclass & Hretry & Hterminal).
  split; [|split].
  - apply Hclass. right. unfold retryableStatus.
    apply list_elem_of_In. vm_compute. tauto.
  - apply (Hretry flaky defaultRetryConfig 0).
    + sent_concrete.
    + right. exists (mkResponse 503 (Some "")). split; [reflexivity|].
      simpl. lia.
    + vm_compute. reflexivity.
    + right. exists (mkResponse 503 (Some "")). split; [reflexivity|].
      unfold retryableStatus. apply list_elem_of_In. vm_compute. tauto.
  - destruct (Hterminal flaky defaultRetryConfig 2 (mkResponse 404 (Some "{}")))
      as [Hout Hlast].
    + sent_concrete.
    + reflexivity.
    + simpl. lia.
    + unfold retryableStatus. intros H. apply list_elem_of_In in H.
      vm_compute in H. intuition discriminate.
    + split; [exact Hout|]. intros H3. specialize (Hlast 3 H3). lia.
Defined.

End ExecutorExamples.

(** ** The retry profile of the completion call *)

Module ProfileClaims.
Import GoString Http Complete CompleteFacts Scenarios.

(** C7, as stated, fails.  With the remote service unreachable, the
    completion call for a run sends three requests, two of them retries,
    and the validation call for the same run sends one: the completion
    call does not retry less than the validation call. *)
Lemma completion_retries_more_than_validation :
  ~ (retries (completeRun (fun _ _ => true) (fun _ => None) unreachable
                "token" "DEMO" 7).2
     < retries (Match.fetchCasesForRunID (fun _ _ => true) (fun _ => None)
                  unreachable "token" "DEMO" 7).2).
Proof. vm_compute. discriminate. Qed.

(** C7, amended.  The profile under which every completion call runs,
    [completionRetryConfig], has fewer retries and a shorter configured
    request timeout than [defaultRetryConfig], the profile of the run
    listing; a completion call sends at most three requests, where a call
    under the default profile sends four when the service is unreachable;
    and the call of the Validation Engine runs under no retry profile: it
    never sends more than one request and never waits, it sends exactly
    one request, with the default client, when the request can be built,
    and when the request cannot be built it sends none and its goroutine
    panics. *)
Theorem completion_profile_conservative :
  MaxRetries completionRetryConfig < MaxRetries defaultRetryConfig
  /\ RequestTimeout completionRetryConfig < RequestTimeout defaultRetryConfig
  /\ (forall NewRequest unmarshal Do apiToken projectCode runID,
        attempts (completeRun NewRequest unmarshal Do apiToken projectCode runID).2
        <= MaxRetries completionRetryConfig + 1)
  /\ attempts (retryableHTTPRequest (unreachable "") defaultRetryConfig).2 = 4
  /\ (forall NewRequest unmarshal Do apiToken projectCode runID,
        let out :=
          Match.fetchCasesForRunID NewRequest unmarshal Do
            apiToken projectCode runID in
        attempts out.2 <= 1
        /\ (forall k, EvSleep k ∉ out.2)
        /\ (NewRequest "GET" (Match.fetchURL projectCode runID) = true ->
            out.2 = [EvDo DefaultClient 0] /\ attempts out.2 = 1)
        /\ (NewRequest "GET" (Match.fetchURL projectCode runID) = false ->
            out = (NilPanic, []) /\ attempts out.2 = 0)).
Proof.
  split; [reflexivity|]. split; [reflexivity|]. split; [|split].
  - intros NewRequest unmarshal Do apiToken projectCode runID. unfold completeRun.
    destruct (NewRequest "POST" (completionURL projectCode runID)); simpl;
      [|unfold attempts; simpl; lia].
    pose proof (retryLoop_attempts_le (Do (completionURL projectCode runID))
                  completionRetryConfig
                  (Z.to_nat (MaxRetries completionRetryConfig + 1)) 0 None None)
      as Hle.
    unfold retryableHTTPRequest.
    destruct (retryLoop _ _ _ _ _ _) as [[res err] trace]. simpl in Hle.
    assert (Hgoal : attempts trace <= MaxRetries completionRetryConfig + 1)
      by (simpl in *; lia).
    destruct err, res as [r|]; simpl; try assumption.
    destruct (Body r) as [body|]; simpl; try assumption.
    destruct (unmarshal body); simpl; assumption.
  - vm_compute. reflexivity.
  - intros NewRequest unmarshal Do apiToken projectCode runID out.
    assert (Hsent : NewRequest "GET" (Match.fetchURL projectCode runID) = true ->
                    out.2 = [EvDo DefaultClient 0]).
    { intros Hreq. unfold out, Match.fetchCasesForRunID. cbn zeta. rewrite Hreq.
      cbn [negb]. destruct (Do _ 0) as [[res|] [msg|]]; try reflexivity.
      destruct (unmarshal _) as [apiResp|]; try reflexivity.
      now destruct (_ || _). }
    assert (Hnone : NewRequest "GET" (Match.fetchURL projectCode runID) = false ->
                    out = (NilPanic, [])).
    { intros Hreq. unfold out, Match.fetchCasesForRunID. cbn zeta.
      now rewrite Hreq. }
    destruct (NewRequest "GET" (Match.fetchURL projectCode runID)) eqn:Hreq.
    + rewrite (Hsent eq_refl). split; [now vm_compute|]. split.
      * intros k Hin. apply list_elem_of_singleton in Hin. discriminate.
      * split; [now split|discriminate].
    + rewrite (Hnone eq_refl). split; [now vm_compute|]. split.
      * intros k Hin. now apply elem_of_nil in Hin.
      * split; [discriminate|now split].
Qed.

End ProfileClaims.

(** ** The two call profiles on examples *)

Module ProfileExamples.
Import GoString Http Complete ProfileClaims Scenarios.

Lemma completion_profile_conservative_witness :
  attempts (Match.fetchCasesForRunID requestOK (fun _ => None) unreachable
              "token" "DEMO" 7).2 = 1
  /\ Match.fetchCasesForRunID noRequest (fun _ => None) unreachable
       "token" "%zz" 7 = (NilPanic, []).
Proof.
  destruct completion_profile_conservative as (_ & _ & _ & _ & Hfetch).
  split.
  - apply (Hfetch requestOK (fun _ => None) unreachable "token" "DEMO" 7).
    reflexivity.
  - apply (Hfetch noRequest (fun _ => None) unreachable "token" "%zz" 7).
    reflexivity.
Defined.

End ProfileExamples.

(** ** Facts about the Run Validation Engine *)

Module MatchFacts.
Import GoString GoStringFacts Http Match.

Ltac in_front := apply elem_of_app; left; assumption.
Ltac in_last := apply elem_of_app; right; apply list_elem_of_singleton; reflexivity.

(** *** Counting with [increment] *)

Lemma occurrences_snoc (c x : Z) (l : list Z) :
  occurrences c (l ++ [x]) = occurrences c l + (if decide (x = c) then 1 else 0).
Proof.
  unfold occurrences. rewrite filter_app, length_app.
  destruct (decide (x = c)) as [Heq|Hne].
  - rewrite (filter_cons_True (fun y => y = c) x [] Heq). simpl. lia.
  - rewrite (filter_cons_False (fun y => y = c) x [] Hne). simpl. lia.
Qed.

Lemma filter_none {A} (P : A -> Prop) `{forall x, Decision (P x)} (l : list A) :
  (forall y, y ∈ l -> ~ P y) -> filter P l = [].
Proof.
  induction l as [|x l IH]; intros Hno; [reflexivity|].
  rewrite filter_cons_False by (apply Hno; left).
  apply IH. intros y Hy. apply Hno. now right.
Qed.

Lemma occurrences_pos (c : Z) (l : list Z) : c ∈ l -> 0 < occurrences c l.
Proof.
  intros Hin. unfold occurrences.
  assert (Hc : c ∈ filter (fun x => x = c) l) by now apply list_elem_of_filter.
  destruct (filter (fun x => x = c) l); [now apply elem_of_nil in Hc|simpl; lia].
Qed.

Lemma count_lookup (l : list Z) (c : Z) :
  fold_left increment l ∅ !! c =
    if decide (c ∈ l) then Some (occurrences c l) else None.
Proof.
  induction l as [|x l IH] using rev_ind.
  - simpl. rewrite lookup_empty. destruct (decide (c ∈ [])) as [H|_]; [|reflexivity].
    now apply elem_of_nil in H.
  - rewrite fold_left_app, occurrences_snoc. simpl. unfold increment at 1.
    destruct (decide (x = c)) as [->|Hne].
    + rewrite lookup_insert_eq, IH.
      destruct (decide (c ∈ l ++ [c])) as [_|Hn]; [|exfalso; apply Hn; in_last].
      destruct (decide (c ∈ l)) as [Hin|Hnin]; simpl; [reflexivity|].
      unfold occurrences. f_equal.
      assert (Hnil : filter (fun x => x = c) l = []).
      { apply filter_none. intros y Hy ->. contradiction. }
      now rewrite Hnil.
    + rewrite lookup_insert_ne, IH by assumption. rewrite Z.add_0_r.
      destruct (decide (c ∈ l)) as [Hin|Hnin].
      * destruct (decide (c ∈ l ++ [x])) as [_|Hn]; [reflexivity|].
        exfalso. apply Hn. in_front.
      * destruct (decide (c ∈ l ++ [x])) as [Hin|_]; [|reflexivity].
        apply elem_of_app in Hin as [Hin|Hin]; [contradiction|].
        apply list_elem_of_singleton in Hin. congruence.
Qed.

(** *** The first variant of [validateRunCases] *)

Lemma localRecords_snoc runID c results (r : V1.TestResult) :
  localRecords runID c (results ++ [r]) =
    localRecords runID c results
    ++ (if decide (V1.RunID r = runID /\ V1.CaseID r = c) then [r] else []).
Proof. unfold localRecords. now rewrite filter_app. Qed.

Lemma scan_found runID (results : list V1.TestResult) (c : Z) :
  default 0 ((fold_left (V1.scanStep runID) results (∅, ∅)).1 !! c)
  = Z.of_nat (length (localRecords runID c results)).
Proof.
  induction results as [|r results IH] using rev_ind; [reflexivity|].
  rewrite fold_left_app, localRecords_snoc, length_app. simpl.
  unfold V1.scanStep at 1.
  destruct (V1.RunID r =? runID) eqn:Hrun.
  - apply Z.eqb_eq in Hrun. simpl. unfold increment.
    destruct (decide (V1.CaseID r = c)) as [Hc|Hc].
    + rewrite Hc, lookup_insert_eq. simpl. rewrite IH.
      rewrite decide_True by now split. simpl. lia.
    + rewrite lookup_insert_ne, IH by assumption.
      rewrite decide_False by (intros [_ ?]; contradiction). simpl. lia.
  - apply Z.eqb_neq in Hrun. rewrite IH.
    rewrite decide_False by (intros [? _]; contradiction). simpl. lia.
Qed.

Lemma scan_passed runID (results : list V1.TestResult) (c : Z) :
  (fold_left (V1.scanStep runID) results (∅, ∅)).2 !! c
  = match localRecords runID c results with
    | [] => None
    | rs => Some (forallb V1.passed rs)
    end.
Proof.
  induction results as [|r results IH] using rev_ind; [reflexivity|].
  rewrite fold_left_app, localRecords_snoc. simpl. unfold V1.scanStep at 1.
  destruct (V1.RunID r =? runID) eqn:Hrun.
  - apply Z.eqb_eq in Hrun. simpl.
    destruct (decide (V1.CaseID r = c)) as [Hc|Hc].
    + rewrite decide_True by now split. subst c.
      destruct (V1.passed r) eqn:Hp; simpl.
      * destruct ((fold_left (V1.scanStep runID) results (∅, ∅)).2 !! V1.CaseID r)
          as [b|] eqn:Hlk.
        -- rewrite Hlk.
           destruct (localRecords runID (V1.CaseID r) results) as [|x rs];
             [discriminate|].
           injection IH as ->. simpl. rewrite forallb_app. simpl. rewrite Hp.
           now rewrite !andb_true_r.
        -- rewrite lookup_insert_eq.
           destruct (localRecords runID (V1.CaseID r) results) as [|x rs];
             [|discriminate]. simpl. now rewrite Hp.
      * rewrite lookup_insert_eq.
        destruct (localRecords runID (V1.CaseID r) results) as [|x rs]; simpl.
        -- now rewrite Hp.
        -- rewrite forallb_app. simpl. rewrite Hp. simpl.
           now rewrite !andb_false_r.
    + rewrite decide_False by (intros [_ ?]; contradiction). rewrite app_nil_r.
      simpl in IH. rewrite <- IH. destruct (V1.passed r); simpl.
      * destruct ((fold_left (V1.scanStep runID) results (∅, ∅)).2 !! V1.CaseID r);
          [reflexivity|]. now rewrite lookup_insert_ne.
      * now rewrite lookup_insert_ne.
  - apply Z.eqb_neq in Hrun.
    rewrite decide_False by (intros [? _]; contradiction). now rewrite app_nil_r.
Qed.

Lemma checkLoop_true found passedCases (entries : list (Z * Z)) :
  V1.checkLoop found passedCases entries = true <->
  forall c n, (c, n) ∈ entries ->
    n <= default 0 (found !! c) /\ default false (passedCases !! c) = true.
Proof.
  induction entries as [|[c n] entries IH]; simpl.
  - split; [|reflexivity]. intros _ c n H. now apply elem_of_nil in H.
  - destruct (default 0 (found !! c) <? n) eqn:Hlt; simpl.
    + split; [discriminate|]. intros H. apply Z.ltb_lt in Hlt.
      destruct (H c n) as [Hle _]; [left|lia].
    + apply Z.ltb_ge in Hlt.
      destruct (default false (passedCases !! c)) eqn:Hp; simpl.
      * rewrite IH. split.
        -- intros H c' n' Hin. apply elem_of_cons in Hin as [[= -> ->]|Hin];
             [now split|now apply H].
        -- intros H c' n' Hin. apply H. now right.
      * split; [discriminate|]. intros H.
        destruct (H c n) as [_ Hp']; [left|congruence].
Qed.

(** The first variant confirms a run exactly when, for every listed case,
    the local log has at least as many records of the run and the case as
    the list has occurrences of the case, and all of them are passed. *)
Lemma V1_validateRunCases_spec (rangeOrder : gmap Z Z -> list (Z * Z))
    (runID : Z) (caseIDs : list Z) (results : list V1.TestResult) :
  (forall m, rangeOrder m ≡ₚ map_to_list m) ->
  V1.validateRunCases rangeOrder runID caseIDs results = true <->
  forall c, c ∈ caseIDs ->
    occurrences c caseIDs <= Z.of_nat (length (localRecords runID c results))
    /\ forall r, r ∈ localRecords runID c results -> V1.Status r = "passed".
Proof.
  intros Hentries. unfold V1.validateRunCases.
  pose proof (scan_found runID results) as Hfound.
  pose proof (scan_passed runID results) as Hpassed.
  destruct (fold_left (V1.scanStep runID) results (∅, ∅)) as [found passedCases].
  simpl in *. rewrite checkLoop_true.
  assert (Hall : forall rs, forallb V1.passed rs = true <->
                            forall r, r ∈ rs -> V1.Status r = "passed").
  { intros rs. rewrite forallb_forall. split; intros H r Hr.
    - apply eqb_eq. apply H. now apply list_elem_of_In.
    - apply eqb_eq. apply H. now apply list_elem_of_In. }
  split.
  - intros H c Hc. destruct (H c (occurrences c caseIDs)) as [Hle Hp].
    { rewrite (Hentries _). apply elem_of_map_to_list. rewrite count_lookup.
      now rewrite decide_True. }
    rewrite Hfound in Hle. split; [assumption|].
    rewrite Hpassed in Hp.
    destruct (localRecords runID c results) as [|x rs] eqn:Hrs;
      [discriminate|]. simpl in Hp. now apply Hall.
  - intros H c n Hin. rewrite (Hentries _) in Hin.
    apply elem_of_map_to_list in Hin. rewrite count_lookup in Hin.
    destruct (decide (c ∈ caseIDs)) as [Hc|]; [|discriminate].
    injection Hin as <-. destruct (H c Hc) as [Hle Hp].
    rewrite Hfound. split; [assumption|]. rewrite Hpassed.
    pose proof (occurrences_pos c caseIDs Hc) as Hpos.
    destruct (localRecords runID c results) as [|x rs] eqn:Hrs;
      [simpl in Hle; lia|]. simpl. now apply (proj2 (Hall (x :: rs))).
Qed.

(** *** The accumulator of confirmed run IDs *)

Section Accumulator.
Context {TestResult : Type}.
Variable validateRunCases : Z -> list Z -> list TestResult -> bool.
Variable fetch : Z -> list Z * bool.

Lemma MatchResults_fold (runIDs : list Z) (results : list TestResult)
    (schedule : list nat) (acc : list string) :
  fold_left
    (fun validRunIDs i =>
       match runIDs !! i with
       | Some runID =>
           if confirms validateRunCases fetch results runID
           then validRunIDs ++ [fmt_d runID]
           else validRunIDs
       | None => validRunIDs
       end)
    schedule acc
  = acc ++ (fmt_d <$>
            filter (fun id => confirms validateRunCases fetch results id = true)
                   (completionOrder runIDs schedule)).
Proof.
  revert acc. unfold completionOrder.
  induction schedule as [|i schedule IH]; intros acc; simpl.
  - now rewrite app_nil_r.
  - rewrite IH. destruct (runIDs !! i) as [runID|]; [|reflexivity].
    destruct (confirms validateRunCases fetch results runID) eqn:Hc.
    + rewrite filter_cons_True by assumption. simpl. now rewrite <- app_assoc.
    + rewrite filter_cons_False by congruence. reflexivity.
Qed.

(** The list handed to [writeValidRunIDs] is the confirmed run IDs in the
    order in which their goroutines finish. *)
Lemma MatchResults_completion_order (runIDs : list Z) (results : list TestResult)
    (schedule : list nat) :
  MatchResults validateRunCases fetch runIDs results schedule
  = fmt_d <$> confirmedIDs validateRunCases fetch runIDs results schedule.
Proof. unfold MatchResults, confirmedIDs. now rewrite MatchResults_fold. Qed.
End Accumulator.

Lemma omap_lookup_seq (pre l : list Z) :
  omap (fun i => (pre ++ l) !! i) (seq (length pre) (length l)) = l.
Proof.
  revert pre. induction l as [|x l IH]; intros pre; [reflexivity|].
  simpl. rewrite list_lookup_middle by reflexivity. f_equal.
  specialize (IH (pre ++ [x])). rewrite <- app_assoc, length_app in IH. simpl in IH.
  now rewrite Nat.add_1_r in IH.
Qed.

(** Under a feasible schedule every run ID finishes exactly once. *)
Lemma completionOrder_perm (runIDs : list Z) (schedule : list nat) :
  Feasible runIDs schedule -> completionOrder runIDs schedule ≡ₚ runIDs.
Proof.
  intros [Hperm _]. unfold completionOrder. rewrite Hperm.
  pose proof (omap_lookup_seq [] runIDs) as Hseq. simpl in Hseq.
  now rewrite Hseq.
Qed.

End MatchFacts.

(** ** Properties of the Run Validation Engine and of the stage outputs *)

Module ValidationClaims.
Import GoString Http Match MatchFacts Scenarios.

(** C2 (validation cross-check), evaluated on the second variant of
    [validateRunCases].  The remote list names case 7 twice and the local
    log has one record of it: the run is confirmed.  The only local record
    of the listed case is a failed one: the run is confirmed.  The answer
    never depends on the remote list.  The first variant rejects the first
    of these runs. *)
Theorem validation_skips_cross_check :
  V2.validateRunCases 200 [7; 7] [V2.mkResult 200 7 "passed" T1] = true
  /\ V2.validateRunCases 200 [7] [V2.mkResult 200 7 "failed" T1] = true
  /\ (forall runID caseIDs caseIDs' results,
        V2.validateRunCases runID caseIDs results
        = V2.validateRunCases runID caseIDs' results)
  /\ V1.validateRunCases map_to_list 200 [7; 7] [V1.mkResult 200 7 "passed"] = false.
Proof.
  split; [vm_compute; reflexivity|]. split; [vm_compute; reflexivity|].
  split; [reflexivity|]. vm_compute. reflexivity.
Qed.

Lemma swapped_feasible : Feasible [1; 2] [1%nat; 0%nat].
Proof.
  split; [apply perm_swap|].
  intros [|[|p]] j; simpl; intros [= <-]; lia.
Defined.

(** C8, as stated, fails for the Confirmed list.  Runs 1 and 2 are both
    confirmed; when the goroutine of run 2 finishes before that of run 1,
    which the semaphore allows, the list written to the hand-off file is
    "2,1": it is not in ascending order. *)
Lemma confirmed_list_not_sorted :
  Feasible [1; 2] [1%nat; 0%nat]
  /\ writeValidRunIDs
       (MatchResults V2.validateRunCases inProgress [1; 2] twoRuns [1%nat; 0%nat])
     = "2,1"
  /\ ~ Sorted Z.le
         (confirmedIDs V2.validateRunCases inProgress [1; 2] twoRuns [1%nat; 0%nat]).
Proof.
  split; [exact swapped_feasible|]. split; [vm_compute; reflexivity|].
  vm_compute. intros H. inversion H as [|? ? _ Hhd]. inversion Hhd as [|? ? Hle].
  apply Hle. reflexivity.
Qed.

(** C8, amended.  The Selected list that the Selection Engine returns is
    sorted in ascending order and is the same list for every visiting
    order of the maps.  The Confirmed list that the Validation Engine
    writes is the decimal form of the confirmed run IDs in the order in
    which their validations finish; for every schedule it holds the same
    run IDs, those of the input that are confirmed. *)
Theorem selected_sorted_confirmed_in_completion_order :
  (forall rangeOrder runResults,
      Filter.ListsEntries rangeOrder ->
      Sorted Z.le (Filter.processResults rangeOrder runResults)
      /\ forall rangeOrder', Filter.ListsEntries rangeOrder' ->
           Filter.processResults rangeOrder' runResults
           = Filter.processResults rangeOrder runResults) /\
  (forall (TestResult : Type)
          (validateRunCases : Z -> list Z -> list TestResult -> bool)
          fetch runIDs results schedule,
      Feasible runIDs schedule ->
      MatchResults validateRunCases fetch runIDs results schedule
      = fmt_d <$> confirmedIDs validateRunCases fetch runIDs results schedule
      /\ confirmedIDs validateRunCases fetch runIDs results schedule
         ≡ₚ filter (fun id => confirms validateRunCases fetch results id = true)
                   runIDs).
Proof.
  split.
  - intros rangeOrder runResults Hentries. split.
    + now apply FilterFacts.processResults_Sorted.
    + intros rangeOrder' Hentries'.
      now apply FilterFacts.processResults_order_irrelevant.
  - intros TestResult validateRunCases fetch runIDs results schedule Hfeasible.
    split; [apply MatchResults_completion_order|].
    unfold confirmedIDs. now rewrite (completionOrder_perm runIDs schedule).
Qed.

Lemma selected_sorted_confirmed_in_completion_order_witness :
  Sorted Z.le (Filter.processResults map_to_list exampleLog)
  /\ MatchResults V2.validateRunCases inProgress [1; 2] twoRuns [1%nat; 0%nat]
     = fmt_d <$> confirmedIDs V2.validateRunCases inProgress [1; 2] twoRuns
                   [1%nat; 0%nat].
Proof.
  destruct selected_sorted_confirmed_in_completion_order as [Hsel Hconf].
  split.
  - apply (Hsel map_to_list exampleLog
             SelectionExamples.map_to_list_entries).
  - apply (Hconf V2.TestResult V2.validateRunCases inProgress [1; 2] twoRuns
             [1%nat; 0%nat] swapped_feasible).
Defined.

End ValidationClaims.

(** ** Facts about the hand-off files and the ledger *)

Module FilesFacts.
Import GoString GoText Files Http Complete TextSpec.

Lemma append_cons (x : ascii) (a b : string) :
  String x a +:+ b = String x (a +:+ b).
Proof. reflexivity. Qed.

Lemma append_assoc (a b c : string) : (a +:+ b) +:+ c = a +:+ b +:+ c.
Proof.
  induction a as [|x a IH]; [reflexivity|]. now rewrite !append_cons, IH.
Qed.

Lemma append_nil_r (a : string) : a +:+ "" = a.
Proof.
  induction a as [|x a IH]; [reflexivity|]. now rewrite append_cons, IH.
Qed.

Lemma entries_cons (r : Z) (l : list Z) :
  entries (r :: l) = ledgerEntry r +:+ entries l.
Proof. reflexivity. Qed.

Lemma entries_app (l1 l2 : list Z) : entries (l1 ++ l2) = entries l1 +:+ entries l2.
Proof.
  induction l1 as [|r l1 IH]; [reflexivity|].
  rewrite <- app_comm_cons, !entries_cons, IH. now rewrite append_assoc.
Qed.

Lemma entries_elem (l : list Z) (r : Z) :
  r ∈ l -> exists a b, entries l = a +:+ ledgerEntry r +:+ b.
Proof.
  intros Hin. apply list_elem_of_split in Hin as (l1 & l2 & ->).
  exists (entries l1), (entries l2). now rewrite entries_app.
Qed.

Lemma ledger_logError (fs : FS) (runID : Z) :
  "errors.txt" ∉ denied fs ->
  ledger (logError fs runID) = ledger fs +:+ ledgerEntry runID.
Proof.
  intros Hw. unfold logError, ledger. rewrite decide_False by assumption.
  simpl. now rewrite lookup_insert_eq.
Qed.

Lemma denied_logError (fs : FS) (runID : Z) : denied (logError fs runID) = denied fs.
Proof. unfold logError. now destruct (decide _). Qed.

Lemma logError_denied (fs : FS) (runID : Z) :
  "errors.txt" ∈ denied fs -> logError fs runID = fs.
Proof. intros Hd. unfold logError. now rewrite decide_True. Qed.

Lemma failedRuns_app (l1 l2 : list (Z * bool)) :
  failedRuns (l1 ++ l2) = failedRuns l1 ++ failedRuns l2.
Proof. unfold failedRuns. now rewrite filter_app, fmap_app. Qed.

Lemma failedRuns_single (r : Z) (ok : bool) :
  failedRuns [(r, ok)] = if ok then [] else [r].
Proof. now destruct ok. Qed.

Lemma elem_of_failedRuns (calls : list (Z * bool)) (r : Z) :
  (r, false) ∈ calls -> r ∈ failedRuns calls.
Proof.
  intros Hin. unfold failedRuns. apply list_elem_of_fmap. exists (r, false).
  split; [reflexivity|]. now apply list_elem_of_filter.
Qed.

Section Loop.
Variable NewRequest : string -> string -> bool.
Variable unmarshal : string -> option APIResponse.
Variable net : nat -> string -> Z -> DoResult.
Variables apiToken projectCode : string.

(** The loop of [CompleteRuns] calls [completeRun] once for each run ID,
    in order, and leaves in the ledger what was there followed by the
    entries of the runs whose call was answered [false]. *)
Lemma CompleteRuns_loop (runIDs : list Z) (calls0 : list (Z * bool)) (fs0 : FS) :
  let out :=
    fold_left (completeNext NewRequest unmarshal net apiToken projectCode)
      runIDs (calls0, fs0) in
  exists calls, out.1 = calls0 ++ calls /\ calls.*1 = runIDs
    /\ denied out.2 = denied fs0
    /\ ("errors.txt" ∉ denied fs0 ->
        ledger out.2 = ledger fs0 +:+ entries (failedRuns calls))
    /\ ("errors.txt" ∈ denied fs0 -> out.2 = fs0).
Proof.
  revert calls0 fs0. induction runIDs as [|runID runIDs IH]; intros calls0 fs0.
  - exists []. simpl. rewrite app_nil_r, append_nil_r. now repeat split.
  - cbn [fold_left]. unfold completeNext at 2. cbn [fst snd].
    set (ok := (completeRun NewRequest unmarshal (net (length calls0))
                  apiToken projectCode runID).1).
    specialize (IH (calls0 ++ [(runID, ok)])
                  (if ok then fs0 else logError fs0 runID)).
    cbn zeta in *.
    destruct IH as (calls & Hcalls & Hids & Hden & Hledger & Hdenied).
    exists ((runID, ok) :: calls).
    split; [rewrite Hcalls; now rewrite <- app_assoc|].
    split; [rewrite fmap_cons; cbn [fst]; now f_equal|].
    assert (Hden' : denied (if ok then fs0 else logError fs0 runID) = denied fs0).
    { destruct ok; [reflexivity|apply denied_logError]. }
    rewrite Hden' in Hden, Hledger, Hdenied.
    split; [exact Hden|]. split.
    + intros Hw. etransitivity; [exact (Hledger Hw)|].
      change ((runID, ok) :: calls) with ([(runID, ok)] ++ calls).
      rewrite failedRuns_app, entries_app, failedRuns_single. destruct ok.
      * reflexivity.
      * rewrite (ledger_logError fs0 runID Hw), append_assoc.
        now rewrite entries_cons, append_nil_r.
    + intros Hd. etransitivity; [exact (Hdenied Hd)|].
      destruct ok; [reflexivity|now apply logError_denied].
Qed.

End Loop.

(** *** Reading a hand-off file *)

Ltac by_codes :=
  repeat match goal with
         | |- context [?a <=? ?b] => destruct (Z.leb_spec a b)
         | |- context [?a =? ?b] => destruct (Z.eqb_spec a b)
         | H : context [?a <=? ?b] |- _ => destruct (Z.leb_spec a b)
         | H : context [?a =? ?b] |- _ => destruct (Z.eqb_spec a b)
         end; simpl in *; try reflexivity; try discriminate; try lia.

Lemma digit_class (c : ascii) :
  isDigit c = true -> asciiSpace c = false /\ isNewline c = false /\ isSign c = false.
Proof. unfold isDigit, asciiSpace, isNewline, isSign. intros H. repeat split; by_codes. Qed.

Lemma sign_class (c : ascii) :
  isSign c = true -> asciiSpace c = false /\ isNewline c = false.
Proof. unfold asciiSpace, isNewline, isSign. intros H. split; by_codes. Qed.

Lemma newline_space (c : ascii) : asciiSpace c = false -> isNewline c = false.
Proof. unfold asciiSpace, isNewline. intros H. by_codes. Qed.

Lemma Split_length (s : string) (sep : ascii) :
  length (Split s sep) = S (separators sep s).
Proof.
  induction s as [|c rest IH]; [reflexivity|]. simpl.
  destruct (Ascii.eqb c sep); simpl; [now rewrite IH|].
  destruct (Split rest sep) as [|part parts]; [discriminate|exact IH].
Qed.

(** The bytes of the white space of more than one byte are outside
    ASCII. *)
Lemma space2_codes (c d : ascii) :
  twoByteSpace c d = true -> 128 <= code c /\ 128 <= code d.
Proof.
  unfold twoByteSpace. rewrite andb_true_iff, orb_true_iff, !Z.eqb_eq. lia.
Qed.

Lemma space3_codes (c d e : ascii) :
  threeByteSpace c d e = true -> 128 <= code c /\ 128 <= code d /\ 128 <= code e.
Proof.
  unfold threeByteSpace.
  rewrite !orb_true_iff, !andb_true_iff, !orb_true_iff, !andb_true_iff,
    !Z.eqb_eq, !Z.leb_le.
  lia.
Qed.

Lemma space2_ascii (c d : ascii) : code c < 128 -> twoByteSpace c d = false.
Proof.
  intros Hc. destruct (twoByteSpace c d) eqn:H; [|reflexivity].
  apply space2_codes in H. lia.
Qed.

Lemma space3_ascii (c d e : ascii) : code c < 128 -> threeByteSpace c d e = false.
Proof.
  intros Hc. destruct (threeByteSpace c d e) eqn:H; [|reflexivity].
  apply space3_codes in H. lia.
Qed.

Lemma space_code (c : ascii) : asciiSpace c = true -> code c < 128.
Proof. unfold asciiSpace. intros H. by_codes. Qed.

Lemma eqb_codes (c sep : ascii) : code c <> code sep -> Ascii.eqb c sep = false.
Proof. intros Hne. destruct (Ascii.eqb_spec c sep) as [->|_]; congruence. Qed.

(** The three shapes of a string that starts with white space. *)
Lemma dropSpace_Some (s r : string) :
  dropSpace s = Some r ->
  (exists c, s = String c r /\ asciiSpace c = true)
  \/ (exists c d, s = String c (String d r) /\ twoByteSpace c d = true)
  \/ (exists c d e, s = String c (String d (String e r)) /\ threeByteSpace c d e = true).
Proof.
  destruct s as [|c rest]; [discriminate|]. unfold dropSpace.
  destruct (asciiSpace c) eqn:Hc.
  { intros [= <-]. left. now exists c. }
  destruct rest as [|d rest2]; [discriminate|].
  destruct (twoByteSpace c d) eqn:H2.
  { intros [= <-]. right. left. now exists c, d. }
  destruct rest2 as [|e rest3]; [discriminate|].
  destruct (threeByteSpace c d e) eqn:H3; [|discriminate].
  intros [= <-]. right. right. now exists c, d, e.
Qed.

Lemma dropSpace_shorter (s r : string) :
  dropSpace s = Some r -> (String.length r < String.length s)%nat.
Proof.
  intros H. apply dropSpace_Some in H
    as [(c & -> & _)|[(c & d & -> & _)|(c & d & e & -> & _)]]; simpl; lia.
Qed.

Lemma dropSpace_space (c : ascii) (rest : string) :
  asciiSpace c = true -> dropSpace (String c rest) = Some rest.
Proof. intros Hc. unfold dropSpace. now rewrite Hc. Qed.

(** No white space starts with a byte of ASCII that is not white
    space. *)
Lemma dropSpace_ascii (c : ascii) (rest : string) :
  code c < 128 -> asciiSpace c = false -> dropSpace (String c rest) = None.
Proof.
  intros Hc Hsp. unfold dropSpace. rewrite Hsp.
  destruct rest as [|d rest]; [reflexivity|].
  rewrite (space2_ascii c d Hc). destruct rest as [|e rest]; [reflexivity|].
  now rewrite (space3_ascii c d e Hc).
Qed.

Lemma dropSpace_None_space (c : ascii) (rest : string) :
  dropSpace (String c rest) = None -> asciiSpace c = false.
Proof. unfold dropSpace. now destruct (asciiSpace c). Qed.

(** Induction on what follows the white space at the head. *)
Lemma space_ind (P : string -> Prop) :
  (forall s, (forall r, dropSpace s = Some r -> P r) -> P s) ->
  forall s, P s.
Proof.
  intros Hstep s. remember (String.length s) as n eqn:Hn. revert s Hn.
  induction n as [n IH] using lt_wf_ind. intros s ->.
  apply Hstep. intros r Hr. apply (IH (String.length r)); [|reflexivity].
  now apply dropSpace_shorter.
Qed.

Lemma trimLeft_eq (s : string) :
  trimLeft s = match dropSpace s with Some r => trimLeft r | None => s end.
Proof.
  destruct s as [|c [|d [|e rest]]]; cbn [trimLeft dropSpace];
    try reflexivity.
  - now destruct (asciiSpace c).
  - destruct (asciiSpace c); [reflexivity|]. now destruct (twoByteSpace c d).
  - destruct (asciiSpace c); [reflexivity|]. destruct (twoByteSpace c d); [reflexivity|].
    now destruct (threeByteSpace c d e).
Qed.

Lemma blank_eq (s : string) :
  blank s = match s with
            | "" => true
            | _ => match dropSpace s with Some r => blank r | None => false end
            end.
Proof.
  destruct s as [|c [|d [|e rest]]]; cbn [blank dropSpace];
    try reflexivity.
  - now destruct (asciiSpace c).
  - destruct (asciiSpace c); [reflexivity|]. now destruct (twoByteSpace c d).
  - destruct (asciiSpace c); [reflexivity|]. destruct (twoByteSpace c d); [reflexivity|].
    now destruct (threeByteSpace c d e).
Qed.

Lemma skipSpace_eq (c : ascii) (rest : string) :
  skipSpace (String c rest)
  = if isNewline c then None
    else match dropSpace (String c rest) with
         | Some r => skipSpace r
         | None => Some (String c rest)
         end.
Proof.
  destruct rest as [|d [|e rest]]; cbn [skipSpace dropSpace];
    destruct (isNewline c); try reflexivity.
  - now destruct (asciiSpace c).
  - destruct (asciiSpace c); [reflexivity|]. now destruct (twoByteSpace c d).
  - destruct (asciiSpace c); [reflexivity|]. destruct (twoByteSpace c d); [reflexivity|].
    now destruct (threeByteSpace c d e).
Qed.

(** At a character that is not white space the scanner stops. *)
Lemma skipSpace_stop (c : ascii) (rest : string) :
  dropSpace (String c rest) = None ->
  skipSpace (String c rest) = Some (String c rest).
Proof.
  intros Hnone. rewrite skipSpace_eq, Hnone.
  now rewrite (newline_space c (dropSpace_None_space c rest Hnone)).
Qed.

Lemma digit_stop (c : ascii) (rest : string) :
  isDigit c = true -> dropSpace (String c rest) = None.
Proof.
  intros Hc. apply dropSpace_ascii; [|now apply digit_class].
  unfold isDigit in Hc. by_codes.
Qed.

Lemma sign_stop (c : ascii) (rest : string) :
  isSign c = true -> dropSpace (String c rest) = None.
Proof.
  intros Hc. apply dropSpace_ascii; [|now apply sign_class].
  unfold isSign in Hc. by_codes.
Qed.

Lemma dropSpace_separators (sep : ascii) (s r : string) :
  code sep < 128 -> asciiSpace sep = false ->
  dropSpace s = Some r -> separators sep s = separators sep r.
Proof.
  intros Hascii Hsep H. apply dropSpace_Some in H
    as [(c & -> & Hc)|[(c & d & -> & H2)|(c & d & e & -> & H3)]];
    cbn [separators].
  - rewrite eqb_codes; [reflexivity|]. intros Heq.
    assert (c = sep) as ->; [|congruence].
    unfold code in Heq. apply (f_equal Z.to_N) in Heq. rewrite !N2Z.id in Heq.
    apply (f_equal ascii_of_N) in Heq. now rewrite !ascii_N_embedding in Heq.
  - apply space2_codes in H2. rewrite !eqb_codes by lia. reflexivity.
  - apply space3_codes in H3. rewrite !eqb_codes by lia. reflexivity.
Qed.

Lemma separators_trimLeft (sep : ascii) (s : string) :
  code sep < 128 -> asciiSpace sep = false ->
  separators sep (trimLeft s) = separators sep s.
Proof.
  intros Hascii Hsep. induction s as [s IH] using space_ind.
  rewrite trimLeft_eq. destruct (dropSpace s) as [r|] eqn:Hr; [|reflexivity].
  rewrite (IH r eq_refl). symmetry. now apply dropSpace_separators.
Qed.

Lemma blank_separators (sep : ascii) (s : string) :
  code sep < 128 -> asciiSpace sep = false -> blank s = true -> separators sep s = O.
Proof.
  intros Hascii Hsep. induction s as [s IH] using space_ind.
  rewrite blank_eq. destruct s as [|c rest]; [reflexivity|].
  destruct (dropSpace (String c rest)) as [r|] eqn:Hr; [|discriminate].
  intros Hblank. rewrite (dropSpace_separators sep _ r Hascii Hsep Hr).
  now apply IH.
Qed.

Lemma separators_trimRight (sep : ascii) (s : string) :
  code sep < 128 -> asciiSpace sep = false ->
  separators sep (trimRight s) = separators sep s.
Proof.
  intros Hascii Hsep. induction s as [|c rest IH]; [reflexivity|].
  cbn [trimRight]. destruct (blank (String c rest)) eqn:Hblank.
  - now rewrite (blank_separators sep _ Hascii Hsep Hblank).
  - cbn [separators]. now rewrite IH.
Qed.

(** A string of white space is trimmed to the empty string. *)
Lemma trimLeft_blank (s : string) : blank s = true -> trimLeft s = "".
Proof.
  induction s as [s IH] using space_ind.
  rewrite blank_eq, trimLeft_eq. destruct s as [|c rest]; [reflexivity|].
  destruct (dropSpace (String c rest)) as [r|] eqn:Hr; [|discriminate].
  now apply IH.
Qed.

Lemma blank_ascii (s : string) :
  forallb asciiSpace (list_ascii_of_string s) = true -> blank s = true.
Proof.
  induction s as [|c rest IH]; [reflexivity|]. simpl.
  intros H. apply andb_true_iff in H as [Hc Hrest]. rewrite Hc. now apply IH.
Qed.

Lemma scanDigits_append (digits rest : string) :
  forallb isDigit (list_ascii_of_string digits) = true ->
  match rest with String c _ => isDigit c = false | "" => True end ->
  scanDigits (digits +:+ rest) = scanDigits digits.
Proof.
  intros Hd Hrest. induction digits as [|c digits IH].
  - simpl. destruct rest as [|c rest]; [reflexivity|]. simpl. now rewrite Hrest.
  - simpl in Hd. apply andb_true_iff in Hd as [Hc Hd].
    rewrite append_cons. simpl. rewrite Hc. now rewrite IH.
Qed.

(** A part that starts with a character that is neither white space nor a
    sign nor a digit does not scan. *)
Lemma Sscanf_d_no_digit (c : ascii) (rest : string) :
  dropSpace (String c rest) = None -> isSign c = false -> isDigit c = false ->
  Sscanf_d (String c rest) = None.
Proof.
  intros Hsp Hsg Hd. unfold Sscanf_d. rewrite (skipSpace_stop c rest Hsp).
  rewrite Hsg. cbn [scanDigits]. now rewrite Hd.
Qed.

(** A sign that no digit follows does not scan. *)
Lemma Sscanf_d_sign_only (c : ascii) (rest : string) :
  isSign c = true ->
  match rest with String c' _ => isDigit c' = false | "" => True end ->
  Sscanf_d (String c rest) = None.
Proof.
  intros Hsg Hrest. unfold Sscanf_d.
  rewrite (skipSpace_stop c rest (sign_stop c rest Hsg)), Hsg.
  destruct rest as [|c' rest]; [reflexivity|]. cbn [scanDigits]. now rewrite Hrest.
Qed.

(** What follows the digits of a part is not looked at. *)
Lemma Sscanf_d_trailing (digits rest : string) :
  digits <> "" ->
  forallb isDigit (list_ascii_of_string digits) = true ->
  match rest with String c _ => isDigit c = false | "" => True end ->
  Sscanf_d (digits +:+ rest) = Sscanf_d digits.
Proof.
  intros Hne Hd Hrest. pose proof (scanDigits_append digits rest Hd Hrest) as Happ.
  destruct digits as [|c digits]; [congruence|].
  simpl in Hd. apply andb_true_iff in Hd as [Hc Hd].
  destruct (digit_class c Hc) as (Hsp & Hnl & Hsg).
  rewrite append_cons in *. unfold Sscanf_d.
  rewrite !(skipSpace_stop c _ (digit_stop c _ Hc)), Hsg. now rewrite Happ.
Qed.

(** White space before the number is passed over, unless it holds a line
    feed. *)
Lemma Sscanf_d_space (s r : string) :
  dropSpace s = Some r ->
  match s with String c _ => isNewline c = false | "" => True end ->
  Sscanf_d s = Sscanf_d r.
Proof.
  intros Hr Hnl. destruct s as [|c rest]; [discriminate|].
  unfold Sscanf_d. now rewrite skipSpace_eq, Hnl, Hr.
Qed.

Lemma readRunIDs_length (fs : FS) (filename content : string) :
  files fs !! filename = Some content ->
  length (readRunIDs fs filename) = S (separators "," content).
Proof.
  intros Hlk. unfold readRunIDs. rewrite Hlk, length_fmap, Split_length.
  unfold TrimSpace.
  now rewrite separators_trimRight, separators_trimLeft by reflexivity.
Qed.

Lemma readRunIDs_blank (fs : FS) (filename content : string) :
  files fs !! filename = Some content ->
  blank content = true ->
  readRunIDs fs filename = [0].
Proof.
  intros Hlk Hblank. unfold readRunIDs, TrimSpace.
  now rewrite Hlk, (trimLeft_blank content Hblank).
Qed.

(** *** Decimal numerals *)

Lemma append_nil_l (a : string) : "" +:+ a = a.
Proof. reflexivity. Qed.

Lemma uint_digits (d : Decimal.uint) :
  forallb isDigit (chars (NilEmpty.string_of_uint d)) = true.
Proof. induction d; simpl; [reflexivity|..]; exact IHd. Qed.

Lemma uint_nonempty (d : Decimal.uint) :
  d <> Decimal.Nil -> NilEmpty.string_of_uint d <> "".
Proof. destruct d; simpl; congruence. Qed.

Lemma scan_uint_string (d : Decimal.uint) (rest : string) :
  match rest with String c _ => isDigit c = false | "" => True end ->
  scanDigits (NilEmpty.string_of_uint d +:+ rest)
  = scanDigits (NilEmpty.string_of_uint d).
Proof. intros Hrest. apply scanDigits_append; [apply uint_digits|assumption]. Qed.

Lemma value_uint_acc (d : Decimal.uint) (acc : positive) :
  fold_left step (scanDigits (NilEmpty.string_of_uint d)) (Z.pos acc)
  = Z.pos (Pos.of_uint_acc d acc).
Proof.
  revert acc. induction d; intros acc; simpl; [reflexivity|..];
    (etransitivity; [|apply IHd]); f_equal; unfold step; vm_compute code; lia.
Qed.

Lemma value_uint (d : Decimal.uint) :
  decimalValue (scanDigits (NilEmpty.string_of_uint d)) = Z.of_N (Pos.of_uint d).
Proof.
  unfold decimalValue. change (fun acc d0 : Z => 10 * acc + d0) with step.
  induction d; simpl; [reflexivity|exact IHd|..];
    (etransitivity; [|apply value_uint_acc]); f_equal.
Qed.

Lemma uint_zero_form (d : Decimal.uint) :
  d <> Decimal.Nil -> NilZero.string_of_uint d = NilEmpty.string_of_uint d.
Proof. destruct d; simpl; congruence. Qed.

Lemma scanDigits_nonempty (ds : string) :
  ds <> "" -> forallb isDigit (chars ds) = true -> scanDigits ds <> [].
Proof.
  destruct ds as [|c s]; [congruence|]. simpl. intros _ H.
  apply andb_true_iff in H as [Hc _]. rewrite Hc. discriminate.
Qed.

Lemma Sscanf_d_digits (ds rest : string) :
  ds <> "" -> forallb isDigit (chars ds) = true ->
  match rest with String c _ => isDigit c = false | "" => True end ->
  Sscanf_d (ds +:+ rest)
  = if fitsInt (decimalValue (scanDigits ds))
    then Some (decimalValue (scanDigits ds)) else None.
Proof.
  intros Hne Hd Hrest.
  pose proof (scanDigits_append ds rest Hd Hrest) as Hscan.
  pose proof (scanDigits_nonempty ds Hne Hd) as Hnn.
  destruct ds as [|c s]; [congruence|].
  simpl in Hd. apply andb_true_iff in Hd as [Hc Hd].
  destruct (digit_class c Hc) as (Hsp & Hnl & Hsg).
  rewrite append_cons in *. unfold Sscanf_d.
  rewrite (skipSpace_stop c _ (digit_stop c _ Hc)), Hsg, Hscan.
  destruct (scanDigits (String c s)) as [|x xs]; [congruence|reflexivity].
Qed.

Lemma Sscanf_d_signed_digits (c : ascii) (ds rest : string) :
  isSign c = true ->
  ds <> "" -> forallb isDigit (chars ds) = true ->
  match rest with String c' _ => isDigit c' = false | "" => True end ->
  Sscanf_d (String c (ds +:+ rest))
  = if fitsInt (if code c =? 45 then - decimalValue (scanDigits ds)
                else decimalValue (scanDigits ds))
    then Some (if code c =? 45 then - decimalValue (scanDigits ds)
               else decimalValue (scanDigits ds))
    else None.
Proof.
  intros Hsg Hne Hd Hrest.
  pose proof (scanDigits_append ds rest Hd Hrest) as Hscan.
  pose proof (scanDigits_nonempty ds Hne Hd) as Hnn.
  unfold Sscanf_d. rewrite (skipSpace_stop c _ (sign_stop c _ Hsg)), Hsg, Hscan.
  destruct (scanDigits ds) as [|x xs]; [congruence|reflexivity].
Qed.

Lemma Sscanf_d_minus_digits (ds rest : string) :
  ds <> "" -> forallb isDigit (chars ds) = true ->
  match rest with String c _ => isDigit c = false | "" => True end ->
  Sscanf_d (String "-" (ds +:+ rest))
  = if fitsInt (- decimalValue (scanDigits ds))
    then Some (- decimalValue (scanDigits ds)) else None.
Proof.
  intros Hne Hd Hrest.
  now rewrite (Sscanf_d_signed_digits "-" ds rest eq_refl Hne Hd Hrest).
Qed.

Lemma Sscanf_d_plus_digits (ds rest : string) :
  ds <> "" -> forallb isDigit (chars ds) = true ->
  match rest with String c _ => isDigit c = false | "" => True end ->
  Sscanf_d (String "+" (ds +:+ rest))
  = if fitsInt (decimalValue (scanDigits ds))
    then Some (decimalValue (scanDigits ds)) else None.
Proof.
  intros Hne Hd Hrest.
  now rewrite (Sscanf_d_signed_digits "+" ds rest eq_refl Hne Hd Hrest).
Qed.

(** The scan of the head of a text that starts with the decimal form of
    an integer and goes on with something that is not a digit. *)
Lemma Sscanf_d_fmt_d_head (z : Z) (rest : string) :
  match rest with String c _ => isDigit c = false | "" => True end ->
  Sscanf_d (fmt_d z +:+ rest) = if fitsInt z then Some z else None.
Proof.
  intros Hrest. unfold fmt_d. destruct z as [|p|p]; cbn [Z.to_int].
  - change (NilZero.string_of_int (Decimal.Pos Decimal.zero)) with "0".
    now rewrite (Sscanf_d_trailing "0" rest).
  - pose proof (Unsigned.to_uint_nonnil p) as Hnn.
    pose proof (value_uint (Pos.to_uint p)) as Hv.
    rewrite Unsigned.of_to in Hv.
    cbn [NilZero.string_of_int]. rewrite (uint_zero_form _ Hnn).
    rewrite Sscanf_d_digits;
      [|now apply uint_nonempty|apply uint_digits|assumption].
    rewrite Hv. reflexivity.
  - pose proof (Unsigned.to_uint_nonnil p) as Hnn.
    pose proof (value_uint (Pos.to_uint p)) as Hv.
    rewrite Unsigned.of_to in Hv.
    cbn [NilZero.string_of_int]. rewrite (uint_zero_form _ Hnn).
    rewrite append_cons.
    rewrite Sscanf_d_minus_digits;
      [|now apply uint_nonempty|apply uint_digits|assumption].
    rewrite Hv. reflexivity.
Qed.

(** Reading back the decimal form of an integer gives the integer when it
    fits a 64-bit [int], and fails otherwise. *)
Lemma Sscanf_d_fmt_d (z : Z) :
  Sscanf_d (fmt_d z) = if fitsInt z then Some z else None.
Proof.
  rewrite <- (append_nil_r (fmt_d z)). now apply Sscanf_d_fmt_d_head.
Qed.

End FilesFacts.

(** ** Facts about the texts of the hand-off files *)

Module TextFacts.
Import GoString GoText GoFmt FilterIO TextSpec FilesFacts.

(** *** Characters of a text *)

Lemma chars_append (a b : string) : chars (a +:+ b) = chars a ++ chars b.
Proof.
  induction a as [|x a IH]; [reflexivity|].
  rewrite append_cons. unfold chars in *. simpl. now rewrite IH.
Qed.

Lemma all_append (P : ascii -> bool) (a b : string) :
  forallb P (chars a) = true -> forallb P (chars b) = true ->
  forallb P (chars (a +:+ b)) = true.
Proof. intros Ha Hb. rewrite chars_append, forallb_app, Ha, Hb. reflexivity. Qed.

Lemma all_weaken (P Q : ascii -> bool) (s : string) :
  (forall c, P c = true -> Q c = true) ->
  forallb P (chars s) = true -> forallb Q (chars s) = true.
Proof.
  intros HPQ. unfold chars. induction s as [|c s IH]; [reflexivity|]. simpl.
  intros H. apply andb_true_iff in H as [Hc Hs]. now rewrite (HPQ c Hc), IH.
Qed.

Lemma concat_cons (sep x : string) (xs : list string) :
  xs <> [] -> String.concat sep (x :: xs) = x +:+ sep +:+ String.concat sep xs.
Proof. destruct xs; [congruence|reflexivity]. Qed.

Lemma all_concat (P : ascii -> bool) (sep : string) (ws : list string) :
  forallb P (chars sep) = true ->
  Forall (fun w => forallb P (chars w) = true) ws ->
  forallb P (chars (String.concat sep ws)) = true.
Proof.
  intros Hsep Hws. induction Hws as [|w ws Hw Hws IH]; [reflexivity|].
  destruct ws as [|w' ws]; [exact Hw|].
  rewrite concat_cons by discriminate. now repeat apply all_append.
Qed.

Lemma digit_numeral (c : ascii) : isDigit c = true -> numeralChar c = true.
Proof. unfold numeralChar. now intros ->. Qed.

Lemma numeral_list (c : ascii) : numeralChar c = true -> listChar c = true.
Proof. unfold listChar. now intros ->. Qed.

Lemma numeral_not_comma (c : ascii) :
  numeralChar c = true -> negb (Ascii.eqb c ",") = true.
Proof.
  intros H. destruct (Ascii.eqb_spec c ",") as [->|_]; [discriminate|reflexivity].
Qed.

Lemma list_plain (c : ascii) : listChar c = true -> plainByte c = true.
Proof.
  unfold listChar, numeralChar, isDigit, plainByte, asciiSpace. intros H. by_codes.
Qed.

Lemma plain_stop (c : ascii) (rest : string) :
  plainByte c = true -> dropSpace (String c rest) = None.
Proof.
  unfold plainByte. intros H. apply andb_true_iff in H as [Hc Hsp].
  apply negb_true_iff in Hsp. apply dropSpace_ascii; [|exact Hsp].
  now apply Z.ltb_lt.
Qed.

Lemma list_not_bracket (c : ascii) :
  listChar c = true -> negb (inCutset "[]" c) = true.
Proof.
  intros H. unfold inCutset. simpl.
  destruct (Ascii.eqb_spec c "[") as [->|_]; [discriminate|].
  destruct (Ascii.eqb_spec c "]") as [->|_]; [discriminate|reflexivity].
Qed.

Lemma fmt_d_nonempty (z : Z) : fmt_d z <> "".
Proof.
  unfold fmt_d. destruct z as [|p|p]; cbn [Z.to_int NilZero.string_of_int];
    [discriminate| |discriminate].
  pose proof (Unsigned.to_uint_nonnil p) as Hnn.
  rewrite (uint_zero_form _ Hnn). now apply uint_nonempty.
Qed.

Lemma fmt_d_numeral (z : Z) : forallb numeralChar (chars (fmt_d z)) = true.
Proof.
  unfold fmt_d. destruct z as [|p|p]; cbn [Z.to_int NilZero.string_of_int];
    [reflexivity|..];
    pose proof (Unsigned.to_uint_nonnil p) as Hnn;
    rewrite (uint_zero_form _ Hnn).
  - apply (all_weaken isDigit); [apply digit_numeral|apply uint_digits].
  - change (forallb numeralChar
              (chars ("-" +:+ NilEmpty.string_of_uint (Pos.to_uint p))) = true).
    apply all_append; [reflexivity|].
    apply (all_weaken isDigit); [apply digit_numeral|apply uint_digits].
Qed.

Lemma numerals_list (l : list Z) :
  forallb listChar (chars (String.concat "," (fmt_d <$> l))) = true.
Proof.
  apply all_concat; [reflexivity|]. apply Forall_fmap, Forall_forall.
  intros z _. simpl. apply (all_weaken numeralChar); [apply numeral_list|].
  apply fmt_d_numeral.
Qed.

(** *** The functions of the package strings *)

Lemma Fields_eq (c : ascii) (rest : string) :
  Fields (String c rest)
  = match dropSpace (String c rest) with
    | Some r => Fields r
    | None => grow c rest (Fields rest)
    end.
Proof.
  destruct rest as [|d [|e rest]]; cbn [Fields dropSpace].
  - now destruct (asciiSpace c).
  - destruct (asciiSpace c); [reflexivity|]. now destruct (twoByteSpace c d).
  - destruct (asciiSpace c); [reflexivity|]. destruct (twoByteSpace c d); [reflexivity|].
    now destruct (threeByteSpace c d e).
Qed.

Lemma Fields_word_space (w rest : string) :
  word w -> Fields (w +:+ String " " rest) = w :: Fields rest.
Proof.
  intros [Hne Hall]. destruct w as [|c w]; [congruence|]. clear Hne.
  revert c Hall. induction w as [|c' w IH]; intros c Hall;
    unfold chars in Hall; simpl in Hall;
    apply andb_true_iff in Hall as [Hc Hall].
  - rewrite append_cons, append_nil_l, Fields_eq, (plain_stop c _ Hc).
    unfold grow. rewrite (dropSpace_space " " rest eq_refl).
    now rewrite (Fields_eq " " rest), (dropSpace_space " " rest eq_refl).
  - pose proof Hall as Hall'.
    apply andb_true_iff in Hall' as [Hc' _].
    rewrite append_cons, Fields_eq, (plain_stop c _ Hc).
    rewrite (IH c' Hall). unfold grow. rewrite append_cons.
    now rewrite (plain_stop c' _ Hc').
Qed.

Lemma Fields_word (w : string) : word w -> Fields w = [w].
Proof.
  intros [Hne Hall]. destruct w as [|c w]; [congruence|]. clear Hne.
  revert c Hall. induction w as [|c' w IH]; intros c Hall;
    unfold chars in Hall; simpl in Hall;
    apply andb_true_iff in Hall as [Hc Hall].
  - now rewrite Fields_eq, (plain_stop c _ Hc).
  - pose proof Hall as Hall'.
    apply andb_true_iff in Hall' as [Hc' _].
    rewrite Fields_eq, (plain_stop c _ Hc), (IH c' Hall). unfold grow.
    now rewrite (plain_stop c' _ Hc').
Qed.

(** The fields of words joined by single spaces are the words. *)
Lemma Fields_concat (ws : list string) :
  Forall word ws -> Fields (String.concat " " ws) = ws.
Proof.
  induction 1 as [|w ws Hw Hws IH]; [reflexivity|].
  destruct ws as [|w' ws]; [now apply Fields_word|].
  rewrite concat_cons by discriminate.
  change (" " +:+ String.concat " " (w' :: ws))
    with (String " " (String.concat " " (w' :: ws))).
  now rewrite Fields_word_space, IH.
Qed.

Lemma Split_plain (w : string) (sep : ascii) :
  forallb (fun c => negb (Ascii.eqb c sep)) (chars w) = true ->
  Split w sep = [w].
Proof.
  unfold chars. induction w as [|c w IH]; [reflexivity|]. simpl. intros H.
  apply andb_true_iff in H as [Hc Hw]. apply negb_true_iff in Hc.
  now rewrite Hc, (IH Hw).
Qed.

Lemma Split_part (w rest : string) (sep : ascii) :
  forallb (fun c => negb (Ascii.eqb c sep)) (chars w) = true ->
  Split (w +:+ String sep rest) sep = w :: Split rest sep.
Proof.
  unfold chars. induction w as [|c w IH].
  - intros _. rewrite append_nil_l. simpl. now rewrite Ascii.eqb_refl.
  - intros H. simpl in H. apply andb_true_iff in H as [Hc Hw].
    apply negb_true_iff in Hc. rewrite append_cons. cbn [Split].
    now rewrite Hc, (IH Hw).
Qed.

(** Splitting the join of parts that do not hold the separator gives the
    parts back, when there is at least one. *)
Lemma Split_concat (ws : list string) (sep : ascii) :
  ws <> [] ->
  Forall (fun w => forallb (fun c => negb (Ascii.eqb c sep)) (chars w) = true) ws ->
  Split (String.concat (String sep "") ws) sep = ws.
Proof.
  intros Hne Hws. induction Hws as [|w ws Hw Hws IH]; [congruence|].
  destruct ws as [|w' ws]; [now apply Split_plain|].
  rewrite concat_cons by discriminate.
  change (String sep "" +:+ String.concat (String sep "") (w' :: ws))
    with (String sep (String.concat (String sep "") (w' :: ws))).
  rewrite Split_part by assumption. now rewrite IH.
Qed.

Lemma trimLeft_plain (s : string) :
  forallb plainByte (chars s) = true -> trimLeft s = s.
Proof.
  destruct s as [|c s]; [reflexivity|]. unfold chars. intros H. simpl in H.
  apply andb_true_iff in H as [Hc _].
  now rewrite trimLeft_eq, (plain_stop c s Hc).
Qed.

Lemma trimRight_plain (s : string) :
  forallb plainByte (chars s) = true -> trimRight s = s.
Proof.
  unfold chars. induction s as [|c s IH]; [reflexivity|]. intros H. simpl in H.
  apply andb_true_iff in H as [Hc Hs]. cbn [trimRight].
  rewrite (blank_eq (String c s)), (plain_stop c s Hc). now rewrite (IH Hs).
Qed.

Lemma TrimSpace_plain (s : string) :
  forallb plainByte (chars s) = true -> TrimSpace s = s.
Proof.
  intros H. unfold TrimSpace. now rewrite trimLeft_plain, trimRight_plain.
Qed.

Lemma trimRightCut_close (cutset X : string) :
  forallb (fun c => negb (inCutset cutset c)) (chars X) = true ->
  inCutset cutset "]" = true ->
  trimRightCut cutset (X +:+ "]") = X.
Proof.
  intros HX Hcut. unfold chars in HX. induction X as [|c X IH].
  - rewrite append_nil_l. simpl. now rewrite Hcut.
  - simpl in HX. apply andb_true_iff in HX as [Hc HX].
    apply negb_true_iff in Hc. rewrite append_cons. simpl.
    rewrite (IH HX), Hc. now destruct X.
Qed.

(** Trimming the brackets off a bracketed text that holds no bracket. *)
Lemma Trim_brackets (X : string) :
  forallb (fun c => negb (inCutset "[]" c)) (chars X) = true ->
  Trim ("[" +:+ X +:+ "]") "[]" = X.
Proof.
  intros HX. unfold Trim.
  change ("[" +:+ X +:+ "]") with (String "[" (X +:+ "]")).
  cbn [trimLeftCut]. rewrite (eq_refl : inCutset "[]" "[" = true).
  destruct X as [|c X]; [reflexivity|].
  assert (Hc : inCutset "[]" c = false).
  { unfold chars in HX. simpl in HX. apply andb_true_iff in HX as [Hc _].
    now apply negb_true_iff in Hc. }
  rewrite append_cons. cbn [trimLeftCut]. rewrite Hc.
  rewrite <- append_cons. now apply trimRightCut_close.
Qed.

(** *** The printed form of a slice *)

Lemma concat_closeLast (sep : string) (ws : list string) :
  ws <> [] ->
  String.concat sep (closeLast ws) = String.concat sep ws +:+ "]".
Proof.
  induction ws as [|w ws IH]; [congruence|]. intros _.
  destruct ws as [|w' ws]; [reflexivity|].
  change (closeLast (w :: w' :: ws)) with (w :: closeLast (w' :: ws)).
  assert (Hne : closeLast (w' :: ws) <> []) by (destruct ws; discriminate).
  rewrite (concat_cons sep w _ Hne). rewrite IH by congruence.
  rewrite (concat_cons sep w (w' :: ws)) by congruence.
  now rewrite !append_assoc.
Qed.

Lemma concat_bracketed (sep : string) (ws : list string) :
  String.concat sep (bracketed ws) = "[" +:+ String.concat sep ws +:+ "]".
Proof.
  destruct ws as [|w ws]; [reflexivity|]. unfold bracketed.
  rewrite concat_closeLast by discriminate.
  destruct ws as [|w' ws]; [reflexivity|].
  rewrite (concat_cons sep ("[" +:+ w) (w' :: ws)) by congruence.
  rewrite (concat_cons sep w (w' :: ws)) by congruence.
  now rewrite !append_assoc.
Qed.

Lemma word_open (w : string) : word w -> word ("[" +:+ w).
Proof.
  intros [Hne Hw]. split; [discriminate|]. now apply all_append.
Qed.

Lemma word_close (w : string) : word w -> word (w +:+ "]").
Proof.
  intros [Hne Hw]. split; [|now apply all_append].
  destruct w; [congruence|discriminate].
Qed.

Lemma closeLast_words (ws : list string) :
  Forall word ws -> Forall word (closeLast ws).
Proof.
  induction 1 as [|w ws Hw Hws IH]; [constructor|].
  destruct ws as [|w' ws].
  - constructor; [now apply word_close|constructor].
  - change (closeLast (w :: w' :: ws)) with (w :: closeLast (w' :: ws)).
    now constructor.
Qed.

Lemma bracketed_words (ws : list string) :
  Forall word ws -> Forall word (bracketed ws).
Proof.
  intros Hws. destruct ws as [|w ws].
  - constructor; [|constructor]. split; [discriminate|reflexivity].
  - unfold bracketed. apply closeLast_words.
    inversion Hws; subst. constructor; [now apply word_open|assumption].
Qed.

Lemma fmt_d_word (z : Z) : word (fmt_d z).
Proof.
  split; [apply fmt_d_nonempty|].
  apply (all_weaken numeralChar); [|apply fmt_d_numeral].
  intros c Hc. now apply list_plain, numeral_list.
Qed.

(** The fields of the printed form of a slice of ints. *)
Lemma Fields_Sprint (l : list Z) : Fields (Sprint l) = bracketed (fmt_d <$> l).
Proof.
  unfold Sprint. rewrite <- concat_bracketed. apply Fields_concat.
  apply bracketed_words, Forall_fmap, Forall_forall. intros z _. apply fmt_d_word.
Qed.

Lemma outputText_join (l : list Z) :
  outputText l = String.concat "," (fmt_d <$> l).
Proof.
  unfold outputText, Join. rewrite Fields_Sprint, concat_bracketed.
  apply Trim_brackets. apply (all_weaken listChar); [apply list_not_bracket|].
  apply numerals_list.
Qed.

(** Reading back the join of the decimal forms of a non-empty list of
    integers. *)
Lemma parseRunIDs_join (l : list Z) :
  l <> [] -> Forall (fun z => fitsInt z = true) l ->
  parseRunIDs (String.concat "," (fmt_d <$> l)) = l.
Proof.
  intros Hne Hfit. unfold parseRunIDs.
  rewrite TrimSpace_plain
    by (apply (all_weaken listChar); [apply list_plain|apply numerals_list]).
  rewrite (Split_concat (fmt_d <$> l) ",").
  - rewrite <- list_fmap_compose. rewrite <- (list_fmap_id l) at 2.
    apply Forall_fmap_ext. eapply Forall_impl; [exact Hfit|].
    intros z Hz. simpl. now rewrite Sscanf_d_fmt_d, Hz.
  - destruct l; [congruence|discriminate].
  - apply Forall_fmap, Forall_forall. intros z _. simpl.
    apply (all_weaken numeralChar); [apply numeral_not_comma|apply fmt_d_numeral].
Qed.

(** *** The white space of Unicode *)

Lemma dropSpace_whiteSpace (w r : string) :
  w ∈ whiteSpace -> dropSpace (w +:+ r) = Some r.
Proof.
  intros H. apply list_elem_of_In in H. unfold whiteSpace, bytes in H.
  simpl in H. repeat (destruct H as [<-|H]; [reflexivity|]). destruct H.
Qed.

Lemma head_whiteSpace (w r : string) :
  w ∈ whiteSpace -> w <> newline ->
  match w +:+ r with String c _ => isNewline c = false | "" => True end.
Proof.
  intros H Hne. apply list_elem_of_In in H. unfold whiteSpace, bytes in H.
  simpl in H.
  repeat (destruct H as [<-|H]; [first [reflexivity|now destruct Hne]|]).
  destruct H.
Qed.

Lemma space_byte (c : ascii) :
  asciiSpace c = true -> String c "" ∈ whiteSpace.
Proof.
  intros H. apply list_elem_of_In.
  destruct c as [[] [] [] [] [] [] [] []]; try discriminate H;
    unfold whiteSpace, bytes; simpl; tauto.
Qed.

Lemma space2_bytes (c d : ascii) :
  twoByteSpace c d = true -> String c (String d "") ∈ whiteSpace.
Proof.
  intros H. apply list_elem_of_In.
  destruct c as [[] [] [] [] [] [] [] []]; try discriminate H;
    destruct d as [[] [] [] [] [] [] [] []]; try discriminate H;
    unfold whiteSpace, bytes; simpl; tauto.
Qed.

Lemma space3_bytes (c d e : ascii) :
  threeByteSpace c d e = true -> String c (String d (String e "")) ∈ whiteSpace.
Proof.
  intros H. apply list_elem_of_In.
  destruct c as [[] [] [] [] [] [] [] []]; try discriminate H;
    destruct d as [[] [] [] [] [] [] [] []]; try discriminate H;
    destruct e as [[] [] [] [] [] [] [] []]; try discriminate H;
    unfold whiteSpace, bytes; simpl; tauto.
Qed.

(** A string starts with white space exactly when one of the forms of
    [whiteSpace] is at its head. *)
Lemma dropSpace_head (s r : string) :
  dropSpace s = Some r -> exists w, w ∈ whiteSpace /\ s = w +:+ r.
Proof.
  intros H. apply dropSpace_Some in H
    as [(c & -> & Hc)|[(c & d & -> & H2)|(c & d & e & -> & H3)]].
  - exists (String c ""). split; [now apply space_byte|reflexivity].
  - exists (String c (String d "")). split; [now apply space2_bytes|reflexivity].
  - exists (String c (String d (String e ""))).
    split; [now apply space3_bytes|reflexivity].
Qed.

Lemma no_whiteSpace_head (s : string) :
  (forall w r, w ∈ whiteSpace -> s <> w +:+ r) -> dropSpace s = None.
Proof.
  intros Hno. destruct (dropSpace s) as [r|] eqn:Hr; [|reflexivity].
  destruct (dropSpace_head s r Hr) as (w & Hw & Heq). now destruct (Hno w r Hw).
Qed.

Lemma blank_drop (s r : string) : dropSpace s = Some r -> blank s = blank r.
Proof.
  intros H. rewrite blank_eq. destruct s as [|c rest]; [discriminate|].
  now rewrite H.
Qed.

Lemma blank_joined (ws : list string) :
  Forall (fun w => w ∈ whiteSpace) ws -> blank (joined ws) = true.
Proof.
  induction 1 as [|w ws Hw Hws IH]; [reflexivity|].
  cbn [joined fold_right]. now rewrite (blank_drop _ _ (dropSpace_whiteSpace w _ Hw)).
Qed.

Lemma Sscanf_d_whiteSpace (w rest : string) :
  w ∈ whiteSpace -> w <> newline -> Sscanf_d (w +:+ rest) = Sscanf_d rest.
Proof.
  intros Hw Hne. apply Sscanf_d_space; [now apply dropSpace_whiteSpace|].
  now apply head_whiteSpace.
Qed.

Lemma fitsInt_bounds (z : Z) : fitsInt z = true <-> - 2 ^ 63 <= z < 2 ^ 63.
Proof. unfold fitsInt. rewrite andb_true_iff, Z.leb_le, Z.ltb_lt. tauto. Qed.

(** The integer of a numeral with leading zeros or a sign. *)
Lemma Sscanf_d_uint (d : Decimal.uint) (rest : string) :
  d <> Decimal.Nil ->
  match rest with String c _ => isDigit c = false | "" => True end ->
  Sscanf_d (NilEmpty.string_of_uint d +:+ rest)
  = (if fitsInt (Z.of_uint d) then Some (Z.of_uint d) else None)
  /\ Sscanf_d (String "+" (NilEmpty.string_of_uint d +:+ rest))
     = (if fitsInt (Z.of_uint d) then Some (Z.of_uint d) else None)
  /\ Sscanf_d (String "-" (NilEmpty.string_of_uint d +:+ rest))
     = (if fitsInt (- Z.of_uint d) then Some (- Z.of_uint d) else None).
Proof.
  intros Hnn Hrest. pose proof (value_uint d) as Hv.
  change (Z.of_N (Pos.of_uint d)) with (Z.of_uint d) in Hv.
  rewrite Sscanf_d_digits, Sscanf_d_plus_digits, Sscanf_d_minus_digits, Hv;
    try assumption; try apply uint_digits; try now apply uint_nonempty.
  now repeat split.
Qed.

Lemma token_plain (z : Z) (rest : string) :
  forallb restByte (chars rest) = true ->
  forallb plainByte (chars (fmt_d z +:+ rest)) = true
  /\ forallb (fun c => negb (Ascii.eqb c ",")) (chars (fmt_d z +:+ rest)) = true.
Proof.
  intros Hrest. split; apply all_append.
  - apply (all_weaken numeralChar); [|apply fmt_d_numeral].
    intros c Hc. now apply list_plain, numeral_list.
  - apply (all_weaken restByte); [|exact Hrest].
    unfold restByte. intros c Hc. now apply andb_true_iff in Hc as [Hc _].
  - apply (all_weaken numeralChar); [apply numeral_not_comma|apply fmt_d_numeral].
  - apply (all_weaken restByte); [|exact Hrest].
    unfold restByte. intros c Hc. now apply andb_true_iff in Hc as [_ Hc].
Qed.

(** Reading a content whose parts are numerals followed by text. *)
Lemma parseRunIDs_tokens (tokens : list (Z * string)) :
  tokens <> [] -> Forall (fun t => afterInteger t.2) tokens ->
  parseRunIDs (String.concat "," ((fun t => fmt_d t.1 +:+ t.2) <$> tokens))
  = (fun t => default 0 (if fitsInt t.1 then Some t.1 else None)) <$> tokens.
Proof.
  intros Hne Hall. unfold parseRunIDs. rewrite TrimSpace_plain.
  - rewrite (Split_concat _ ",").
    + rewrite <- list_fmap_compose. apply Forall_fmap_ext.
      eapply Forall_impl; [exact Hall|]. intros [z rest] [_ Hrest]. simpl.
      now rewrite (Sscanf_d_fmt_d_head z rest Hrest).
    + destruct tokens; [congruence|discriminate].
    + apply Forall_fmap, Forall_forall. intros [z rest] Ht. simpl.
      rewrite Forall_forall in Hall. destruct (Hall _ Ht) as [Hrest _].
      now apply token_plain.
  - apply all_concat; [reflexivity|]. apply Forall_fmap, Forall_forall.
    intros [z rest] Ht. simpl.
    rewrite Forall_forall in Hall. destruct (Hall _ Ht) as [Hrest _].
    now apply token_plain.
Qed.

End TextFacts.

(** ** Properties of the ledger and of the hand-off files *)

Module LedgerClaims.
Import GoString GoText Files Http Complete TextSpec FilesFacts TextFacts.

Lemma CompleteRuns_ledger NewRequest unmarshal net apiToken projectCode (fs : FS) :
  let out := CompleteRuns NewRequest unmarshal net apiToken projectCode fs in
  denied out.2 = denied fs
  /\ ("errors.txt" ∉ denied fs ->
      ledger out.2 = ledger fs +:+ entries (failedRuns out.1))
  /\ ("errors.txt" ∈ denied fs -> out.2 = fs).
Proof.
  unfold CompleteRuns. destruct (eqb apiToken "" || eqb projectCode "").
  - simpl. rewrite append_nil_r. now repeat split.
  - destruct (CompleteRuns_loop NewRequest unmarshal net apiToken projectCode
                (readRunIDs fs "final.txt") [] fs)
      as (calls & Hcalls & _ & Hden & Hledger & Hdenied).
    simpl in Hcalls. cbn zeta. rewrite Hcalls. now repeat split.
Qed.

(** C9 (ledger append-only).  When the ledger can be opened, [logError]
    leaves in [errors.txt] what was there followed by the line
    "Run ID <runID>: Test run not found" and a line feed, and leaves the
    other files as they were.  An execution of [CompleteRuns] leaves in
    the ledger what was there followed by a suffix, whatever the state of
    the files; when the ledger can be opened the suffix is the lines of the
    runs whose completion failed, in call order.  After two executions in
    each of which the completion of one run fails, the ledger is what it
    was at first followed by text that holds the line of that run twice,
    one occurrence after the other. *)
Theorem ledger_append_only :
  let line := fun runID : Z =>
    "Run ID " +:+ fmt_d runID +:+ ": Test run not found" +:+ newline in
  let lines := fun runIDs : list Z =>
    fold_right (fun runID rest => line runID +:+ rest) "" runIDs in
  (forall fs runID,
      "errors.txt" ∉ denied fs ->
      files (logError fs runID) !! "errors.txt"
      = Some (default "" (files fs !! "errors.txt") +:+ line runID)
      /\ forall name,
           name <> "errors.txt" ->
           files (logError fs runID) !! name = files fs !! name) /\
  (forall NewRequest unmarshal net apiToken projectCode fs,
      exists suffix,
        ledger (CompleteRuns NewRequest unmarshal net apiToken projectCode fs).2
        = ledger fs +:+ suffix) /\
  (forall NewRequest unmarshal net apiToken projectCode fs,
      "errors.txt" ∉ denied fs ->
      let out := CompleteRuns NewRequest unmarshal net apiToken projectCode fs in
      ledger out.2 = ledger fs +:+ lines (failedRuns out.1)) /\
  (forall NewRequest unmarshal net1 net2 apiToken projectCode fs runID,
      "errors.txt" ∉ denied fs ->
      let first := CompleteRuns NewRequest unmarshal net1 apiToken projectCode fs in
      let second :=
        CompleteRuns NewRequest unmarshal net2 apiToken projectCode first.2 in
      (runID, false) ∈ first.1 -> (runID, false) ∈ second.1 ->
      exists a b c,
        ledger second.2
        = ledger fs +:+ a +:+ line runID +:+ b +:+ line runID +:+ c).
Proof.
  intros line lines.
  assert (Hline : line = ledgerEntry) by reflexivity.
  assert (Hlines : lines = entries) by reflexivity.
  rewrite Hline, Hlines. clear line lines Hline Hlines.
  split; [|split; [|split]].
  - intros fs runID Hw. unfold logError. rewrite decide_False by assumption.
    simpl. split; [now rewrite lookup_insert_eq|].
    intros name Hne. now rewrite lookup_insert_ne.
  - intros NewRequest unmarshal net apiToken projectCode fs.
    destruct (CompleteRuns_ledger NewRequest unmarshal net apiToken projectCode fs)
      as (_ & Hw & Hd).
    destruct (decide ("errors.txt" ∈ denied fs)) as [Hin|Hnin].
    + exists "". rewrite (Hd Hin). now rewrite append_nil_r.
    + eexists. exact (Hw Hnin).
  - intros NewRequest unmarshal net apiToken projectCode fs Hw out.
    now apply CompleteRuns_ledger.
  - intros NewRequest unmarshal net1 net2 apiToken projectCode fs runID Hw
           first second Hfirst Hsecond.
    destruct (CompleteRuns_ledger NewRequest unmarshal net1 apiToken projectCode fs)
      as (Hden1 & Hledger1 & _).
    destruct (CompleteRuns_ledger NewRequest unmarshal net2 apiToken projectCode
                first.2) as (_ & Hledger2 & _).
    fold first in Hden1, Hledger1. fold second in Hledger2.
    rewrite Hledger2 by now rewrite Hden1. rewrite (Hledger1 Hw).
    destruct (entries_elem _ _ (elem_of_failedRuns _ _ Hfirst)) as (a & b & ->).
    destruct (entries_elem _ _ (elem_of_failedRuns _ _ Hsecond)) as (b' & c & ->).
    exists a, (b +:+ b'), c. now rewrite !append_assoc.
Qed.

(** C10, as stated, fails.  The part "12abc" is not a numeral, and
    [readRunIDs] appends 12 for it, not 0. *)
Lemma numeral_prefix_is_read :
  isNumeral "12abc" = false
  /\ readRunIDs (mkFS {["final.txt" := "7,12abc"]} ∅) "final.txt" = [7; 12].
Proof. split; vm_compute; reflexivity. Qed.

(** C10, amended.  [readRunIDs] rejects and skips nothing: it returns one
    ID per part of the content, one more than the content has commas, and
    the ID of a part is the integer scanned at its head, or 0 when no
    integer can be scanned there.  None can be scanned from the empty
    part, from a part whose head is neither white space nor a sign nor a
    digit, from a sign that no digit follows, or from a part that starts
    with a line feed; other white space of Unicode before the integer is
    passed over.  A numeral, with leading zeros or a sign, that something
    other than a digit follows yields its number when the number fits 64
    bits, and nothing, hence the ID 0, when it does not.  So a content
    whose parts are decimal forms of integers followed by text is read as
    those integers, with 0 for the ones outside 64 bits.  A [final.txt]
    that is empty or holds only white space is read as the list [0], and
    [CompleteRuns] then makes one completion call, for run 0. *)
Theorem lenient_run_id_parsing :
  let keep := fun z : Z =>
    if (- 2 ^ 63 <=? z) && (z <? 2 ^ 63) then Some z else None in
  let noDigit := fun rest : string =>
    match rest with String c _ => isDigit c = false | "" => True end in
  (forall fs filename content,
      files fs !! filename = Some content ->
      length (readRunIDs fs filename) = S (separators "," content)
      /\ forall i part,
           Split (TrimSpace content) "," !! i = Some part ->
           readRunIDs fs filename !! i = Some (default 0 (Sscanf_d part))) /\
  Sscanf_d "" = None /\
  (forall c rest,
      (forall w r, w ∈ whiteSpace -> String c rest <> w +:+ r) ->
      isSign c = false -> isDigit c = false ->
      Sscanf_d (String c rest) = None) /\
  (forall c rest,
      isSign c = true -> noDigit rest -> Sscanf_d (String c rest) = None) /\
  (forall rest, Sscanf_d (newline +:+ rest) = None) /\
  (forall w rest,
      w ∈ whiteSpace -> w <> newline -> Sscanf_d (w +:+ rest) = Sscanf_d rest) /\
  (forall digits rest,
      digits <> "" ->
      forallb isDigit (list_ascii_of_string digits) = true ->
      noDigit rest ->
      Sscanf_d (digits +:+ rest) = Sscanf_d digits) /\
  (forall d rest,
      d <> Decimal.Nil -> noDigit rest ->
      Sscanf_d (NilEmpty.string_of_uint d +:+ rest) = keep (Z.of_uint d)
      /\ Sscanf_d (String "+" (NilEmpty.string_of_uint d +:+ rest))
         = keep (Z.of_uint d)
      /\ Sscanf_d (String "-" (NilEmpty.string_of_uint d +:+ rest))
         = keep (- Z.of_uint d)) /\
  (forall z rest, noDigit rest -> Sscanf_d (fmt_d z +:+ rest) = keep z) /\
  (forall fs filename (tokens : list (Z * string)),
      tokens <> [] ->
      Forall (fun t => afterInteger t.2) tokens ->
      files fs !! filename
      = Some (String.concat "," ((fun t => fmt_d t.1 +:+ t.2) <$> tokens)) ->
      readRunIDs fs filename = (fun t => default 0 (keep t.1)) <$> tokens) /\
  readRunIDs (mkFS {["final.txt" := " 7 ,+12abc,x8," +:+ newline +:+ "9,007"]} ∅)
    "final.txt" = [7; 12; 0; 0; 7] /\
  readRunIDs (mkFS {["final.txt" := "5,9223372036854775808,-3"]} ∅) "final.txt"
  = [5; 0; -3] /\
  readRunIDs (mkFS {["final.txt" := bytes [194%N; 160%N] +:+ "5,"
                                      +:+ bytes [194%N; 160%N] +:+ "6"]} ∅)
    "final.txt" = [5; 6] /\
  (forall fs ws,
      Forall (fun w => w ∈ whiteSpace) ws ->
      files fs !! "final.txt" = Some (joined ws) ->
      readRunIDs fs "final.txt" = [0]) /\
  (forall NewRequest unmarshal net apiToken projectCode fs ws,
      apiToken <> "" -> projectCode <> "" ->
      Forall (fun w => w ∈ whiteSpace) ws ->
      files fs !! "final.txt" = Some (joined ws) ->
      (CompleteRuns NewRequest unmarshal net apiToken projectCode fs).1
      = [(0, (completeRun NewRequest unmarshal (net O) apiToken projectCode 0).1)]).
Proof.
  intros keep noDigit.
  split; [|split; [reflexivity|split; [|split; [|split; [reflexivity|
    split; [|split; [|split; [|split; [|split; [|split; [|split; [|split;
    [|split]]]]]]]]]]]]]; [| | | | | | | |vm_compute; reflexivity..| |].
  - intros fs filename content Hlk. split; [now apply readRunIDs_length|].
    intros i part Hpart. unfold readRunIDs. rewrite Hlk, list_lookup_fmap, Hpart.
    reflexivity.
  - intros c rest Hno. apply Sscanf_d_no_digit. now apply no_whiteSpace_head.
  - exact Sscanf_d_sign_only.
  - intros w rest. apply Sscanf_d_whiteSpace.
  - exact Sscanf_d_trailing.
  - intros d rest. apply Sscanf_d_uint.
  - intros z rest. apply Sscanf_d_fmt_d_head.
  - intros fs filename tokens Hne Hall Hlk. unfold readRunIDs. rewrite Hlk.
    now apply parseRunIDs_tokens.
  - intros fs ws Hws Hlk.
    apply (readRunIDs_blank fs "final.txt" (joined ws) Hlk), blank_joined, Hws.
  - intros NewRequest unmarshal net apiToken projectCode fs ws
           Htok Hproj Hws Hlk.
    unfold CompleteRuns.
    apply String.eqb_neq in Htok, Hproj. unfold eqb. rewrite Htok, Hproj.
    rewrite (readRunIDs_blank fs "final.txt" (joined ws) Hlk (blank_joined ws Hws)).
    reflexivity.
Qed.

End LedgerClaims.

(** ** The completion stage on example files *)

Module LedgerExamples.
Import GoString GoText Files Http Complete TextSpec FilesFacts LedgerClaims Scenarios.

Example first_execution :
  let out := CompleteRuns requestOK parse service "token" "DEMO" filesBefore in
  out.1 = [(7, false); (8, true)]
  /\ ledger out.2
     = "Run ID 3: Test run not found" +:+ newline
       +:+ "Run ID 7: Test run not found" +:+ newline.
Proof. split; vm_compute; reflexivity. Qed.

(** Run 7 fails in two executions, and has two lines in the ledger. *)
Example second_execution :
  let first := CompleteRuns requestOK parse service "token" "DEMO" filesBefore in
  let second := CompleteRuns requestOK parse service "token" "DEMO" first.2 in
  files second.2 !! "errors.txt"
  = Some ("Run ID 3: Test run not found" +:+ newline
          +:+ "Run ID 7: Test run not found" +:+ newline
          +:+ "Run ID 7: Test run not found" +:+ newline).
Proof. vm_compute. reflexivity. Qed.

Lemma ledger_writable : "errors.txt" ∉ denied filesBefore.
Proof. apply not_elem_of_empty. Defined.

Lemma ledger_append_only_witness :
  files (logError filesBefore 7) !! "errors.txt"
  = Some ("Run ID 3: Test run not found" +:+ newline
          +:+ "Run ID 7: Test run not found" +:+ newline)
  /\ files (logError filesBefore 7) !! "final.txt" = Some "7,8"
  /\ ledger (CompleteRuns requestOK parse service "token" "DEMO" filesBefore).2
     = "Run ID 3: Test run not found" +:+ newline
       +:+ "Run ID 7: Test run not found" +:+ newline
  /\ exists a b c,
       ledger (CompleteRuns requestOK parse service "token" "DEMO"
                 (CompleteRuns requestOK parse service "token" "DEMO"
                    filesBefore).2).2
       = "Run ID 3: Test run not found" +:+ newline +:+ a
         +:+ ("Run ID 7: Test run not found" +:+ newline) +:+ b
         +:+ ("Run ID 7: Test run not found" +:+ newline) +:+ c.
Proof.
  pose proof ledger_append_only as H. cbn zeta in H.
  destruct H as (Hlog & _ & Hrun & Htwice).
  destruct (Hlog filesBefore 7 ledger_writable) as [Hledger Hothers].
  split; [|split; [|split]].
  - rewrite Hledger. vm_compute. reflexivity.
  - rewrite (Hothers "final.txt") by discriminate. vm_compute. reflexivity.
  - rewrite (Hrun requestOK parse service "token" "DEMO" filesBefore
               ledger_writable).
    vm_compute. reflexivity.
  - destruct (Htwice requestOK parse service service "token" "DEMO"
                filesBefore 7 ledger_writable) as (a & b & c & Heq).
    + apply list_elem_of_In. vm_compute. tauto.
    + apply list_elem_of_In. vm_compute. tauto.
    + exists a, b, c. rewrite Heq. reflexivity.
Defined.

Lemma lenient_run_id_parsing_witness :
  length (readRunIDs (mkFS {["final.txt" := "1,,x"]} ∅) "final.txt") = 3%nat
  /\ Sscanf_d "abc" = None
  /\ Sscanf_d "-" = None
  /\ Sscanf_d (" " +:+ "42") = Sscanf_d "42"
  /\ Sscanf_d ("12" +:+ "abc") = Sscanf_d "12"
  /\ Sscanf_d ("007" +:+ "abc") = Some 7
  /\ Sscanf_d ("-12" +:+ "abc") = Some (-12)
  /\ Sscanf_d ("9223372036854775808" +:+ "") = None
  /\ readRunIDs (mkFS {["final.txt" := "7,12abc,9223372036854775808"]} ∅)
       "final.txt" = [7; 12; 0]
  /\ readRunIDs blankFinal "final.txt" = [0]
  /\ (CompleteRuns requestOK parse service "token" "DEMO" blankFinal).1
     = [(0, (completeRun requestOK parse (service O) "token" "DEMO" 0).1)].
Proof.
  pose proof lenient_run_id_parsing as H. cbn zeta in H.
  destruct H as (Hparts & _ & Hletter & Hsign & _ & Hspace & Htrail & Huint
                 & Hint & Htokens & _ & _ & _ & Hblank & Hcall).
  assert (Hnl : newline ∈ whiteSpace)
    by (apply list_elem_of_In; vm_compute; tauto).
  repeat apply conj.
  - apply (Hparts (mkFS {["final.txt" := "1,,x"]} ∅) "final.txt" "1,,x").
    vm_compute. reflexivity.
  - apply (Hletter "a"%char "bc"); [|reflexivity..].
    intros w r Hw. apply list_elem_of_In in Hw. vm_compute in Hw.
    repeat (destruct Hw as [<-|Hw]; [discriminate|]). destruct Hw.
  - apply (Hsign "-"%char ""); [reflexivity|exact I].
  - apply (Hspace " " "42"); [|discriminate].
    apply list_elem_of_In. vm_compute. tauto.
  - apply (Htrail "12" "abc"); [discriminate|reflexivity..].
  - apply (Huint (Decimal.D0 (Decimal.D0 (Decimal.D7 Decimal.Nil))) "abc");
      [discriminate|reflexivity].
  - apply (Hint (-12) "abc"). reflexivity.
  - apply (Hint 9223372036854775808 ""). exact I.
  - apply (Htokens (mkFS {["final.txt" := "7,12abc,9223372036854775808"]} ∅)
             "final.txt" [(7, ""); (12, "abc"); (9223372036854775808, "")]);
      [discriminate| |vm_compute; reflexivity].
    repeat constructor.
  - apply (Hblank blankFinal [newline]); [|vm_compute; reflexivity].
    now repeat constructor.
  - apply (Hcall requestOK parse service "token" "DEMO" blankFinal [newline]);
      try discriminate; [|vm_compute; reflexivity].
    now repeat constructor.
Defined.

End LedgerExamples.

(** ** More facts about the retrying executor: closes and sleeps *)

Module RetryTraceFacts.
Import GoString Http Complete CompleteFacts.

Section RetryTrace.
Variable Do : Z -> DoResult.
Variable config : RetryConfig.

Lemma elem_of_retry_trace (e : Event) (trace : list Event) (a : Z) (closed : bool) :
  e ∈ EvDo httpClient a
        :: (if closed then [EvClose a] else [])
        ++ (if a <? MaxRetries config then [EvSleep a] else [])
        ++ trace
  <-> e = EvDo httpClient a
      \/ (closed = true /\ e = EvClose a)
      \/ (a < MaxRetries config /\ e = EvSleep a)
      \/ e ∈ trace.
Proof.
  rewrite elem_of_cons, !elem_of_app.
  destruct closed; destruct (Z.ltb_spec a (MaxRetries config));
    rewrite ?list_elem_of_singleton, ?elem_of_nil; intuition (try discriminate; try lia).
Qed.

(** A body is closed exactly at an attempt that was sent and answered by a
    response the loop retries. *)
Lemma retryLoop_close fuel attempt resp lastErr k :
  EvClose k ∈ (retryLoop Do config fuel attempt resp lastErr).2 <->
  sent (retryLoop Do config fuel attempt resp lastErr).2 k
  /\ classify (Do k).1 (Do k).2 = Retry true.
Proof.
  revert attempt resp lastErr.
  induction fuel as [|fuel IH]; intros attempt resp lastErr.
  - simpl. unfold sent. rewrite !elem_of_nil. tauto.
  - pose proof (retryLoop_sent_range Do config fuel (attempt + 1)) as Hrange.
    simpl. destruct (Do attempt) as [resp' err'] eqn:HDo.
    destruct (classify resp' err') as [r e|closed] eqn:Hcl.
    + simpl. unfold sent. rewrite !list_elem_of_singleton. split; [discriminate|].
      intros [[= ->] Hc]. rewrite HDo in Hc. simpl in Hc. congruence.
    + specialize (IH (attempt + 1) resp' err'). specialize (Hrange resp' err' k).
      destruct (retryLoop Do config fuel (attempt + 1) resp' err') as [out trace].
      simpl in *. rewrite sent_retry_trace, elem_of_retry_trace, IH. split.
      * intros [H|[[-> [= ->]]|[[_ H]|[Hs Hc]]]]; try discriminate.
        -- split; [now left|]. rewrite HDo. now simpl.
        -- split; [now right|assumption].
      * intros [[->|Hs] Hc].
        -- rewrite HDo in Hc. simpl in Hc. rewrite Hcl in Hc. injection Hc as ->.
           right. left. now split.
        -- right. right. right. now split.
Qed.

(** The loop sleeps exactly after an attempt that was sent, that it
    retries, and that is not the last one the configuration allows. *)
Lemma retryLoop_sleep fuel attempt resp lastErr k :
  EvSleep k ∈ (retryLoop Do config fuel attempt resp lastErr).2 <->
  sent (retryLoop Do config fuel attempt resp lastErr).2 k
  /\ k < MaxRetries config
  /\ exists closed, classify (Do k).1 (Do k).2 = Retry closed.
Proof.
  revert attempt resp lastErr.
  induction fuel as [|fuel IH]; intros attempt resp lastErr.
  - simpl. unfold sent. rewrite !elem_of_nil. tauto.
  - pose proof (retryLoop_sent_range Do config fuel (attempt + 1)) as Hrange.
    simpl. destruct (Do attempt) as [resp' err'] eqn:HDo.
    destruct (classify resp' err') as [r e|closed] eqn:Hcl.
    + simpl. unfold sent. rewrite !list_elem_of_singleton. split; [discriminate|].
      intros ([= ->] & _ & c & Hc). rewrite HDo in Hc. simpl in Hc. congruence.
    + specialize (IH (attempt + 1) resp' err'). specialize (Hrange resp' err' k).
      destruct (retryLoop Do config fuel (attempt + 1) resp' err') as [out trace].
      simpl in *. rewrite sent_retry_trace, elem_of_retry_trace, IH. split.
      * intros [H|[[_ H]|[[Hlt [= ->]]|(Hs & Hlt & Hc)]]]; try discriminate.
        -- split; [now left|]. split; [assumption|]. exists closed.
           rewrite HDo. now simpl.
        -- split; [now right|]. now split.
      * intros ([->|Hs] & Hlt & Hc).
        -- right. right. left. now split.
        -- right. right. right. now repeat split.
Qed.

End RetryTrace.

End RetryTraceFacts.

(** ** Further properties of the retrying executor *)

Module ExecutorExtras.
Import GoString Http Complete CompleteFacts RetryTraceFacts Scenarios.

Lemma classify_retry_closed (r : DoResult) :
  classify r.1 r.2 = Retry true <->
  exists resp, r = (Some resp, None)
               /\ ~ (200 <= StatusCode resp < 300)
               /\ retryableStatus (StatusCode resp).
Proof.
  destruct r as [[resp|] [msg|]]; unfold classify; cbn [fst snd];
    try (split; [discriminate|]; now intros (r & [=] & _)).
  destruct ((200 <=? StatusCode resp) && (StatusCode resp <? 300)) eqn:H2xx.
  - apply andb_true_iff in H2xx as [Hlo Hhi].
    apply Z.leb_le in Hlo. apply Z.ltb_lt in Hhi.
    split; [discriminate|]. intros (r & [= <-] & Hcode & _). lia.
  - assert (Hcode : ~ (200 <= StatusCode resp < 300)).
    { intros [Hlo Hhi]. apply Z.leb_le in Hlo. apply Z.ltb_lt in Hhi.
      rewrite Hlo, Hhi in H2xx. discriminate. }
    destruct (isRetryableError None (StatusCode resp)) eqn:Hr; cbn [negb].
    + split; [|reflexivity]. intros _. exists resp.
      split; [reflexivity|]. split; [assumption|].
      apply isRetryableError_spec in Hr as [Hr|Hr]; [congruence|assumption].
    + split; [discriminate|]. intros (r & [= <-] & _ & Hst).
      assert (Ht : isRetryableError None (StatusCode resp) = true)
        by (apply isRetryableError_spec; now right).
      congruence.
Qed.

(** X1.  An attempt answered with a 2xx status ends the call: the response
    is returned with a nil error, no later attempt is sent, the executor
    does not sleep after it, and it leaves the body of that response
    open for the caller. *)
Theorem success_ends_call (Do : Z -> DoResult) (config : RetryConfig)
    (k : Z) (resp : Response) :
  let run := retryableHTTPRequest Do config in
  sent run.2 k -> Do k = (Some resp, None) -> 200 <= StatusCode resp < 300 ->
  run.1 = (Some resp, None)
  /\ (forall j, sent run.2 j -> j <= k)
  /\ (EvClose k ∉ run.2)
  /\ (EvSleep k ∉ run.2).
Proof.
  intros run Hsent HDo Hcode. subst run. unfold retryableHTTPRequest in *.
  assert (Hcl : classify (Do k).1 (Do k).2 = Return (Some resp) None).
  { rewrite HDo. unfold classify. cbn [fst snd].
    destruct (Z.leb_spec 200 (StatusCode resp)); [|lia].
    destruct (Z.ltb_spec (StatusCode resp) 300); [reflexivity|lia]. }
  destruct (retryLoop_return Do config _ 0 None None k _ _ Hsent Hcl) as [Hout Hmax].
  split; [exact Hout|]. split; [exact Hmax|]. split.
  - intros Hclose. apply retryLoop_close in Hclose as [_ Hc]. congruence.
  - intros Hsleep. apply retryLoop_sleep in Hsleep as (_ & _ & c & Hc). congruence.
Qed.

(** X2.  The executor sleeps between attempts and nowhere else: a retry,
    attempt [k + 1], is sent exactly when the executor slept after attempt
    [k], and it never sleeps after the last attempt the configuration
    allows. *)
Theorem backoff_between_attempts (Do : Z -> DoResult) (config : RetryConfig) (k : Z) :
  let run := retryableHTTPRequest Do config in
  0 <= k ->
  (sent run.2 (k + 1) <-> EvSleep k ∈ run.2)
  /\ (EvSleep k ∈ run.2 -> k < MaxRetries config).
Proof.
  intros run Hk. subst run. unfold retryableHTTPRequest.
  rewrite (retryLoop_sent_succ Do config _ 0 None None k Hk), retryLoop_sleep.
  split; [|now intros (_ & Hlt & _)].
  split; intros (Hs & Hlt & Hc); (split; [assumption|]); (split; [lia|assumption]).
Qed.

(** X3.  The executor closes the body of a response exactly when it
    retries after it: the attempt was sent and was answered, without
    transport error, by a response outside 2xx with a retryable status. *)
Theorem retried_bodies_closed (Do : Z -> DoResult) (config : RetryConfig) (k : Z) :
  let run := retryableHTTPRequest Do config in
  EvClose k ∈ run.2 <->
  sent run.2 k
  /\ exists resp, Do k = (Some resp, None)
                  /\ ~ (200 <= StatusCode resp < 300)
                  /\ retryableStatus (StatusCode resp).
Proof.
  intros run. subst run. unfold retryableHTTPRequest.
  now rewrite retryLoop_close, classify_retry_closed.
Qed.

(** X4.  The executor sends at most [MaxRetries + 1] requests, all of them
    numbered from 0 to [MaxRetries]; with a negative [MaxRetries] it
    sends none and returns a nil response with the error of exhaustion. *)
Theorem attempt_budget (Do : Z -> DoResult) (config : RetryConfig) :
  let run := retryableHTTPRequest Do config in
  attempts run.2 <= Z.max 0 (MaxRetries config + 1)
  /\ (forall k, sent run.2 k -> 0 <= k <= MaxRetries config)
  /\ (MaxRetries config < 0 ->
      run = ((None, Some ("request failed after " +:+ fmt_d (MaxRetries config + 1)
                          +:+ " attempts: <nil>")), [])).
Proof.
  intros run. subst run. unfold retryableHTTPRequest. split; [|split].
  - pose proof (retryLoop_attempts_le Do config
                  (Z.to_nat (MaxRetries config + 1)) 0 None None). lia.
  - intros k Hk. apply retryLoop_sent_range in Hk. lia.
  - intros Hneg. replace (Z.to_nat (MaxRetries config + 1)) with O by lia.
    reflexivity.
Qed.

(** X5.  When every attempt the configuration allows is a retryable
    failure, the executor sends [MaxRetries + 1] requests and returns the
    response of the last call with an error whose text is
    "request failed after N attempts: " followed by the [%v] form of the
    error of the last call. *)
Theorem exhaustion_after_all_retryable (Do : Z -> DoResult) (config : RetryConfig) :
  0 <= MaxRetries config ->
  (forall k, 0 <= k <= MaxRetries config -> retryable (Do k)) ->
  (retryableHTTPRequest Do config).1 =
    ((Do (MaxRetries config)).1,
     Some ("request failed after " +:+ fmt_d (MaxRetries config + 1)
           +:+ " attempts: " +:+ fmt_v (Do (MaxRetries config)).2))
  /\ attempts (retryableHTTPRequest Do config).2 = MaxRetries config + 1.
Proof.
  intros Hpos Hall. unfold retryableHTTPRequest.
  destruct (retryLoop_exhausted Do config (Z.to_nat (MaxRetries config + 1))
              0 None None) as [Hout Hn].
  { intros k Hk. apply classify_retry_iff; [|apply Hall; lia].
    destruct (Hall k ltac:(lia)) as [Herr|(resp & HDo & Hst)]; [now left|].
    right. exists resp. split; [assumption|]. unfold retryableStatus in Hst.
    rewrite !elem_of_cons, elem_of_nil in Hst. lia. }
  rewrite Hn, Hout. split; [|lia].
  destruct (decide (Z.to_nat (MaxRetries config + 1) = O)) as [H0|_]; [lia|].
  replace (0 + Z.of_nat (Z.to_nat (MaxRetries config + 1)) - 1)
    with (MaxRetries config) by lia.
  reflexivity.
Qed.

End ExecutorExtras.

(** ** The further properties of the executor on example services *)

Module ExecutorExtrasExamples.
Import GoString Http Complete CompleteFacts ExecutorExtras Scenarios ExtraScenarios.

Ltac sent_concrete := unfold sent; apply list_elem_of_In; vm_compute; tauto.

Lemma success_ends_call_witness :
  let run := retryableHTTPRequest recovers defaultRetryConfig in
  run.1 = (Some (mkResponse 200 (Some "done")), None)
  /\ (forall j, sent run.2 j -> j <= 1)
  /\ (EvClose 1 ∉ run.2)
  /\ (EvSleep 1 ∉ run.2).
Proof.
  apply (success_ends_call recovers defaultRetryConfig 1
           (mkResponse 200 (Some "done"))).
  - sent_concrete.
  - reflexivity.
  - simpl. lia.
Defined.

Lemma backoff_between_attempts_witness :
  let run := retryableHTTPRequest flaky defaultRetryConfig in
  (sent run.2 (0 + 1) <-> EvSleep 0 ∈ run.2)
  /\ (EvSleep 0 ∈ run.2 -> 0 < MaxRetries defaultRetryConfig).
Proof. apply (backoff_between_attempts flaky defaultRetryConfig 0). lia. Defined.

Lemma retried_bodies_closed_witness :
  EvClose 0 ∈ (retryableHTTPRequest flaky defaultRetryConfig).2.
Proof.
  apply (retried_bodies_closed flaky defaultRetryConfig 0). split.
  - sent_concrete.
  - exists (mkResponse 503 (Some "")). split; [reflexivity|].
    split; [simpl; lia|]. unfold retryableStatus.
    apply list_elem_of_In. vm_compute. tauto.
Defined.

Lemma attempt_budget_witness :
  retryableHTTPRequest flaky noAttempt
  = ((None, Some ("request failed after " +:+ fmt_d (MaxRetries noAttempt + 1)
                  +:+ " attempts: <nil>")), []).
Proof.
  apply (attempt_budget flaky noAttempt). vm_compute. reflexivity.
Defined.

Lemma exhaustion_after_all_retryable_witness :
  (retryableHTTPRequest (always 503) completionRetryConfig).1 =
    (((always 503) (MaxRetries completionRetryConfig)).1,
     Some ("request failed after " +:+ fmt_d (MaxRetries completionRetryConfig + 1)
           +:+ " attempts: "
           +:+ fmt_v ((always 503) (MaxRetries completionRetryConfig)).2))
  /\ attempts (retryableHTTPRequest (always 503) completionRetryConfig).2
     = MaxRetries completionRetryConfig + 1.
Proof.
  apply (exhaustion_after_all_retryable (always 503) completionRetryConfig).
  - vm_compute. discriminate.
  - intros k _. right. exists (mkResponse 503 (Some "")). split; [reflexivity|].
    unfold retryableStatus. apply list_elem_of_In. vm_compute. tauto.
Defined.

End ExecutorExtrasExamples.

(** ** More facts about the Run Selection Engine: the latest record of a case *)

Module LatestRecordFacts.
Import GoString GoStringFacts Filter FilterFacts FilterSpec.

Lemma overall_step (o : CaseOutcome) (y : TestResult) :
  latestOverallTime (caseStep o y)
  = (if gtb (EndTime y) (latestOverallTime o) then EndTime y else latestOverallTime o)
  /\ latestOverallStatus (caseStep o y)
     = (if gtb (EndTime y) (latestOverallTime o) then Status y
        else latestOverallStatus o).
Proof. unfold caseStep. now destruct (passed y). Qed.

(** Either no record of the case has an end time, and the two variables of
    the latest record are empty, or they are the end time and the status
    of the first record that carries the greatest end time. *)
Lemma overall_first_greatest (cs : list TestResult) :
  (latestOverallTime (caseOutcome cs) = ""
   /\ latestOverallStatus (caseOutcome cs) = ""
   /\ forall x, x ∈ cs -> EndTime x = "")
  \/ exists pre r post,
       cs = pre ++ r :: post
       /\ latestOverallTime (caseOutcome cs) = EndTime r
       /\ latestOverallStatus (caseOutcome cs) = Status r
       /\ EndTime r <> ""
       /\ (forall x, x ∈ pre -> gtb (EndTime r) (EndTime x) = true)
       /\ (forall x, x ∈ post -> gtb (EndTime x) (EndTime r) = false).
Proof.
  induction cs as [|y cs IH] using rev_ind.
  - left. repeat split. intros x Hx. now apply elem_of_nil in Hx.
  - rewrite caseOutcome_snoc.
    destruct (overall_step (caseOutcome cs) y) as [-> ->].
    destruct IH as [(Ht & Hs & Hall)|(pre & r & post & -> & Ht & Hs & Hne & Hpre & Hpost)].
    + rewrite Ht. destruct (gtb (EndTime y) "") eqn:Hgt.
      * right. exists cs, y, []. repeat split.
        -- intros He. rewrite He in Hgt. discriminate.
        -- intros x Hx. now rewrite (Hall x Hx).
        -- intros x Hx. now apply elem_of_nil in Hx.
      * left. rewrite Hs. repeat split. intros x Hx.
        apply elem_of_app in Hx as [Hx|Hx]; [now apply Hall|].
        apply list_elem_of_singleton in Hx. subst x.
        apply gtb_total; [assumption|apply gtb_empty_r].
    + rewrite Ht. destruct (gtb (EndTime y) (EndTime r)) eqn:Hgt.
      * right. exists (pre ++ r :: post), y, []. repeat split.
        -- intros He. rewrite He, gtb_empty_r in Hgt. discriminate.
        -- intros x Hx. apply elem_of_app in Hx as [Hx|Hx].
           ++ eapply gtb_trans; [exact Hgt|now apply Hpre].
           ++ apply elem_of_cons in Hx as [->|Hx]; [assumption|].
              eapply gtb_geb_trans; [exact Hgt|]. unfold geb.
              now rewrite (Hpost x Hx).
        -- intros x Hx. now apply elem_of_nil in Hx.
      * right. exists pre, r, (post ++ [y]). rewrite Hs. repeat split; try assumption.
        -- now rewrite <- app_assoc.
        -- intros x Hx. apply elem_of_app in Hx as [Hx|Hx]; [now apply Hpost|].
           apply list_elem_of_singleton in Hx. now subst x.
Qed.

(** The first record that carries the greatest end time is one record. *)
Lemma first_greatest_unique (pre pre' post post' : list TestResult) (r r' : TestResult) :
  pre ++ r :: post = pre' ++ r' :: post' ->
  (forall x, x ∈ pre -> gtb (EndTime r) (EndTime x) = true) ->
  (forall x, x ∈ post -> gtb (EndTime x) (EndTime r) = false) ->
  (forall x, x ∈ pre' -> gtb (EndTime r') (EndTime x) = true) ->
  (forall x, x ∈ post' -> gtb (EndTime x) (EndTime r') = false) ->
  r = r'.
Proof.
  intros Heq Hpre Hpost Hpre' Hpost'.
  apply app_eq_app in Heq as [l [[-> Hl]|[-> Hl]]].
  - destruct l as [|z l]; simpl in Hl.
    + now injection Hl.
    + injection Hl as <- ->.
      assert (H1 : gtb (EndTime r) (EndTime r') = true).
      { apply Hpre. apply elem_of_app. right. left. }
      assert (H2 : gtb (EndTime r) (EndTime r') = false).
      { apply Hpost'. apply elem_of_app. right. left. }
      congruence.
  - destruct l as [|z l]; simpl in Hl.
    + now injection Hl.
    + injection Hl as <- ->.
      assert (H1 : gtb (EndTime r') (EndTime r) = true).
      { apply Hpre'. apply elem_of_app. right. left. }
      assert (H2 : gtb (EndTime r') (EndTime r) = false).
      { apply Hpost. apply elem_of_app. right. left. }
      congruence.
Qed.

Lemma caseKeeps_iff_latestIsPassed (cs : list TestResult) :
  caseKeeps (caseOutcome cs) = true <-> latestIsPassed cs.
Proof.
  split.
  - intros Hk. unfold caseKeeps in Hk.
    destruct (hasPassed (caseOutcome cs)); [|discriminate].
    apply andb_true_iff in Hk as [_ Hst]. apply eqb_eq in Hst.
    destruct (overall_first_greatest cs)
      as [(_ & Hs & _)|(pre & r & post & Hcs & _ & Hs & Hne & Hpre & Hpost)].
    + rewrite Hs in Hst. discriminate.
    + exists pre, r, post. repeat split; try assumption. congruence.
  - intros (pre' & r' & post' & Hcs & Hne' & Hst' & Hpre' & Hpost').
    assert (Hin : r' ∈ cs) by (rewrite Hcs; apply elem_of_app; right; left).
    assert (Hp : passed r' = true) by now apply passed_true.
    destruct (overall_first_greatest cs)
      as [(_ & _ & Hall)|(pre & r & post & Hcs2 & Ht & Hs & Hne & Hpre & Hpost)].
    { now rewrite (Hall r' Hin) in Hne'. }
    assert (r = r').
    { rewrite Hcs in Hcs2. symmetry in Hcs2.
      eapply first_greatest_unique; eauto. }
    subst r'. unfold caseKeeps.
    assert (Hh : hasPassed (caseOutcome cs) = true).
    { apply hasPassed_iff. now exists r. }
    rewrite Hh. apply andb_true_iff. split; apply eqb_eq; [|congruence].
    destruct (latestPassedTime_attained cs Hh) as (p & Hpin & _ & Hpt).
    pose proof (latestOverallTime_ub cs p Hpin) as Hub.
    pose proof (latestPassedTime_ub cs r Hin Hp) as Hlb.
    rewrite Hpt, Ht in Hub. rewrite <- Ht in Hlb.
    unfold geb in Hub, Hlb. apply negb_true_iff in Hub, Hlb.
    rewrite <- Ht in Hub. now apply gtb_total.
Qed.

(** The run IDs that [processResults] returns, in the vocabulary of the
    latest record. *)
Lemma all_passed_iff (results : list TestResult) :
  forallb passed results = true
  <-> forall r, r ∈ results -> Status r = "passed".
Proof.
  rewrite forallb_forall. split; intros H r Hr.
  - apply passed_true, H. now apply list_elem_of_In.
  - apply passed_true, H. now apply list_elem_of_In.
Qed.

Lemma elem_of_processResults_latest
    (rangeOrder : gmap Z (list TestResult) -> list (Z * list TestResult))
    (runResults : gmap Z (list TestResult)) (runID : Z) :
  ListsEntries rangeOrder ->
  runID ∈ processResults rangeOrder runResults <->
  exists results,
    runResults !! runID = Some results
    /\ ((forall r, r ∈ results -> Status r = "passed")
        \/ forall r, r ∈ results ->
             latestIsPassed (caseRecords (CaseID r) results)).
Proof.
  intros Hentries. rewrite (elem_of_processResults _ Hentries).
  split; intros (results & Hlk & Hs); exists results; (split; [assumption|]).
  - apply (selectsRun_spec _ Hentries) in Hs as [Hs|Hs];
      [left; now apply all_passed_iff|].
    right. intros r Hr. apply caseKeeps_iff_latestIsPassed. now apply Hs.
  - apply (selectsRun_spec _ Hentries).
    destruct Hs as [Hs|Hs]; [left; now apply all_passed_iff|].
    right. intros r Hr. apply caseKeeps_iff_latestIsPassed. now apply Hs.
Qed.

End LatestRecordFacts.

(** ** Further properties of the Run Selection Engine *)

Module SelectionExtras.
Import GoString GoStringFacts Filter FilterFacts FilterSpec LatestRecordFacts.

(** X6.  The test that [processResults] makes on the records of a case
    succeeds exactly when the first record, in log order, that carries the
    greatest end time of the case has a non-empty end time and the status
    "passed": between records with the same end time the earlier one in
    the log decides.  A case none of whose records has an end time fails
    the test. *)
Theorem latest_record_decides (cs : list TestResult) :
  (caseKeeps (caseOutcome cs) = true <-> latestIsPassed cs)
  /\ ((forall x, x ∈ cs -> EndTime x = "") -> caseKeeps (caseOutcome cs) = false).
Proof.
  split; [apply caseKeeps_iff_latestIsPassed|].
  intros Hall. destruct (caseKeeps (caseOutcome cs)) eqn:Hk; [|reflexivity].
  apply caseKeeps_iff_latestIsPassed in Hk
    as (pre & r & post & Hcs & Hne & _).
  exfalso. apply Hne, Hall. rewrite Hcs. apply elem_of_app. right. left.
Qed.

(** X7.  For every visiting order of the maps, the list that
    [processResults] returns holds, once each, exactly the run IDs of the
    log whose records are all passed or whose every case has, as the first
    record with its greatest end time, a passed record with a non-empty
    end time. *)
Theorem selection_exact
    (rangeOrder : gmap Z (list TestResult) -> list (Z * list TestResult))
    (runResults : gmap Z (list TestResult)) (runID : Z) :
  ListsEntries rangeOrder ->
  (runID ∈ processResults rangeOrder runResults <->
   exists results,
     runResults !! runID = Some results
     /\ ((forall r, r ∈ results -> Status r = "passed")
         \/ forall r, r ∈ results ->
              latestIsPassed (caseRecords (CaseID r) results)))
  /\ NoDup (processResults rangeOrder runResults).
Proof.
  intros Hentries. split; [|now apply processResults_NoDup].
  now apply elem_of_processResults_latest.
Qed.

End SelectionExtras.

(** ** The further properties of the Run Selection Engine on examples *)

Module SelectionExtrasExamples.
Import GoString GoStringFacts Filter FilterFacts FilterSpec SelectionExtras Scenarios.

Lemma latest_record_decides_witness :
  caseKeeps (caseOutcome [mkResult 1 T1 7 "passed"; mkResult 1 T1 7 "failed"]) = true
  /\ caseKeeps (caseOutcome [mkResult 1 "" 7 "passed"; mkResult 1 "" 7 "failed"]) = false.
Proof.
  split.
  - apply (latest_record_decides [mkResult 1 T1 7 "passed"; mkResult 1 T1 7 "failed"]).
    exists [], (mkResult 1 T1 7 "passed"), [mkResult 1 T1 7 "failed"].
    split; [reflexivity|]. split; [discriminate|]. split; [reflexivity|]. split.
    + intros x Hx. now apply elem_of_nil in Hx.
    + intros x Hx. apply list_elem_of_singleton in Hx. subst x. vm_compute. reflexivity.
  - apply (latest_record_decides [mkResult 1 "" 7 "passed"; mkResult 1 "" 7 "failed"]).
    intros x Hx. apply list_elem_of_In in Hx. simpl in Hx.
    destruct Hx as [<-|[<-|[]]]; reflexivity.
Defined.

Lemma selection_exact_witness :
  (101 ∈ processResults map_to_list exampleLog <->
   exists results,
     exampleLog !! 101 = Some results
     /\ ((forall r, r ∈ results -> Status r = "passed")
         \/ forall r, r ∈ results ->
              latestIsPassed (caseRecords (CaseID r) results)))
  /\ NoDup (processResults map_to_list exampleLog).
Proof.
  apply (selection_exact map_to_list exampleLog 101). intros m. reflexivity.
Defined.

End SelectionExtrasExamples.

(** ** Facts about the stages on the files *)

Module FilterStageFacts.
Import GoString GoText GoFmt Files Filter FilterFacts FilterSpec LatestRecordFacts.
Import FilterIO TextSpec FilesFacts TextFacts.

Lemma writeOutput_file (runIDs : list Z) (outputFile : string) (fs : FS) :
  outputFile ∉ denied fs ->
  files (writeOutput runIDs outputFile fs) !! outputFile
  = Some (String.concat "," (fmt_d <$> runIDs)).
Proof.
  intros Hw. unfold writeOutput. rewrite decide_False by assumption.
  cbn [files]. now rewrite lookup_insert_eq, outputText_join.
Qed.

Lemma writeOutput_other (runIDs : list Z) (outputFile : string) (fs : FS)
    (f : string) :
  f <> outputFile ->
  files (writeOutput runIDs outputFile fs) !! f = files fs !! f.
Proof.
  intros Hne. unfold writeOutput. destruct (decide _); [reflexivity|].
  cbn [files]. now rewrite lookup_insert_ne.
Qed.

Lemma writeOutput_denied (runIDs : list Z) (outputFile : string) (fs : FS) :
  denied (writeOutput runIDs outputFile fs) = denied fs.
Proof. unfold writeOutput. now destruct (decide _). Qed.

Lemma readRunIDs_content (fs : FS) (filename content : string) :
  files fs !! filename = Some content ->
  readRunIDs fs filename = parseRunIDs content.
Proof. intros Hlk. unfold readRunIDs. now rewrite Hlk. Qed.

Lemma readRunIDs_join (fs : FS) (filename : string) (l : list Z) :
  files fs !! filename = Some (String.concat "," (fmt_d <$> l)) ->
  Forall (fun z => fitsInt z = true) l ->
  readRunIDs fs filename = match l with [] => [0] | _ => l end.
Proof.
  intros Hlk Hfit. rewrite (readRunIDs_content _ _ _ Hlk).
  destruct l as [|z l]; [reflexivity|]. now apply parseRunIDs_join.
Qed.



Section Collect.
Variable unmarshal : string -> option TestResult.

(** After the reading loop the map holds, for each run that has records
    in the log, its records in log order. *)
Lemma collect_lookup (lines : list string) (runID : Z) :
  fold_left (collect unmarshal) lines ∅ !! runID
  = match runRecords runID (omap unmarshal lines) with
    | [] => None
    | records => Some records
    end.
Proof.
  induction lines as [|line lines IH] using rev_ind; [reflexivity|].
  assert (Hline : omap unmarshal [line]
                  = match unmarshal line with Some r => [r] | None => [] end).
  { simpl. now destruct (unmarshal line). }
  rewrite fold_left_app, omap_app, Hline. cbn [fold_left]. unfold collect at 1.
  unfold runRecords in *. rewrite filter_app.
  destruct (unmarshal line) as [result|].
  - destruct (decide (RunID result = runID)) as [Heq|Hne].
    + rewrite (filter_cons_True (fun r => RunID r = runID) result [] Heq).
      rewrite filter_nil, Heq, lookup_insert_eq. rewrite IH.
      now destruct (filter (fun r => RunID r = runID) (omap unmarshal lines)).
    + rewrite (filter_cons_False (fun r => RunID r = runID) result [] Hne).
      rewrite filter_nil, app_nil_r, lookup_insert_ne by assumption. exact IH.
  - rewrite filter_nil, app_nil_r. exact IH.
Qed.

Variable scanLines : string -> list string * bool.
Variable rangeOrder : gmap Z (list TestResult) -> list (Z * list TestResult).

Lemma FilterResults_other (fs : FS) (f : string) :
  f <> "filtered.txt" ->
  files (FilterResults unmarshal scanLines rangeOrder fs) !! f = files fs !! f.
Proof.
  intros Hne. unfold FilterResults.
  destruct (files fs !! "results.json") as [content|]; [|reflexivity].
  destruct (scanLines content) as [lines [|]]; [reflexivity|].
  now apply writeOutput_other.
Qed.

Lemma FilterResults_denied (fs : FS) :
  denied (FilterResults unmarshal scanLines rangeOrder fs) = denied fs.
Proof.
  unfold FilterResults.
  destruct (files fs !! "results.json") as [content|]; [|reflexivity].
  destruct (scanLines content) as [lines [|]]; [reflexivity|].
  apply writeOutput_denied.
Qed.

Lemma FilterResults_written (fs : FS) (content : string) (lines : list string) :
  files fs !! "results.json" = Some content ->
  scanLines content = (lines, false) ->
  FilterResults unmarshal scanLines rangeOrder fs
  = writeOutput (processResults rangeOrder (fold_left (collect unmarshal) lines ∅))
      "filtered.txt" fs.
Proof. intros Hlk Hscan. unfold FilterResults. now rewrite Hlk, Hscan. Qed.

(** The runs that the stage selects, in terms of the records of the log. *)
Lemma selected_of_log (lines : list string) (runID : Z) :
  ListsEntries rangeOrder ->
  runID ∈ processResults rangeOrder (fold_left (collect unmarshal) lines ∅) <->
  runRecords runID (omap unmarshal lines) <> []
  /\ ((forall r, r ∈ runRecords runID (omap unmarshal lines) -> Status r = "passed")
      \/ forall r, r ∈ runRecords runID (omap unmarshal lines) ->
           latestIsPassed
             (caseRecords (CaseID r) (runRecords runID (omap unmarshal lines)))).
Proof.
  intros Hentries. rewrite (elem_of_processResults_latest _ _ _ Hentries).
  rewrite collect_lookup.
  destruct (runRecords runID (omap unmarshal lines)) as [|r rs] eqn:Hrs.
  - split; [intros (results & [=] & _)|intros [Hne _]; congruence].
  - split.
    + intros (results & [= <-] & Hs). split; [discriminate|exact Hs].
    + intros [_ Hs]. now exists (r :: rs).
Qed.

End Collect.

End FilterStageFacts.

(** ** Properties of the selection stage on the files *)

Module FilterStageExtras.
Import GoString GoText GoFmt Files Filter FilterFacts FilterSpec LatestRecordFacts.
Import FilterIO TextSpec FilesFacts TextFacts FilterStageFacts.

(** X8.  [writeOutput], when it can create the file, leaves in it the
    decimal forms of the run IDs separated by commas, without brackets and
    without spaces (the empty text for no run ID), and changes no other
    file. *)
Theorem selected_list_text (runIDs : list Z) (outputFile : string) (fs : FS) :
  outputFile ∉ denied fs ->
  files (writeOutput runIDs outputFile fs) !! outputFile
  = Some (String.concat "," (fmt_d <$> runIDs))
  /\ (runIDs = [] -> files (writeOutput runIDs outputFile fs) !! outputFile = Some "")
  /\ forall f, f <> outputFile ->
       files (writeOutput runIDs outputFile fs) !! f = files fs !! f.
Proof.
  intros Hw. split; [now apply writeOutput_file|]. split.
  - intros ->. now rewrite writeOutput_file.
  - intros f Hne. now apply writeOutput_other.
Qed.

(** X9.  What [writeOutput] writes is read back by [readRunIDs] as the
    same list of run IDs when the list is not empty; the file written for
    the empty list is read back as the list that holds the run ID 0. *)
Theorem selected_list_read_back (runIDs : list Z) (outputFile : string) (fs : FS) :
  outputFile ∉ denied fs ->
  Forall (fun z => fitsInt z = true) runIDs ->
  readRunIDs (writeOutput runIDs outputFile fs) outputFile
  = match runIDs with [] => [0] | _ => runIDs end.
Proof.
  intros Hw Hfit. apply readRunIDs_join; [now apply writeOutput_file|assumption].
Qed.

(** X10.  When the log can be read to its end and [filtered.txt] can be
    created, [FilterResults] writes there, separated by commas, the
    ascending list without repetition of the run IDs that have a record
    in the log and whose records, in log order, are all passed or have
    for every case a passed latest record; the lines that do not parse
    are left out. *)
Theorem filter_stage_selects
    (unmarshal : string -> option TestResult)
    (scanLines : string -> list string * bool)
    (rangeOrder : gmap Z (list TestResult) -> list (Z * list TestResult))
    (fs : FS) (content : string) (lines : list string) :
  ListsEntries rangeOrder ->
  files fs !! "results.json" = Some content ->
  scanLines content = (lines, false) ->
  "filtered.txt" ∉ denied fs ->
  let records := omap unmarshal lines in
  exists selected,
    files (FilterResults unmarshal scanLines rangeOrder fs) !! "filtered.txt"
    = Some (String.concat "," (fmt_d <$> selected))
    /\ Sorted Z.le selected /\ NoDup selected
    /\ forall runID,
         runID ∈ selected <->
         runRecords runID records <> []
         /\ ((forall r, r ∈ runRecords runID records -> Status r = "passed")
             \/ forall r, r ∈ runRecords runID records ->
                  latestIsPassed
                    (caseRecords (CaseID r) (runRecords runID records))).
Proof.
  intros Hentries Hlk Hscan Hw records.
  exists (processResults rangeOrder (fold_left (collect unmarshal) lines ∅)).
  rewrite (FilterResults_written _ _ _ _ _ _ Hlk Hscan).
  split; [now apply writeOutput_file|].
  split; [now apply processResults_Sorted|].
  split; [now apply processResults_NoDup|].
  intros runID. now apply selected_of_log.
Qed.

(** X11.  [FilterResults] changes no file other than [filtered.txt].
    When the log is missing, when the scanner stops on an error, or when
    [filtered.txt] cannot be created, it changes nothing: a
    [filtered.txt] left by an earlier execution stays as it is. *)
Theorem filter_stage_footprint
    (unmarshal : string -> option TestResult)
    (scanLines : string -> list string * bool)
    (rangeOrder : gmap Z (list TestResult) -> list (Z * list TestResult))
    (fs : FS) :
  (forall f, f <> "filtered.txt" ->
     files (FilterResults unmarshal scanLines rangeOrder fs) !! f = files fs !! f)
  /\ (files fs !! "results.json" = None ->
      FilterResults unmarshal scanLines rangeOrder fs = fs)
  /\ (forall content lines,
        files fs !! "results.json" = Some content ->
        scanLines content = (lines, true) ->
        FilterResults unmarshal scanLines rangeOrder fs = fs)
  /\ ("filtered.txt" ∈ denied fs ->
      FilterResults unmarshal scanLines rangeOrder fs = fs).
Proof.
  split; [intros f; apply FilterResults_other|]. split; [|split].
  - intros Hlk. unfold FilterResults. now rewrite Hlk.
  - intros content lines Hlk Hscan. unfold FilterResults. now rewrite Hlk, Hscan.
  - intros Hd. unfold FilterResults.
    destruct (files fs !! "results.json") as [content|]; [|reflexivity].
    destruct (scanLines content) as [lines [|]]; [reflexivity|].
    unfold writeOutput. now rewrite decide_True.
Qed.

End FilterStageExtras.

(** ** The selection stage on example files *)

Module FilterStageExamples.
Import GoString GoText GoFmt Files Filter FilterSpec FilterIO.
Import FilterStageExtras ExtraScenarios.

Lemma selected_list_text_witness :
  files (writeOutput [101; 300] "filtered.txt" logFiles) !! "filtered.txt"
  = Some "101,300".
Proof.
  apply (selected_list_text [101; 300] "filtered.txt" logFiles).
  apply not_elem_of_empty.
Defined.

Lemma selected_list_read_back_witness :
  readRunIDs (writeOutput [101; 300] "filtered.txt" logFiles) "filtered.txt"
  = [101; 300]
  /\ readRunIDs (writeOutput [] "filtered.txt" logFiles) "filtered.txt" = [0].
Proof.
  split.
  - apply (selected_list_read_back [101; 300] "filtered.txt" logFiles).
    + apply not_elem_of_empty.
    + repeat constructor.
  - apply (selected_list_read_back [] "filtered.txt" logFiles).
    + apply not_elem_of_empty.
    + constructor.
Defined.

Lemma filter_stage_selects_witness :
  exists selected,
    files (FilterResults logRecord logLines map_to_list logFiles) !! "filtered.txt"
    = Some (String.concat "," (fmt_d <$> selected))
    /\ Sorted Z.le selected /\ NoDup selected
    /\ forall runID,
         runID ∈ selected <->
         runRecords runID (omap logRecord ["a"; "x"; "b"; "c"]) <> []
         /\ ((forall r, r ∈ runRecords runID (omap logRecord ["a"; "x"; "b"; "c"]) ->
                Status r = "passed")
             \/ forall r, r ∈ runRecords runID (omap logRecord ["a"; "x"; "b"; "c"]) ->
                  latestIsPassed
                    (caseRecords (CaseID r)
                       (runRecords runID (omap logRecord ["a"; "x"; "b"; "c"])))).
Proof.
  apply (filter_stage_selects logRecord logLines map_to_list logFiles
           "a;x;b;c" ["a"; "x"; "b"; "c"]).
  - intros m. reflexivity.
  - reflexivity.
  - reflexivity.
  - apply not_elem_of_empty.
Defined.

Lemma filter_stage_footprint_witness :
  files (FilterResults logRecord logLines map_to_list logFiles) !! "results.json"
  = Some "a;x;b;c"
  /\ FilterResults logRecord logLines map_to_list (mkFS ∅ ∅) = mkFS ∅ ∅.
Proof.
  destruct (filter_stage_footprint logRecord logLines map_to_list logFiles)
    as (Hother & _).
  destruct (filter_stage_footprint logRecord logLines map_to_list (mkFS ∅ ∅))
    as (_ & Hmissing & _).
  split.
  - rewrite (Hother "results.json"); [reflexivity|discriminate].
  - apply Hmissing. reflexivity.
Defined.

End FilterStageExamples.

(** ** Facts about the validation stage on the files *)

Module MatchStageFacts.
Import GoString GoText Files Http Match MatchFacts MatchIO.
Import TextSpec FilesFacts TextFacts FilterStageFacts.

Lemma env_set (apiToken projectCode : string) :
  apiToken <> "" -> projectCode <> "" ->
  eqb apiToken "" || eqb projectCode "" = false.
Proof.
  intros Htok Hproj. apply String.eqb_neq in Htok, Hproj.
  unfold eqb. now rewrite Htok, Hproj.
Qed.

Lemma env_unset (apiToken projectCode : string) :
  apiToken = "" \/ projectCode = "" ->
  eqb apiToken "" || eqb projectCode "" = true.
Proof.
  intros [->| ->]; [reflexivity|]. unfold eqb. rewrite String.eqb_refl.
  apply orb_true_r.
Qed.


Lemma WriteFile_other (filename content : string) (fs : FS) (f : string) :
  f <> filename -> files (WriteFile filename content fs) !! f = files fs !! f.
Proof.
  intros Hne. unfold WriteFile. destruct (decide _); [reflexivity|].
  cbn [files]. now rewrite lookup_insert_ne.
Qed.

Lemma WriteFile_denied (filename content : string) (fs : FS) :
  denied (WriteFile filename content fs) = denied fs.
Proof. unfold WriteFile. now destruct (decide _). Qed.

Lemma WriteFile_refused (filename content : string) (fs : FS) :
  filename ∈ denied fs -> WriteFile filename content fs = fs.
Proof. intros Hd. unfold WriteFile. now rewrite decide_True. Qed.




Section Stage.
Context {TestResult : Type}.
Variable unmarshalResult : string -> option TestResult.
Variable scanLines : string -> list string * bool.
Variable validateRunCases : Z -> list Z -> list TestResult -> bool.
Variable NewRequest : string -> string -> bool.
Variable unmarshal : string -> option APIResponse.
Variable Do : string -> Z -> DoResult.









End Stage.

End MatchStageFacts.

(** ** Properties of the validation stage on the files *)

Module MatchStageExtras.
Import GoString GoText Files Http Match MatchFacts MatchIO.
Import TextSpec FilesFacts TextFacts FilterStageFacts MatchStageFacts.

Section Stage.
Context {TestResult : Type}.
Variable unmarshalResult : string -> option TestResult.
Variable scanLines : string -> list string * bool.
Variable validateRunCases : Z -> list Z -> list TestResult -> bool.
Variable NewRequest : string -> string -> bool.
Variable unmarshal : string -> option APIResponse.
Variable Do : string -> Z -> DoResult.
Variables apiToken projectCode : string.


(** X13.  [MatchResults] changes no file other than [final.txt].  When
    one of the two environment variables is empty, or when [final.txt]
    cannot be written, it changes nothing: a [final.txt] left by an
    earlier execution stays as it is. *)
Theorem match_stage_footprint (schedule : list nat) (fs : FS) :
  let out :=
    MatchIO.MatchResults unmarshalResult scanLines validateRunCases NewRequest
      unmarshal Do apiToken projectCode schedule fs in
  (forall f, f <> "final.txt" -> files out !! f = files fs !! f)
  /\ (apiToken = "" \/ projectCode = "" -> out = fs)
  /\ ("final.txt" ∈ denied fs -> out = fs).
Proof.
  intros out. unfold out, MatchIO.MatchResults.
  destruct (eqb apiToken "" || eqb projectCode "") eqn:Henv.
  - split; [reflexivity|]. split; reflexivity.
  - cbn zeta. destruct (crashes _ _ _ _ _ _).
    { split; [reflexivity|]. split; [|reflexivity].
      intros Hunset. now rewrite (env_unset _ _ Hunset) in Henv. }
    unfold MatchIO.writeValidRunIDs. split; [|split].
    + intros f Hne. now apply WriteFile_other.
    + intros Hunset. now rewrite (env_unset _ _ Hunset) in Henv.
    + intros Hd. now apply WriteFile_refused.
Qed.
End Stage.

End MatchStageExtras.

(** ** The validation stage on example files *)

Module MatchStageExamples.
Import GoString GoText Files Http Match MatchIO.
Import MatchStageExtras Scenarios ExtraScenarios.



Lemma match_stage_footprint_witness :
  files (MatchIO.MatchResults matchRecord logLines V2.validateRunCases requestOK
           parseCases caseService "token" "DEMO" [0%nat] selectedFiles)
    !! "filtered.txt"
  = Some "101"
  /\ MatchIO.MatchResults matchRecord logLines V2.validateRunCases requestOK
       parseCases caseService "" "DEMO" [0%nat] selectedFiles = selectedFiles.
Proof.
  split.
  - destruct (match_stage_footprint matchRecord logLines V2.validateRunCases
                requestOK parseCases caseService "token" "DEMO" [0%nat]
                selectedFiles)
      as (Hother & _).
    rewrite (Hother "filtered.txt"); [reflexivity|discriminate].
  - destruct (match_stage_footprint matchRecord logLines V2.validateRunCases
                requestOK parseCases caseService "" "DEMO" [0%nat] selectedFiles)
      as (_ & Hunset & _).
    apply Hunset. now left.
Defined.

End MatchStageExamples.

(** ** Facts about the completion stage on the files *)

Module CompleteStageFacts.
Import GoString GoText Files Http Complete FilesFacts MatchStageFacts.

Lemma logError_other (fs : FS) (runID : Z) (f : string) :
  f <> "errors.txt" -> files (logError fs runID) !! f = files fs !! f.
Proof.
  intros Hne. unfold logError. destruct (decide _); [reflexivity|].
  cbn [files]. now rewrite lookup_insert_ne.
Qed.

Section Stage.
Variable NewRequest : string -> string -> bool.
Variable unmarshal : string -> option APIResponse.
Variable net : nat -> string -> Z -> DoResult.
Variables apiToken projectCode : string.

Lemma CompleteRuns_loop_other (runIDs : list Z) (calls0 : list (Z * bool))
    (fs0 : FS) (f : string) :
  f <> "errors.txt" ->
  files (fold_left (completeNext NewRequest unmarshal net apiToken projectCode)
           runIDs (calls0, fs0)).2 !! f
  = files fs0 !! f.
Proof.
  intros Hne. revert calls0 fs0.
  induction runIDs as [|runID runIDs IH]; intros calls0 fs0; [reflexivity|].
  cbn [fold_left]. unfold completeNext at 2. cbn [fst snd].
  rewrite IH. destruct (completeRun _ _ _ _ _ _).1; [reflexivity|].
  now apply logError_other.
Qed.

(** With the environment set, [CompleteRuns] makes one completion call
    per run ID of [final.txt], in the order of the file. *)
Lemma CompleteRuns_calls (fs : FS) :
  apiToken <> "" -> projectCode <> "" ->
  (CompleteRuns NewRequest unmarshal net apiToken projectCode fs).1.*1
  = readRunIDs fs "final.txt".
Proof.
  intros Htok Hproj. unfold CompleteRuns. rewrite (env_set _ _ Htok Hproj).
  destruct (CompleteRuns_loop NewRequest unmarshal net apiToken projectCode
              (readRunIDs fs "final.txt") [] fs) as (calls & Hcalls & Hids & _).
  cbn zeta in Hcalls. rewrite Hcalls. exact Hids.
Qed.

Lemma CompleteRuns_other (fs : FS) (f : string) :
  f <> "errors.txt" ->
  files (CompleteRuns NewRequest unmarshal net apiToken projectCode fs).2 !! f
  = files fs !! f.
Proof.
  intros Hne. unfold CompleteRuns.
  destruct (eqb apiToken "" || eqb projectCode ""); [reflexivity|].
  now apply CompleteRuns_loop_other.
Qed.
End Stage.

End CompleteStageFacts.

(** ** The stages one after the other *)

Module PipelineExtras.
Import GoString GoText Files Http.
Import TextSpec FilesFacts TextFacts FilterStageFacts MatchStageFacts CompleteStageFacts.
Import Main.

Section Pipeline.
Variable unmarshalRecord : string -> option Filter.TestResult.
Context {TestResult : Type}.
Variable unmarshalResult : string -> option TestResult.
Variable scanLines : string -> list string * bool.
Variable rangeOrder
  : gmap Z (list Filter.TestResult) -> list (Z * list Filter.TestResult).
Variable validateRunCases : Z -> list Z -> list TestResult -> bool.
Variable unmarshalCases : string -> option Match.APIResponse.
Variable unmarshalCompletion : string -> option Complete.APIResponse.
Variable NewRequest : string -> string -> bool.
Variable Do : string -> Z -> DoResult.
Variable net : nat -> string -> Z -> DoResult.
Variables apiToken projectCode : string.

End Pipeline.

End PipelineExtras.

(** ** The stages one after the other on example files *)

Module PipelineExamples.
Import GoString GoText Files Http Match.
Import Main PipelineExtras Scenarios ExtraScenarios.



End PipelineExamples.

(** ** Facts about the second variant of the validation *)

Module LatestPassFacts.
Import GoString GoStringFacts Match MatchFacts MatchSpec.
Import V2.

Lemma passed_iff (r : TestResult) : passed r = true <-> Status r = "passed".
Proof. unfold passed. apply eqb_eq. Qed.

Lemma passed_false (r : TestResult) : passed r = false <-> Status r <> "passed".
Proof.
  rewrite <- passed_iff. destruct (passed r); split; congruence.
Qed.

Lemma passes_snoc (runID c : Z) (results : list TestResult) (r : TestResult) :
  passes runID c (results ++ [r])
  = passes runID c results
    ++ (if decide (RunID r = runID /\ CaseID r = c /\ Status r = "passed")
        then [r] else []).
Proof. unfold passes. now rewrite filter_app. Qed.

Lemma latest_snoc (runID c : Z) (results : list TestResult) (r : TestResult) :
  latest runID (results ++ [r]) c
  = if decide (RunID r = runID /\ CaseID r = c /\ Status r = "passed")
    then if eqb (latest runID results c) "" || gtb (EndTime r) (latest runID results c)
         then EndTime r else latest runID results c
    else latest runID results c.
Proof.
  unfold latest. rewrite fold_left_app. cbn [fold_left].
  set (st := fold_left (scanStep runID) results (mkScan ∅ ∅ ∅)).
  unfold scanStep. destruct (Z.eqb_spec (RunID r) runID) as [Hrun|Hrun].
  - destruct (passed r) eqn:Hp.
    + apply passed_iff in Hp. cbn [latestPassTime].
      destruct (decide (CaseID r = c)) as [Hc|Hc].
      * rewrite decide_True by now repeat split. subst c.
        destruct (eqb (default "" (latestPassTime st !! CaseID r)) ""
                  || gtb (EndTime r) (default "" (latestPassTime st !! CaseID r)));
          [now rewrite lookup_insert_eq|reflexivity].
      * rewrite decide_False by tauto.
        destruct (eqb (default "" (latestPassTime st !! CaseID r)) ""
                  || gtb (EndTime r) (default "" (latestPassTime st !! CaseID r)));
          [now rewrite lookup_insert_ne|reflexivity].
    + apply passed_false in Hp. cbn [latestPassTime].
      now rewrite decide_False by tauto.
  - now rewrite decide_False by tauto.
Qed.

(** After the first loop [latestPassTime] of a case is not below the end
    time of any passed record of the case. *)
Lemma latest_ub (runID c : Z) (results : list TestResult) (p : TestResult) :
  p ∈ passes runID c results -> gtb (EndTime p) (latest runID results c) = false.
Proof.
  induction results as [|r results IH] using rev_ind.
  - intros Hin. now apply elem_of_nil in Hin.
  - rewrite passes_snoc, latest_snoc. intros Hin.
    destruct (decide (RunID r = runID /\ CaseID r = c /\ Status r = "passed"))
      as [Hr|Hr].
    + destruct (eqb (latest runID results c) "") eqn:Hempty; cbn [orb].
      * apply eqb_eq in Hempty.
        apply elem_of_app in Hin as [Hin|Hin].
        -- specialize (IH Hin). rewrite Hempty in IH.
           destruct (EndTime p) eqn:Hp; [apply gtb_empty_r|].
           now rewrite gtb_nonempty in IH.
        -- apply list_elem_of_singleton in Hin. subst p. apply gtb_irrefl.
      * destruct (gtb (EndTime r) (latest runID results c)) eqn:Hgt.
        -- apply elem_of_app in Hin as [Hin|Hin].
           ++ specialize (IH Hin).
              destruct (gtb (EndTime p) (EndTime r)) eqn:Hpr; [|reflexivity].
              now rewrite (gtb_trans _ _ _ Hpr Hgt) in IH.
           ++ apply list_elem_of_singleton in Hin. subst p. apply gtb_irrefl.
        -- apply elem_of_app in Hin as [Hin|Hin]; [now apply IH|].
           apply list_elem_of_singleton in Hin. now subst p.
    + rewrite app_nil_r in Hin. now apply IH.
Qed.

(** It is empty, or the end time of a passed record of the case. *)
Lemma latest_attained (runID c : Z) (results : list TestResult) :
  latest runID results c = ""
  \/ exists p, p ∈ passes runID c results /\ EndTime p = latest runID results c.
Proof.
  induction results as [|r results IH] using rev_ind; [now left|].
  rewrite passes_snoc, latest_snoc.
  destruct (decide (RunID r = runID /\ CaseID r = c /\ Status r = "passed"))
    as [Hr|Hr].
  - destruct (eqb (latest runID results c) ""
              || gtb (EndTime r) (latest runID results c)).
    + right. exists r. split; [|reflexivity]. apply elem_of_app. right. left.
    + destruct IH as [IH|(p & Hp & Heq)]; [now left|].
      right. exists p. split; [|assumption]. apply elem_of_app. now left.
  - rewrite app_nil_r. exact IH.
Qed.

Lemma latest_nonempty (runID c : Z) (results : list TestResult) :
  latest runID results c <> ""
  <-> exists p, p ∈ passes runID c results /\ EndTime p <> "".
Proof.
  split.
  - intros Hne. destruct (latest_attained runID c results) as [He|(p & Hp & Heq)];
      [congruence|].
    exists p. split; [assumption|congruence].
  - intros (p & Hp & Hne) He. pose proof (latest_ub runID c results p Hp) as Hub.
    rewrite He in Hub. now rewrite gtb_nonempty in Hub.
Qed.

Lemma later_than_latest (runID c : Z) (results : list TestResult) (t : string) :
  latest runID results c <> "" ->
  gtb t (latest runID results c) = true
  <-> forall p, p ∈ passes runID c results -> gtb t (EndTime p) = true.
Proof.
  intros Hne. split.
  - intros Hgt p Hp. apply (gtb_geb_trans _ (latest runID results c)); [assumption|].
    unfold geb. now rewrite (latest_ub runID c results p Hp).
  - intros Hall. destruct (latest_attained runID c results) as [He|(p & Hp & Heq)];
      [congruence|].
    rewrite <- Heq. now apply Hall.
Qed.

(** The second loop answers [false] exactly when it meets a record of the
    run that is not passed and is later than a non-empty
    [latestPassTime] of its case. *)
Lemma rejectLoop_false (runID : Z) (latestPassTime : gmap Z string)
    (results : list TestResult) :
  rejectLoop runID latestPassTime results = false <->
  exists f, f ∈ results /\ RunID f = runID /\ Status f <> "passed"
            /\ default "" (latestPassTime !! CaseID f) <> ""
            /\ gtb (EndTime f) (default "" (latestPassTime !! CaseID f)) = true.
Proof.
  induction results as [|r results IH].
  - simpl. split; [discriminate|]. intros (f & Hin & _). now apply elem_of_nil in Hin.
  - cbn [rejectLoop].
    destruct ((RunID r =? runID) && negb (passed r)
              && negb (eqb (default "" (latestPassTime !! CaseID r)) "")
              && gtb (EndTime r) (default "" (latestPassTime !! CaseID r)))
      eqn:Hcond.
    + split; [intros _|reflexivity].
      apply andb_true_iff in Hcond as [Hcond Hgt].
      apply andb_true_iff in Hcond as [Hcond Hne].
      apply andb_true_iff in Hcond as [Hrun Hnp].
      apply Z.eqb_eq in Hrun. apply negb_true_iff in Hnp, Hne.
      apply passed_false in Hnp.
      exists r. split; [left|]. repeat split; try assumption.
      intros He. apply eqb_eq in He. congruence.
    + rewrite IH. split.
      * intros (f & Hin & Hf). exists f. split; [now right|assumption].
      * intros (f & Hin & Hrun & Hnp & Hne & Hgt).
        apply elem_of_cons in Hin as [->|Hin]; [|now exists f].
        exfalso. apply passed_false in Hnp.
        apply Z.eqb_eq in Hrun. rewrite Hrun, Hnp, Hgt in Hcond.
        destruct (eqb (default "" (latestPassTime !! CaseID r)) "") eqn:He;
          [apply eqb_eq in He; congruence|discriminate].
Qed.

(** The second variant rejects a run exactly when the log holds a late
    failure of the run. *)
Lemma validateRunCases_false (runID : Z) (caseIDs : list Z)
    (results : list TestResult) :
  validateRunCases runID caseIDs results = false
  <-> exists f, f ∈ results /\ lateFailure runID results f.
Proof.
  unfold validateRunCases. cbn zeta. rewrite rejectLoop_false.
  split; intros (f & Hin & H); exists f; (split; [assumption|]).
  - destruct H as (Hrun & Hnp & Hne & Hgt).
    fold (latest runID results (CaseID f)) in Hne, Hgt.
    split; [assumption|]. split; [assumption|]. split.
    + now apply latest_nonempty.
    + now apply later_than_latest.
  - destruct H as (Hrun & Hnp & Hex & Hall).
    fold (latest runID results (CaseID f)).
    split; [assumption|]. split; [assumption|].
    assert (Hne : latest runID results (CaseID f) <> "") by now apply latest_nonempty.
    split; [assumption|]. now apply later_than_latest.
Qed.

End LatestPassFacts.

(** ** Further properties of the Validation Engine *)

Module ValidationExtras.
Import GoString GoStringFacts Match MatchFacts MatchSpec LatestPassFacts.

(** X15.  The first variant of [validateRunCases] confirms a run exactly
    when every case of the remote list has, among the records of the run
    in the log, at least as many records as the list names it, all of them
    passed.  So a run with an empty remote list is confirmed whatever the
    log holds, and a run with a listed case that has no record in the log
    is rejected. *)
Theorem first_variant_cross_check (rangeOrder : gmap Z Z -> list (Z * Z))
    (runID : Z) (caseIDs : list Z) (results : list V1.TestResult) :
  (forall m, rangeOrder m ≡ₚ map_to_list m) ->
  (V1.validateRunCases rangeOrder runID caseIDs results = true <->
   forall c, c ∈ caseIDs ->
     occurrences c caseIDs <= Z.of_nat (length (localRecords runID c results))
     /\ forall r, r ∈ localRecords runID c results -> V1.Status r = "passed")
  /\ V1.validateRunCases rangeOrder runID [] results = true
  /\ (forall c, c ∈ caseIDs -> localRecords runID c results = [] ->
      V1.validateRunCases rangeOrder runID caseIDs results = false).
Proof.
  intros Hentries. split; [now apply V1_validateRunCases_spec|]. split.
  - apply (V1_validateRunCases_spec rangeOrder runID [] results Hentries).
    intros c Hc. now apply elem_of_nil in Hc.
  - intros c Hc Hnone.
    destruct (V1.validateRunCases rangeOrder runID caseIDs results) eqn:Hv;
      [|reflexivity].
    pose proof
      (proj1 (V1_validateRunCases_spec rangeOrder runID caseIDs results Hentries)
         Hv) as Hall.
    destruct (Hall c Hc) as [Hle _]. rewrite Hnone in Hle.
    pose proof (occurrences_pos c caseIDs Hc). simpl in Hle. lia.
Qed.

(** X16.  The second variant of [validateRunCases] rejects a run exactly
    when the log holds a record of the run that is not passed, whose case
    has a passed record of the run with an end time, and whose end time is
    greater than that of every passed record of the run for its case.  So
    a run none of whose records in the log is a failure is confirmed, also
    when the log has no record of it, and the failures of a case that has
    no passed record do not reject the run. *)
Theorem second_variant_late_failure (runID : Z) (caseIDs : list Z)
    (results : list V2.TestResult) :
  (V2.validateRunCases runID caseIDs results = false
   <-> exists f, f ∈ results /\ lateFailure runID results f)
  /\ ((forall r, r ∈ results -> V2.RunID r = runID -> V2.Status r = "passed") ->
      V2.validateRunCases runID caseIDs results = true)
  /\ ((forall r, r ∈ results -> V2.RunID r = runID ->
         V2.Status r <> "passed" -> passes runID (V2.CaseID r) results = []) ->
      V2.validateRunCases runID caseIDs results = true).
Proof.
  split; [apply validateRunCases_false|]. split.
  - intros Hall.
    destruct (V2.validateRunCases runID caseIDs results) eqn:Hv; [reflexivity|].
    apply validateRunCases_false in Hv as (f & Hin & Hrun & Hnp & _).
    exfalso. apply Hnp. now apply Hall.
  - intros Hnone.
    destruct (V2.validateRunCases runID caseIDs results) eqn:Hv; [reflexivity|].
    apply validateRunCases_false in Hv as (f & Hin & Hrun & Hnp & (p & Hp & _) & _).
    rewrite (Hnone f Hin Hrun Hnp) in Hp. now apply elem_of_nil in Hp.
Qed.

End ValidationExtras.

(** ** The further properties of the Validation Engine on examples *)

Module ValidationExtrasExamples.
Import GoString Match MatchSpec ValidationExtras Scenarios.

Lemma first_variant_cross_check_witness :
  V1.validateRunCases map_to_list 200 [] [V1.mkResult 200 7 "failed"] = true
  /\ V1.validateRunCases map_to_list 200 [7; 8] [V1.mkResult 200 7 "passed"] = false.
Proof.
  split.
  - apply (first_variant_cross_check map_to_list 200 [] [V1.mkResult 200 7 "failed"]).
    intros m. reflexivity.
  - destruct (first_variant_cross_check map_to_list 200 [7; 8]
                [V1.mkResult 200 7 "passed"]) as (_ & _ & Hmissing).
    + intros m. reflexivity.
    + apply (Hmissing 8); [|reflexivity].
      apply list_elem_of_In. simpl. tauto.
Defined.

Lemma second_variant_late_failure_witness :
  V2.validateRunCases 200 [7] [V2.mkResult 200 7 "failed" T2] = true
  /\ V2.validateRunCases 200 [7] [V2.mkResult 100 7 "failed" T2] = true.
Proof.
  split.
  - apply (second_variant_late_failure 200 [7] [V2.mkResult 200 7 "failed" T2]).
    intros r Hr _ _. apply list_elem_of_singleton in Hr. now subst r.
  - apply (second_variant_late_failure 200 [7] [V2.mkResult 100 7 "failed" T2]).
    intros r Hr Hrun. apply list_elem_of_singleton in Hr. now subst r.
Defined.

End ValidationExtrasExamples.

(** ** Facts about the completion call *)

Module CompletionFacts.
Import GoString Http Complete CompleteFacts.

Lemma classify_return_ok (resp : option Response) (err : error)
    (r : option Response) :
  classify resp err = Return r None ->
  exists x, resp = Some x /\ err = None /\ r = Some x
            /\ 200 <= StatusCode x < 300.
Proof.
  unfold classify. destruct err as [msg|]; [discriminate|].
  destruct resp as [x|]; [|discriminate].
  destruct ((200 <=? StatusCode x) && (StatusCode x <? 300)) eqn:H2xx.
  - intros [= <-]. exists x. apply andb_true_iff in H2xx as [Hlo Hhi].
    apply Z.leb_le in Hlo. apply Z.ltb_lt in Hhi. repeat split; assumption.
  - destruct (negb (isRetryableError None (StatusCode x))); discriminate.
Qed.

Lemma classify_success (x : Response) :
  200 <= StatusCode x < 300 -> classify (Some x) None = Return (Some x) None.
Proof.
  intros [Hlo Hhi]. unfold classify.
  apply Z.leb_le in Hlo. apply Z.ltb_lt in Hhi. now rewrite Hlo, Hhi.
Qed.

Section RetryLoop.
Variable Do : Z -> DoResult.
Variable config : RetryConfig.

(** A call that ends without error ends on a 2xx response, after
    attempts that were all retried. *)
Lemma retryLoop_no_error fuel attempt resp lastErr res :
  (retryLoop Do config fuel attempt resp lastErr).1 = (res, None) ->
  exists k x,
    attempt <= k < attempt + Z.of_nat fuel
    /\ Do k = (Some x, None) /\ 200 <= StatusCode x < 300 /\ res = Some x
    /\ (forall j, attempt <= j < k ->
          exists closed, classify (Do j).1 (Do j).2 = Retry closed)
    /\ attempts (retryLoop Do config fuel attempt resp lastErr).2
       = k - attempt + 1.
Proof.
  revert attempt resp lastErr.
  induction fuel as [|fuel IH]; intros attempt resp lastErr; [discriminate|].
  cbn [retryLoop]. destruct (Do attempt) as [resp' err'] eqn:HDo.
  destruct (classify resp' err') as [r e|closed] eqn:Hcl.
  - cbn [fst snd]. intros [= -> ->].
    apply classify_return_ok in Hcl as (x & -> & -> & -> & Hcode).
    exists attempt, x. split; [lia|]. split; [assumption|].
    split; [assumption|]. split; [reflexivity|]. split; [intros j Hj; lia|].
    unfold attempts. simpl. lia.
  - specialize (IH (attempt + 1) resp' err').
    destruct (retryLoop Do config fuel (attempt + 1) resp' err') as [out trace].
    cbn [fst snd] in *. intros Hout.
    destruct (IH Hout) as (k & x & Hk & HDok & Hcode & Hres & Hbefore & Hn).
    exists k, x. split; [lia|]. split; [assumption|]. split; [assumption|].
    split; [assumption|]. split.
    + intros j Hj. destruct (decide (j = attempt)) as [->|Hne].
      * exists closed. now rewrite HDo.
      * apply Hbefore. lia.
    + rewrite attempts_retry_trace, Hn. lia.
Qed.

(** The first attempt that is not retried decides the call. *)
Lemma retryLoop_first_return fuel attempt resp lastErr k r e :
  attempt <= k < attempt + Z.of_nat fuel ->
  (forall j, attempt <= j < k ->
     exists closed, classify (Do j).1 (Do j).2 = Retry closed) ->
  classify (Do k).1 (Do k).2 = Return r e ->
  (retryLoop Do config fuel attempt resp lastErr).1 = (r, e).
Proof.
  revert attempt resp lastErr.
  induction fuel as [|fuel IH]; intros attempt resp lastErr Hk Hbefore Hret; [lia|].
  cbn [retryLoop]. destruct (Do attempt) as [resp' err'] eqn:HDo.
  destruct (decide (k = attempt)) as [->|Hne].
  - rewrite HDo in Hret. cbn [fst snd] in Hret. now rewrite Hret.
  - destruct (Hbefore attempt ltac:(lia)) as [closed Hcl].
    rewrite HDo in Hcl. cbn [fst snd] in Hcl. rewrite Hcl.
    specialize (IH (attempt + 1) resp' err' ltac:(lia)).
    destruct (retryLoop Do config fuel (attempt + 1) resp' err') as [out trace].
    cbn [fst snd] in *. apply IH; [|assumption].
    intros j Hj. apply Hbefore. lia.
Qed.
End RetryLoop.

Section Call.
Variable NewRequest : string -> string -> bool.
Variable unmarshal : string -> option APIResponse.
Variable Do : string -> Z -> DoResult.
Variables apiToken projectCode : string.

(** What the answer [true] of [completeRun] tells. *)
Lemma completeRun_true (runID : Z) :
  (completeRun NewRequest unmarshal Do apiToken projectCode runID).1 = true ->
  NewRequest "POST" (completionURL projectCode runID) = true
  /\ exists k x body apiResp,
       0 <= k <= 2 /\ Do (completionURL projectCode runID) k = (Some x, None)
       /\ 200 <= StatusCode x < 300
       /\ Body x = Some body /\ unmarshal body = Some apiResp
       /\ Status apiResp = true
       /\ attempts (completeRun NewRequest unmarshal Do apiToken projectCode
                      runID).2 = k + 1.
Proof.
  unfold completeRun. set (url := completionURL projectCode runID).
  destruct (NewRequest "POST" url); cbn [negb]; [|discriminate].
  unfold retryableHTTPRequest.
  pose proof (retryLoop_no_error (Do url) completionRetryConfig
                (Z.to_nat (MaxRetries completionRetryConfig + 1)) 0 None None)
    as Hok.
  destruct (retryLoop (Do url) completionRetryConfig _ 0 None None)
    as [[res err] trace].
  cbn [fst snd] in *. destruct err as [msg|]; [discriminate|].
  destruct (Hok res eq_refl) as (k & x & Hk & HDo & Hcode & -> & _ & Hn).
  destruct (Body x) as [body|] eqn:Hbody; [|discriminate].
  destruct (unmarshal body) as [apiResp|] eqn:Hparse; [|discriminate].
  cbn [fst snd]. intros Hst. split; [reflexivity|].
  exists k, x, body, apiResp. cbn in Hk. repeat split; try assumption; lia.
Qed.

(** The answer of [completeRun] when an attempt is answered by a 2xx
    response after retryable failures. *)
Lemma completeRun_answered (runID k : Z) (x : Response) :
  NewRequest "POST" (completionURL projectCode runID) = true ->
  0 <= k <= 2 ->
  (forall j, 0 <= j < k ->
     failure (Do (completionURL projectCode runID) j)
     /\ retryable (Do (completionURL projectCode runID) j)) ->
  Do (completionURL projectCode runID) k = (Some x, None) ->
  200 <= StatusCode x < 300 ->
  (completeRun NewRequest unmarshal Do apiToken projectCode runID).1
  = match Body x with
    | Some body =>
        match unmarshal body with
        | Some apiResp => Status apiResp
        | None => false
        end
    | None => false
    end.
Proof.
  intros Hreq Hk Hbefore HDo Hcode.
  unfold completeRun. set (url := completionURL projectCode runID) in *.
  rewrite Hreq. cbn [negb]. unfold retryableHTTPRequest.
  pose proof (retryLoop_first_return (Do url) completionRetryConfig
                (Z.to_nat (MaxRetries completionRetryConfig + 1)) 0 None None
                k (Some x) None) as Hret.
  destruct (retryLoop (Do url) completionRetryConfig _ 0 None None)
    as [[res err] trace].
  cbn [fst snd] in *.
  assert (Hout : (res, err) = (Some x, None)).
  { apply Hret.
    - cbn. lia.
    - intros j Hj. destruct (Hbefore j Hj) as [Hf Hr].
      now apply classify_retry_iff.
    - rewrite HDo. now apply classify_success. }
  injection Hout as -> ->.
  destruct (Body x) as [body|]; [|reflexivity].
  now destruct (unmarshal body).
Qed.
End Call.

End CompletionFacts.

(** ** Further properties of the completion stage *)

Module CompletionExtras.
Import GoString GoText Files Http Complete CompleteFacts FilesFacts.
Import CompletionFacts MatchStageFacts CompleteStageFacts.

Section Call.
Variable NewRequest : string -> string -> bool.
Variable unmarshal : string -> option APIResponse.
Variable Do : string -> Z -> DoResult.
Variables apiToken projectCode : string.

(** X17.  [completeRun] answers [true] only when the request could be
    built and one of the three attempts that its configuration allows was
    answered, without transport error, by a 2xx response whose body could
    be read and parses to an answer with the status [true]; that attempt
    is the last one sent.  Conversely, when the attempts before an
    attempt [k <= 2] are retryable failures and attempt [k] is answered
    by a 2xx response with a body that parses, the answer of [completeRun]
    is the status of that body. *)
Theorem completion_answer (runID : Z) :
  let url := completionURL projectCode runID in
  let call := completeRun NewRequest unmarshal Do apiToken projectCode runID in
  (call.1 = true ->
   NewRequest "POST" url = true
   /\ exists k x body apiResp,
        0 <= k <= 2 /\ Do url k = (Some x, None) /\ 200 <= StatusCode x < 300
        /\ Body x = Some body /\ unmarshal body = Some apiResp
        /\ Status apiResp = true /\ attempts call.2 = k + 1)
  /\ (forall k x body apiResp,
        NewRequest "POST" url = true -> 0 <= k <= 2 ->
        (forall j, 0 <= j < k -> failure (Do url j) /\ retryable (Do url j)) ->
        Do url k = (Some x, None) -> 200 <= StatusCode x < 300 ->
        Body x = Some body -> unmarshal body = Some apiResp ->
        call.1 = Status apiResp).
Proof.
  intros url call. subst url call. split; [apply completeRun_true|].
  intros k x body apiResp Hreq Hk Hbefore HDo Hcode Hbody Hparse.
  rewrite (completeRun_answered _ _ _ _ _ runID k x) by assumption.
  now rewrite Hbody, Hparse.
Qed.
End Call.

Section Stage.
Variable NewRequest : string -> string -> bool.
Variable unmarshal : string -> option APIResponse.
Variable net : nat -> string -> Z -> DoResult.
Variables apiToken projectCode : string.

(** X18.  With the environment set, [CompleteRuns] makes one completion
    call per run ID read from [final.txt], in the order of the file.  It
    makes no call when an environment variable is empty or when
    [final.txt] is missing, and then changes nothing.  It never changes
    a file other than [errors.txt]. *)
Theorem completion_stage_calls (fs : FS) :
  let out := CompleteRuns NewRequest unmarshal net apiToken projectCode fs in
  (apiToken <> "" -> projectCode <> "" -> out.1.*1 = readRunIDs fs "final.txt")
  /\ (apiToken = "" \/ projectCode = "" -> out = ([], fs))
  /\ (files fs !! "final.txt" = None -> out = ([], fs))
  /\ (forall f, f <> "errors.txt" -> files out.2 !! f = files fs !! f).
Proof.
  intros out. subst out. split; [now apply CompleteRuns_calls|]. split; [|split].
  - intros Hunset. unfold CompleteRuns. now rewrite (env_unset _ _ Hunset).
  - intros Hmissing. unfold CompleteRuns, readRunIDs. rewrite Hmissing.
    now destruct (eqb apiToken "" || eqb projectCode "").
  - intros f Hne. now apply CompleteRuns_other.
Qed.
End Stage.

End CompletionExtras.

(** ** The further properties of the completion stage on examples *)

Module CompletionExtrasExamples.
Import GoString GoText Files Http Complete.
Import CompletionExtras Scenarios ExtraScenarios.

(** A service that answers 503 and then completes the run, for every
    URL. *)
Lemma completion_answer_witness :
  (completeRun requestOK parse (fun _ => recovers) "token" "DEMO" 8).1 = true.
Proof.
  destruct (completion_answer requestOK parse (fun _ => recovers) "token" "DEMO" 8)
    as [_ Hanswer].
  apply (Hanswer 1 (mkResponse 200 (Some "done")) "done" (mkAPIResponse true "")).
  - reflexivity.
  - lia.
  - intros j Hj. assert (j = 0) as -> by lia. split.
    + right. exists (mkResponse 503 (Some "")). split; [reflexivity|]. simpl. lia.
    + right. exists (mkResponse 503 (Some "")). split; [reflexivity|].
      unfold retryableStatus. apply list_elem_of_In. simpl. tauto.
  - reflexivity.
  - simpl. lia.
  - reflexivity.
  - reflexivity.
Defined.

Lemma completion_stage_calls_witness :
  (CompleteRuns requestOK parse service "token" "DEMO" filesBefore).1.*1 = [7; 8]
  /\ CompleteRuns requestOK parse service "token" "DEMO" (mkFS ∅ ∅) = ([], mkFS ∅ ∅).
Proof.
  split.
  - destruct (completion_stage_calls requestOK parse service "token" "DEMO"
                filesBefore) as (Hcalls & _).
    rewrite Hcalls; [reflexivity|discriminate|discriminate].
  - destruct (completion_stage_calls requestOK parse service "token" "DEMO"
                (mkFS ∅ ∅)) as (_ & _ & Hmissing & _).
    apply Hmissing. reflexivity.
Defined.

End CompletionExtrasExamples.

(** ** Facts about the fetch of the runs in progress *)

Module FetchFacts.
Import GoString GoText Files Http Complete CompleteFacts CompletionFacts.
Import CompleteAll.

Lemma keepInProgress_fold (entities : list Run.t) (all : list Z) :
  fold_left keepInProgress entities all = all ++ inProgress entities.
Proof.
  revert all. induction entities as [|run entities IH]; intros all.
  - simpl. now rewrite app_nil_r.
  - cbn [fold_left]. rewrite IH. unfold keepInProgress, inProgress.
    destruct (Z.eqb_spec (Run.Status run) 0) as [H0|H0].
    + rewrite (filter_cons_True (fun r => Run.Status r = 0) run entities H0).
      rewrite fmap_cons. now rewrite <- app_assoc.
    + now rewrite (filter_cons_False (fun r => Run.Status r = 0) run entities H0).
Qed.

Lemma addInt_small (a b : Z) :
  - 2 ^ 63 <= a + b < 2 ^ 63 -> addInt a b = a + b.
Proof.
  intros H. unfold addInt.
  assert (H64 : 2 ^ 64 = 2 * 2 ^ 63) by reflexivity.
  rewrite Z.mod_small by lia. lia.
Qed.

(** An executor whose first attempt is answered by a 2xx response
    returns that response. *)
Lemma request_first_success (Do : Z -> DoResult) (config : RetryConfig)
    (x : Response) :
  0 <= MaxRetries config ->
  Do 0 = (Some x, None) -> 200 <= StatusCode x < 300 ->
  (retryableHTTPRequest Do config).1 = (Some x, None).
Proof.
  intros Hmax HDo Hcode. unfold retryableHTTPRequest.
  apply (retryLoop_first_return Do config _ 0 None None 0).
  - lia.
  - intros j Hj. lia.
  - rewrite HDo. now apply classify_success.
Qed.

(** An executor all of whose attempts are retryable failures returns an
    error. *)
Lemma request_all_failed (Do : Z -> DoResult) (config : RetryConfig) :
  (forall k, 0 <= k <= MaxRetries config -> failure (Do k) /\ retryable (Do k)) ->
  exists resp msg, (retryableHTTPRequest Do config).1 = (resp, Some msg).
Proof.
  intros Hall. unfold retryableHTTPRequest.
  destruct (retryLoop_exhausted Do config (Z.to_nat (MaxRetries config + 1))
              0 None None) as [Hout _].
  { intros k Hk. destruct (Hall k ltac:(lia)) as [Hf Hr].
    now apply classify_retry_iff. }
  rewrite Hout. eauto.
Qed.

(** An executor that returns no error returns a 2xx response that one of
    its attempts received. *)
Lemma request_no_error (Do : Z -> DoResult) (config : RetryConfig)
    (res : option Response) :
  (retryableHTTPRequest Do config).1 = (res, None) ->
  exists k x, 0 <= k <= MaxRetries config /\ Do k = (Some x, None)
              /\ 200 <= StatusCode x < 300 /\ res = Some x.
Proof.
  unfold retryableHTTPRequest. intros Hout.
  apply retryLoop_no_error in Hout as (k & x & Hk & HDo & Hcode & Hres & _).
  exists k, x. repeat split; try assumption; lia.
Qed.

Section Fetch.
Variable NewRequest : string -> string -> bool.
Variable unmarshal : string -> option RunsAPIResponse.
Variable net : nat -> string -> Z -> DoResult.
Variable projectCode : string.

Lemma fetchStep_refused (st : FetchState) :
  NewRequest "GET" (runsURL projectCode (offset st)) = false ->
  fetchStep NewRequest unmarshal net projectCode st
  = if maxConsecutiveFailures <=? consecutiveFailures st + 1
    then Break (mkFetch (offset st) (consecutiveFailures st + 1)
                  (allInProgressRuns st) (requested st))
    else Continue (mkFetch (offset st) (consecutiveFailures st + 1)
                     (allInProgressRuns st) (requested st)).
Proof. intros Hreq. unfold fetchStep. now rewrite Hreq. Qed.

Lemma fetchStep_failed (st : FetchState) (resp : option Response) (msg : string) :
  NewRequest "GET" (runsURL projectCode (offset st)) = true ->
  answer net projectCode st = (resp, Some msg) ->
  fetchStep NewRequest unmarshal net projectCode st
  = if maxConsecutiveFailures <=? consecutiveFailures st + 1
    then Break (mkFetch (offset st) (consecutiveFailures st + 1)
                  (allInProgressRuns st) (requested st ++ [offset st]))
    else Continue (mkFetch (addInt (offset st) limit) (consecutiveFailures st + 1)
                     (allInProgressRuns st) (requested st ++ [offset st])).
Proof.
  intros Hreq Hans. unfold fetchStep, answer in *. rewrite Hreq. cbn [negb].
  destruct (retryableHTTPRequest _ defaultRetryConfig) as [[res err] trace].
  cbn [fst] in Hans. injection Hans as -> ->. reflexivity.
Qed.

Lemma fetchStep_page (st : FetchState) (x : Response) (entities : list Run.t) :
  NewRequest "GET" (runsURL projectCode (offset st)) = true ->
  answer net projectCode st = (Some x, None) ->
  pageOf unmarshal x entities ->
  fetchStep NewRequest unmarshal net projectCode st
  = if Z.of_nat (length entities) <? limit
    then Break (mkFetch (offset st) 0
                  (allInProgressRuns st ++ inProgress entities)
                  (requested st ++ [offset st]))
    else Continue (mkFetch (addInt (offset st) limit) 0
                     (allInProgressRuns st ++ inProgress entities)
                     (requested st ++ [offset st])).
Proof.
  intros Hreq Hans (body & apiResp & Hbody & Hparse & Hstatus & Hent).
  unfold fetchStep, answer in *. rewrite Hreq. cbn [negb].
  destruct (retryableHTTPRequest _ defaultRetryConfig) as [[res err] trace].
  cbn [fst] in Hans. injection Hans as -> ->.
  rewrite Hbody, Hparse, Hstatus, Hent. cbn [negb].
  now rewrite keepInProgress_fold.
Qed.

Lemma fetchStep_skipped (st : FetchState) (x : Response) :
  NewRequest "GET" (runsURL projectCode (offset st)) = true ->
  answer net projectCode st = (Some x, None) ->
  (forall entities, ~ pageOf unmarshal x entities) ->
  fetchStep NewRequest unmarshal net projectCode st
  = Continue (mkFetch (addInt (offset st) limit) 0 (allInProgressRuns st)
                (requested st ++ [offset st])).
Proof.
  intros Hreq Hans Hnone. unfold fetchStep, answer in *. rewrite Hreq. cbn [negb].
  destruct (retryableHTTPRequest _ defaultRetryConfig) as [[res err] trace].
  cbn [fst] in Hans. injection Hans as -> ->.
  destruct (Body x) as [body|] eqn:Hbody; [|reflexivity].
  destruct (unmarshal body) as [apiResp|] eqn:Hparse; [|reflexivity].
  destruct (Status apiResp) eqn:Hstatus; [|reflexivity].
  exfalso. apply (Hnone (RunsResult.Entities (Result apiResp))).
  now exists body, apiResp.
Qed.

(** What an iteration can do to the state. *)
Lemma fetchStep_next (st st' : FetchState) :
  fetchStep NewRequest unmarshal net projectCode st = Continue st'
  \/ fetchStep NewRequest unmarshal net projectCode st = Break st' ->
  (allInProgressRuns st' = allInProgressRuns st
   \/ exists x entities,
        answer net projectCode st = (Some x, None) /\ pageOf unmarshal x entities
        /\ allInProgressRuns st' = allInProgressRuns st ++ inProgress entities
        /\ requested st' = requested st ++ [offset st])
  /\ (requested st' = requested st \/ requested st' = requested st ++ [offset st]).
Proof.
  destruct (NewRequest "GET" (runsURL projectCode (offset st))) eqn:Hreq.
  - destruct (answer net projectCode st) as [res [msg|]] eqn:Hans.
    + rewrite (fetchStep_failed st res msg Hreq Hans).
      destruct (maxConsecutiveFailures <=? consecutiveFailures st + 1);
        intros [[= <-]|[= <-]]; cbn; split; auto.
    + destruct res as [x|].
      * destruct (Body x) as [body|] eqn:Hbody.
        -- destruct (unmarshal body) as [apiResp|] eqn:Hparse.
           ++ destruct (Status apiResp) eqn:Hstatus.
              ** assert (Hpage : pageOf unmarshal x
                                   (RunsResult.Entities (Result apiResp)))
                   by now exists body, apiResp.
                 rewrite (fetchStep_page st x _ Hreq Hans Hpage).
                 destruct (Z.of_nat (length (RunsResult.Entities (Result apiResp)))
                           <? limit);
                   intros [[= <-]|[= <-]]; cbn; (split; [right|auto]);
                   exists x, (RunsResult.Entities (Result apiResp)); auto.
              ** rewrite (fetchStep_skipped st x Hreq Hans).
                 { intros [[= <-]|[=]]. cbn. split; auto. }
                 intros entities (body' & apiResp' & Hb & Hp & Hs & _).
                 congruence.
           ++ rewrite (fetchStep_skipped st x Hreq Hans).
              { intros [[= <-]|[=]]. cbn. split; auto. }
              intros entities (body' & apiResp' & Hb & Hp & _). congruence.
        -- rewrite (fetchStep_skipped st x Hreq Hans).
           { intros [[= <-]|[=]]. cbn. split; auto. }
           intros entities (body' & apiResp' & Hb & _). congruence.
      * unfold fetchStep, answer in *. rewrite Hreq. cbn [negb].
        destruct (retryableHTTPRequest _ defaultRetryConfig) as [[res err] trace].
        cbn [fst] in Hans. injection Hans as -> ->. intros [[=]|[=]].
  - rewrite (fetchStep_refused st Hreq).
    destruct (maxConsecutiveFailures <=? consecutiveFailures st + 1);
      intros [[= <-]|[= <-]]; cbn; split; auto.
Qed.

(** The executor never hands back a [nil] response with a [nil] error,
    so that the loop does not meet the [nil] response. *)
Lemma fetchStep_no_nil (st : FetchState) :
  fetchStep NewRequest unmarshal net projectCode st <> NilResponse.
Proof.
  unfold fetchStep.
  destruct (NewRequest "GET" (runsURL projectCode (offset st))); cbn [negb].
  - pose proof (request_no_error
                  (net (length (requested st)) (runsURL projectCode (offset st)))
                  defaultRetryConfig) as Hok.
    destruct (retryableHTTPRequest _ defaultRetryConfig) as [[res err] trace].
    cbn [fst] in Hok. destruct err as [msg|].
    + now destruct (maxConsecutiveFailures <=? consecutiveFailures st + 1).
    + destruct (Hok res eq_refl) as (k & x & _ & _ & _ & ->).
      destruct (Body x) as [body|]; [|discriminate].
      destruct (unmarshal body) as [apiResp|]; [|discriminate].
      destruct (negb (Status apiResp)); [discriminate|].
      now destruct (Z.of_nat (length (RunsResult.Entities (Result apiResp)))
                    <? limit).
  - now destruct (maxConsecutiveFailures <=? consecutiveFailures st + 1).
Qed.

Lemma fetchLoop_no_panic (fuel : nat) (st : FetchState) :
  fetchLoop NewRequest unmarshal net projectCode fuel st <> Panics.
Proof.
  revert st. induction fuel as [|fuel IH]; intros st; [discriminate|].
  cbn [fetchLoop]. pose proof (fetchStep_no_nil st) as Hnil.
  destruct (fetchStep NewRequest unmarshal net projectCode st) as [st'|st'|];
    [apply IH|discriminate|congruence].
Qed.

Lemma fetchLoop_continue (fuel : nat) (st st' : FetchState) :
  fetchStep NewRequest unmarshal net projectCode st = Continue st' ->
  fetchLoop NewRequest unmarshal net projectCode (S fuel) st
  = fetchLoop NewRequest unmarshal net projectCode fuel st'.
Proof. intros Hstep. cbn [fetchLoop]. now rewrite Hstep. Qed.

Lemma fetchLoop_break (fuel : nat) (st st' : FetchState) :
  fetchStep NewRequest unmarshal net projectCode st = Break st' ->
  fetchLoop NewRequest unmarshal net projectCode (S fuel) st = Returns st'.
Proof. intros Hstep. cbn [fetchLoop]. now rewrite Hstep. Qed.

(** Once the loop has returned, more iterations change nothing. *)
Lemma fetchLoop_more (fuel fuel' : nat) (st out : FetchState) :
  fetchLoop NewRequest unmarshal net projectCode fuel st = Returns out ->
  (fuel <= fuel')%nat ->
  fetchLoop NewRequest unmarshal net projectCode fuel' st = Returns out.
Proof.
  revert fuel' st. induction fuel as [|fuel IH]; intros fuel' st; [discriminate|].
  destruct fuel' as [|fuel']; [lia|]. cbn [fetchLoop].
  destruct (fetchStep NewRequest unmarshal net projectCode st) as [st'|st'|];
    [|auto|discriminate].
  intros Hout Hle. apply IH; [assumption|lia].
Qed.
Lemma listed_more (offsets offsets' : list Z) (id : Z) :
  (forall off, off ∈ offsets -> off ∈ offsets') ->
  listedInProgress unmarshal net projectCode offsets id ->
  listedInProgress unmarshal net projectCode offsets' id.
Proof.
  intros Hsub (i & off & k & x & entities & run & Hoff & H).
  exists i, off, k, x, entities, run. split; [now apply Hsub|exact H].
Qed.

Lemma fetchLoop_listed (fuel : nat) (st out : FetchState) :
  (forall id, id ∈ allInProgressRuns st ->
     listedInProgress unmarshal net projectCode (requested st) id) ->
  fetchLoop NewRequest unmarshal net projectCode fuel st = Returns out ->
  forall id, id ∈ allInProgressRuns out ->
    listedInProgress unmarshal net projectCode (requested out) id.
Proof.
  revert st. induction fuel as [|fuel IH]; intros st Hinv; [discriminate|].
  cbn [fetchLoop].
  assert (Hstep : forall st',
    fetchStep NewRequest unmarshal net projectCode st = Continue st'
    \/ fetchStep NewRequest unmarshal net projectCode st = Break st' ->
    forall id, id ∈ allInProgressRuns st' ->
      listedInProgress unmarshal net projectCode (requested st') id).
  { intros st' Hst'.
    destruct (fetchStep_next st st' Hst')
      as [Hall Hreq].
    assert (Hsub : forall off, off ∈ requested st -> off ∈ requested st').
    { intros off Hoff. destruct Hreq as [->| ->]; [assumption|].
      apply elem_of_app. now left. }
    intros id Hid.
    destruct Hall as [Hsame|(x & entities & Hans & Hpage & Hadd & Hasked)].
    - rewrite Hsame in Hid. apply (listed_more (requested st)); auto.
    - rewrite Hadd in Hid. apply elem_of_app in Hid as [Hid|Hid].
      + apply (listed_more (requested st)); auto.
      + unfold inProgress in Hid. apply list_elem_of_fmap in Hid as (run & -> & Hrun).
        apply list_elem_of_filter in Hrun as [Hstatus Hrun].
        unfold answer in Hans.
        apply request_no_error in Hans as (k & y & Hk & HDo & Hcode & [= <-]).
        exists (length (requested st)), (offset st), k, x, entities, run.
        split; [rewrite Hasked; apply elem_of_app; right; left|].
        repeat split; try assumption; lia. }
  destruct (fetchStep NewRequest unmarshal net projectCode st) as [st'|st'|];
    [|intros [= <-]; apply Hstep; now right|discriminate].
  apply IH. apply Hstep. now left.
Qed.

End Fetch.

End FetchFacts.

(** ** Properties of the fetch of the runs in progress *)

Module FetchExtras.
Import GoString GoText Files Http Complete CompleteFacts CompletionFacts.
Import CompleteAll FetchFacts.

Section Fetch.
Variable NewRequest : string -> string -> bool.
Variable unmarshal : string -> option RunsAPIResponse.
Variable net : nat -> string -> Z -> DoResult.
Variables apiToken projectCode : string.

(** X19.  [fetchAllInProgressRuns] does not meet the [nil] response that
    it would dereference, and every run ID that it returns was listed by
    the service, with the status 0, in a page carried by a 2xx response
    to one of its requests; a page whose body cannot be read or parsed,
    or whose answer has the status [false], contributes no run. *)
Theorem fetched_runs_in_progress (fuel : nat) :
  fetchAllInProgressRuns NewRequest unmarshal net apiToken projectCode fuel
  <> Panics
  /\ forall st id,
       fetchAllInProgressRuns NewRequest unmarshal net apiToken projectCode fuel
       = Returns st ->
       id ∈ allInProgressRuns st ->
       listedInProgress unmarshal net projectCode (requested st) id.
Proof.
  split; [apply fetchLoop_no_panic|].
  intros st id Hout. revert id.
  apply (fetchLoop_listed NewRequest unmarshal net projectCode fuel
           (mkFetch 0 0 [] []) st); [|exact Hout].
  intros id Hid. now apply elem_of_nil in Hid.
Qed.

Lemma fetchLoop_pages (pages : nat -> list Run.t) (n m : nat) :
  (forall j, (j <= n)%nat ->
     NewRequest "GET" (runsURL projectCode (limit * Z.of_nat j)) = true) ->
  (forall j, (j <= n)%nat ->
     exists x, net j (runsURL projectCode (limit * Z.of_nat j)) 0 = (Some x, None)
               /\ 200 <= StatusCode x < 300 /\ pageOf unmarshal x (pages j)) ->
  (forall j, (j < n)%nat -> limit <= Z.of_nat (length (pages j))) ->
  Z.of_nat (length (pages n)) < limit ->
  limit * Z.of_nat n < 2 ^ 63 ->
  forall (j fuel : nat) (failures : Z) (all req : list Z),
    length req = j -> (j + m)%nat = n -> (m < fuel)%nat ->
    fetchLoop NewRequest unmarshal net projectCode fuel
      (mkFetch (limit * Z.of_nat j) failures all req)
    = Returns
        (mkFetch (limit * Z.of_nat n) 0
           (all ++ concat ((fun i => inProgress (pages i)) <$> seq j (S m)))
           (req ++ ((fun i => limit * Z.of_nat i) <$> seq j (S m)))).
Proof.
  intros Hreq Hnet Hfull Hshort Hbound.
  induction m as [|m IH]; intros j fuel failures all req Hlen Hj Hfuel.
  - destruct fuel as [|fuel]; [lia|]. cbn [fetchLoop].
    assert (j = n) as -> by lia.
    destruct (Hnet n ltac:(lia)) as (x & HDo & Hcode & Hpage).
    rewrite (fetchStep_page NewRequest unmarshal net projectCode _ x (pages n)).
    + cbn [offset allInProgressRuns requested].
      destruct (Z.ltb_spec (Z.of_nat (length (pages n))) limit); [|lia].
      cbn. now rewrite app_nil_r.
    + apply Hreq. lia.
    + unfold answer. cbn [offset requested]. rewrite Hlen.
      apply request_first_success; [cbn; lia|assumption..].
    + assumption.
  - destruct fuel as [|fuel]; [lia|]. cbn [fetchLoop].
    destruct (Hnet j ltac:(lia)) as (x & HDo & Hcode & Hpage).
    rewrite (fetchStep_page NewRequest unmarshal net projectCode _ x (pages j)).
    + cbn [offset allInProgressRuns requested].
      destruct (Z.ltb_spec (Z.of_nat (length (pages j))) limit) as [Hlt|_].
      { specialize (Hfull j ltac:(lia)). lia. }
      assert (Hnext : addInt (limit * Z.of_nat j) limit = limit * Z.of_nat (S j)).
      { rewrite addInt_small; unfold limit in *; lia. }
      rewrite Hnext.
      rewrite (IH (S j) fuel 0 (all ++ inProgress (pages j))
                 (req ++ [limit * Z.of_nat j])).
      * f_equal. f_equal.
        -- rewrite <- app_assoc. reflexivity.
        -- rewrite <- app_assoc. reflexivity.
      * rewrite length_app. simpl. lia.
      * lia.
      * lia.
    + apply Hreq. lia.
    + unfold answer. cbn [offset requested]. rewrite Hlen.
      apply request_first_success; [cbn; lia|assumption..].
    + assumption.
Qed.

(** X20.  On a service that answers the first attempt of every request
    with a page, the pages before page [n] holding [limit] entities or
    more and page [n] fewer, [fetchAllInProgressRuns] returns after
    [n + 1] iterations: it has asked the offsets 0, 100, ..., 100 n, one
    request each, and returns the IDs of the entities whose status is 0,
    page after page, in the order of the pages. *)
Theorem fetch_reads_all_pages (pages : nat -> list Run.t) (n fuel : nat) :
  (forall j, (j <= n)%nat ->
     NewRequest "GET" (runsURL projectCode (limit * Z.of_nat j)) = true) ->
  (forall j, (j <= n)%nat ->
     exists x, net j (runsURL projectCode (limit * Z.of_nat j)) 0 = (Some x, None)
               /\ 200 <= StatusCode x < 300 /\ pageOf unmarshal x (pages j)) ->
  (forall j, (j < n)%nat -> limit <= Z.of_nat (length (pages j))) ->
  Z.of_nat (length (pages n)) < limit ->
  limit * Z.of_nat n < 2 ^ 63 ->
  (n < fuel)%nat ->
  exists st,
    fetchAllInProgressRuns NewRequest unmarshal net apiToken projectCode fuel
    = Returns st
    /\ allInProgressRuns st
       = concat ((fun i => inProgress (pages i)) <$> seq 0 (S n))
    /\ requested st = (fun i => limit * Z.of_nat i) <$> seq 0 (S n).
Proof.
  intros Hreq Hnet Hfull Hshort Hbound Hfuel.
  eexists. split.
  - unfold fetchAllInProgressRuns.
    apply (fetchLoop_pages pages n n Hreq Hnet Hfull Hshort Hbound O fuel 0 [] []);
      [reflexivity|lia|assumption].
  - split; reflexivity.
Qed.

Lemma fetchLoop_running (fuel : nat) (st : FetchState) :
  (forall url, NewRequest "GET" url = true) ->
  (forall i url,
     exists x, net i url 0 = (Some x, None) /\ 200 <= StatusCode x < 300
               /\ forall entities, pageOf unmarshal x entities ->
                    limit <= Z.of_nat (length entities)) ->
  fetchLoop NewRequest unmarshal net projectCode fuel st = Running.
Proof.
  intros Hreq Hnet. revert st. induction fuel as [|fuel IH]; intros st; [reflexivity|].
  cbn [fetchLoop].
  destruct (Hnet (length (requested st)) (runsURL projectCode (offset st)))
    as (x & HDo & Hcode & Hbig).
  assert (Hans : answer net projectCode st = (Some x, None)).
  { unfold answer. apply request_first_success; [cbn; lia|assumption..]. }
  destruct (Body x) as [body|] eqn:Hbody.
  - destruct (unmarshal body) as [apiResp|] eqn:Hparse.
    + destruct (Status apiResp) eqn:Hstatus.
      * assert (Hpage : pageOf unmarshal x (RunsResult.Entities (Result apiResp)))
          by now exists body, apiResp.
        rewrite (fetchStep_page NewRequest unmarshal net projectCode st x _
                   (Hreq _) Hans Hpage).
        specialize (Hbig _ Hpage).
        destruct (Z.ltb_spec (Z.of_nat (length (RunsResult.Entities (Result apiResp))))
                    limit); [lia|apply IH].
      * rewrite (fetchStep_skipped NewRequest unmarshal net projectCode st x
                   (Hreq _) Hans); [apply IH|].
        intros entities (body' & apiResp' & Hb & Hp & Hs & _). congruence.
    + rewrite (fetchStep_skipped NewRequest unmarshal net projectCode st x
                 (Hreq _) Hans); [apply IH|].
      intros entities (body' & apiResp' & Hb & Hp & _). congruence.
  - rewrite (fetchStep_skipped NewRequest unmarshal net projectCode st x
               (Hreq _) Hans); [apply IH|].
    intros entities (body' & apiResp' & Hb & _). congruence.
Qed.

(** X21.  When every request is answered at its first attempt by a 2xx
    response that carries no page with fewer than [limit] entities (its
    body cannot be read, or does not parse, or parses to an answer with
    the status [false], or holds a full page), the loop of
    [fetchAllInProgressRuns] never ends: it is still running after any
    number of iterations. *)
Theorem fetch_never_returns (fuel : nat) :
  (forall url, NewRequest "GET" url = true) ->
  (forall i url,
     exists x, net i url 0 = (Some x, None) /\ 200 <= StatusCode x < 300
               /\ forall entities, pageOf unmarshal x entities ->
                    limit <= Z.of_nat (length entities)) ->
  fetchAllInProgressRuns NewRequest unmarshal net apiToken projectCode fuel
  = Running.
Proof.
  intros Hreq Hnet. unfold fetchAllInProgressRuns. now apply fetchLoop_running.
Qed.

(** X22.  Three failures in a row end the fetch.  When the request for
    offset 0 cannot be built, the loop tries three times and returns no
    run without having asked the service.  When the requests for the
    offsets 0, 100 and 200 fail at every attempt, each failed batch is
    skipped, and after the third one the fetch returns no run. *)
Theorem fetch_gives_up (fuel : nat) :
  (3 <= fuel)%nat ->
  (NewRequest "GET" (runsURL projectCode 0) = false ->
   fetchAllInProgressRuns NewRequest unmarshal net apiToken projectCode fuel
   = Returns (mkFetch 0 3 [] []))
  /\ ((forall off, NewRequest "GET" (runsURL projectCode off) = true) ->
      (forall i off k, (i < 3)%nat -> 0 <= k <= 3 ->
         failure (net i (runsURL projectCode off) k)
         /\ retryable (net i (runsURL projectCode off) k)) ->
      fetchAllInProgressRuns NewRequest unmarshal net apiToken projectCode fuel
      = Returns (mkFetch 200 3 [] [0; 100; 200])).
Proof.
  intros Hfuel. split.
  - intros Hreq. unfold fetchAllInProgressRuns.
    apply (fetchLoop_more NewRequest unmarshal net projectCode 3); [|assumption].
    rewrite (fetchLoop_continue _ _ _ _ 2 (mkFetch 0 0 [] []) (mkFetch 0 1 [] []))
      by (rewrite fetchStep_refused by exact Hreq; reflexivity).
    rewrite (fetchLoop_continue _ _ _ _ 1 (mkFetch 0 1 [] []) (mkFetch 0 2 [] []))
      by (rewrite fetchStep_refused by exact Hreq; reflexivity).
    apply fetchLoop_break. rewrite fetchStep_refused by exact Hreq. reflexivity.
  - intros Hreq Hfail. unfold fetchAllInProgressRuns.
    apply (fetchLoop_more NewRequest unmarshal net projectCode 3); [|assumption].
    assert (Hans : forall st, (length (requested st) < 3)%nat ->
              exists resp msg, answer net projectCode st = (resp, Some msg)).
    { intros st Hlen. unfold answer. apply request_all_failed.
      intros k Hk. apply Hfail; [assumption|cbn in Hk; lia]. }
    destruct (Hans (mkFetch 0 0 [] [])) as (r0 & m0 & H0); [cbn; lia|].
    destruct (Hans (mkFetch 100 1 [] [0])) as (r1 & m1 & H1); [cbn; lia|].
    destruct (Hans (mkFetch 200 2 [] [0; 100])) as (r2 & m2 & H2); [cbn; lia|].
    rewrite (fetchLoop_continue _ _ _ _ 2 (mkFetch 0 0 [] []) (mkFetch 100 1 [] [0]))
      by (rewrite (fetchStep_failed _ _ _ _ _ r0 m0 (Hreq _) H0); reflexivity).
    rewrite (fetchLoop_continue _ _ _ _ 1 (mkFetch 100 1 [] [0])
               (mkFetch 200 2 [] [0; 100]))
      by (rewrite (fetchStep_failed _ _ _ _ _ r1 m1 (Hreq _) H1); reflexivity).
    apply fetchLoop_break.
    rewrite (fetchStep_failed _ _ _ _ _ r2 m2 (Hreq _) H2). reflexivity.
Qed.
End Fetch.

End FetchExtras.

(** ** The fetch of the runs in progress on example services *)

Module FetchExamples.
Import GoString GoText Files Http Complete.
Import CompleteAll FetchExtras Scenarios ExtraScenarios.

Lemma fetched_runs_in_progress_witness :
  listedInProgress parseRuns runsService "DEMO" [0; 100] 13.
Proof.
  destruct (fetched_runs_in_progress requestOK parseRuns runsService
              "token" "DEMO" 2) as [_ Hlisted].
  apply (Hlisted (mkFetch 100 0 [11; 13] [0; 100]) 13).
  - vm_compute. reflexivity.
  - apply list_elem_of_In. simpl. tauto.
Defined.

Lemma fetch_reads_all_pages_witness :
  exists st,
    fetchAllInProgressRuns requestOK parseRuns runsService "token" "DEMO" 2
    = Returns st
    /\ allInProgressRuns st = [11; 13] /\ requested st = [0; 100].
Proof.
  apply (fetch_reads_all_pages requestOK parseRuns runsService "token" "DEMO"
           (fun j => match j with O => fullPage | _ => lastPage end) 1 2).
  - intros j Hj. reflexivity.
  - intros [|j] Hj.
    + exists (mkResponse 200 (Some "full")). split; [reflexivity|].
      split; [simpl; lia|].
      exists "full", (mkRunsAPIResponse true (RunsResult.mk 103 103 100 fullPage)).
      repeat split.
    + exists (mkResponse 200 (Some "last")). split; [reflexivity|].
      split; [simpl; lia|].
      exists "last", (mkRunsAPIResponse true (RunsResult.mk 103 103 3 lastPage)).
      repeat split.
  - intros j Hj. assert (j = O) as -> by lia. vm_compute. discriminate.
  - reflexivity.
  - reflexivity.
  - lia.
Defined.

Lemma fetch_never_returns_witness :
  fetchAllInProgressRuns requestOK parseRuns htmlService "token" "DEMO" 5 = Running.
Proof.
  apply (fetch_never_returns requestOK parseRuns htmlService "token" "DEMO" 5).
  - intros url. reflexivity.
  - intros i url. exists (mkResponse 200 (Some "<html>")).
    split; [reflexivity|]. split; [simpl; lia|].
    intros entities (body & apiResp & Hbody & Hparse & _).
    injection Hbody as <-. discriminate.
Defined.

Lemma fetch_gives_up_witness :
  fetchAllInProgressRuns requestOK parseRuns downService "token" "DEMO" 3
  = Returns (mkFetch 200 3 [] [0; 100; 200]).
Proof.
  destruct (fetch_gives_up requestOK parseRuns downService "token" "DEMO" 3)
    as [_ Hdown]; [lia|].
  apply Hdown.
  - intros off. reflexivity.
  - intros i off k Hi Hk. split; left; discriminate.
Defined.

End FetchExamples.

(** ** Facts about the parallel completion *)

Module ParallelFacts.
Import GoString GoText Files Http Complete FilesFacts MatchFacts.
Import MatchStageFacts CompleteStageFacts CompleteAll FetchFacts.

Section Parallel.
Variable NewRequest : string -> string -> bool.
Variable unmarshal : string -> option APIResponse.
Variable net : nat -> string -> Z -> DoResult.
Variables apiToken projectCode : string.
Variable runIDs : list Z.

Lemma failedInOrder_cons (i : nat) (schedule : list nat) :
  failedInOrder NewRequest unmarshal net apiToken projectCode runIDs (i :: schedule)
  = match runIDs !! i with
    | Some id =>
        if (completeRun NewRequest unmarshal (net i) apiToken projectCode id).1
        then [] else [id]
    | None => []
    end
    ++ failedInOrder NewRequest unmarshal net apiToken projectCode runIDs schedule.
Proof.
  unfold failedInOrder. cbn [omap list_omap]. destruct (runIDs !! i) as [id|];
    [|reflexivity].
  now destruct (completeRun NewRequest unmarshal (net i) apiToken projectCode id).1.
Qed.

Lemma finish_cases (st : Summary * FS) (i : nat) :
  (runIDs !! i = None
   /\ finish NewRequest unmarshal net apiToken projectCode runIDs st i = st)
  \/ exists id success,
       runIDs !! i = Some id
       /\ (completeRun NewRequest unmarshal (net i) apiToken projectCode id).1
          = success
       /\ finish NewRequest unmarshal net apiToken projectCode runIDs st i
          = if success
            then (mkSummary (successCount st.1 + 1) (errorCount st.1), st.2)
            else (mkSummary (successCount st.1) (errorCount st.1 + 1),
                  logError st.2 id).
Proof.
  unfold finish. destruct (runIDs !! i) as [id|]; [right|now left].
  exists id, (completeRun NewRequest unmarshal (net i) apiToken projectCode id).1.
  repeat split.
Qed.

(** The goroutines, in the order in which they finish, count one success
    or one error each and log the errors. *)
Lemma parallel_fold (schedule : list nat) (st : Summary * FS) :
  let out :=
    fold_left (finish NewRequest unmarshal net apiToken projectCode runIDs)
      schedule st in
  let failed :=
    failedInOrder NewRequest unmarshal net apiToken projectCode runIDs schedule in
  successCount out.1 + errorCount out.1
  = successCount st.1 + errorCount st.1
    + Z.of_nat (length (Match.completionOrder runIDs schedule))
  /\ errorCount out.1 = errorCount st.1 + Z.of_nat (length failed)
  /\ denied out.2 = denied st.2
  /\ ("errors.txt" ∉ denied st.2 -> ledger out.2 = ledger st.2 +:+ entries failed)
  /\ (forall f, f <> "errors.txt" -> files out.2 !! f = files st.2 !! f).
Proof.
  revert st. induction schedule as [|i schedule IH]; intros st.
  - cbn. rewrite append_nil_r. repeat split; lia.
  - cbn [fold_left]. rewrite failedInOrder_cons.
    unfold Match.completionOrder in *. cbn [omap list_omap].
    destruct (finish_cases st i) as [[Hlk Hfin]|(id & success & Hlk & Hcall & Hfin)];
      rewrite Hfin, Hlk; cbn [mbind option_bind].
    + apply IH.
    + rewrite Hcall. cbn zeta in IH.
      destruct success;
        match goal with
        | |- context [fold_left _ schedule ?st1] =>
            destruct (IH st1) as (Hsum & Herr & Hden & Hledger & Hother)
        end;
        cbn [fst snd successCount errorCount] in *; cbn [app length].
      * repeat split; try assumption; lia.
      * rewrite denied_logError in Hden, Hledger.
        split; [lia|]. split; [lia|]. split; [assumption|]. split.
        -- intros Hw. rewrite (Hledger Hw), (ledger_logError _ _ Hw).
           now rewrite entries_cons, append_assoc.
        -- intros f Hne. rewrite (Hother f Hne). now apply logError_other.
Qed.

Lemma failedInOrder_elem (schedule : list nat) (id : Z) :
  id ∈ failedInOrder NewRequest unmarshal net apiToken projectCode runIDs schedule
  <-> exists i, i ∈ schedule /\ runIDs !! i = Some id
                /\ (completeRun NewRequest unmarshal (net i) apiToken projectCode
                      id).1 = false.
Proof.
  unfold failedInOrder. rewrite list_elem_of_omap. split.
  - intros (i & Hi & Hsome). exists i. split; [assumption|].
    destruct (runIDs !! i) as [id'|]; [|discriminate].
    destruct (completeRun NewRequest unmarshal (net i) apiToken projectCode id').1
      eqn:Hcall; [discriminate|].
    injection Hsome as ->. now split.
  - intros (i & Hi & Hlk & Hcall). exists i. split; [assumption|].
    now rewrite Hlk, Hcall.
Qed.
End Parallel.

Lemma completionOrder_all (runIDs : list Z) (schedule : list nat) :
  schedule ≡ₚ seq 0 (length runIDs) ->
  length (Match.completionOrder runIDs schedule) = length runIDs.
Proof.
  intros Hperm. unfold Match.completionOrder. rewrite Hperm.
  pose proof (omap_lookup_seq [] runIDs) as Hseq. simpl in Hseq.
  now rewrite Hseq.
Qed.

End ParallelFacts.

(** ** Properties of the completion of every run in progress *)

Module CompleteAllExtras.
Import GoString GoText Files Http Complete FilesFacts MatchFacts.
Import MatchStageFacts CompleteStageFacts CompleteAll FetchFacts ParallelFacts.

Section Parallel.
Variable NewRequest : string -> string -> bool.
Variable unmarshal : string -> option APIResponse.
Variable net : nat -> string -> Z -> DoResult.
Variables apiToken projectCode : string.

(** X23.  When every goroutine of [completeRunsInParallel] has finished,
    the two counters add up to the number of runs; the error counter is
    the number of runs whose completion call was answered [false]; for
    each of these runs the line "Run ID <runID>: Test run not found" is
    in the ledger, after what it held, the lines being in the order in
    which the goroutines finished; no other file changes. *)
Theorem parallel_completion_summary (runIDs : list Z) (schedule : list nat)
    (fs : FS) :
  schedule ≡ₚ seq 0 (length runIDs) ->
  let line := fun runID : Z =>
    "Run ID " +:+ fmt_d runID +:+ ": Test run not found" +:+ newline in
  let out :=
    completeRunsInParallel NewRequest unmarshal net apiToken projectCode
      runIDs schedule fs in
  let failed :=
    failedInOrder NewRequest unmarshal net apiToken projectCode runIDs schedule in
  successCount out.1 + errorCount out.1 = Z.of_nat (length runIDs)
  /\ errorCount out.1 = Z.of_nat (length failed)
  /\ (forall id,
        id ∈ failed <->
        exists i, runIDs !! i = Some id
                  /\ (completeRun NewRequest unmarshal (net i) apiToken
                        projectCode id).1 = false)
  /\ ("errors.txt" ∉ denied fs ->
      ledger out.2
      = ledger fs +:+ fold_right (fun runID rest => line runID +:+ rest) "" failed)
  /\ (forall f, f <> "errors.txt" -> files out.2 !! f = files fs !! f).
Proof.
  intros Hperm line out failed.
  assert (Hline : line = ledgerEntry) by reflexivity.
  rewrite Hline. clear Hline. clear line.
  change (fold_right (fun runID rest => ledgerEntry runID +:+ rest) "" failed)
    with (entries failed).
  subst out failed. unfold completeRunsInParallel.
  destruct (parallel_fold NewRequest unmarshal net apiToken projectCode runIDs
              schedule (mkSummary 0 0, fs))
    as (Hsum & Herr & _ & Hledger & Hother).
  cbn [fst snd successCount errorCount] in *.
  rewrite (completionOrder_all runIDs schedule Hperm) in Hsum.
  split; [lia|]. split; [lia|]. split; [|split; assumption].
  intros id. rewrite failedInOrder_elem. split.
  - intros (i & _ & H). now exists i.
  - intros (i & Hlk & Hcall). exists i. split; [|now split].
    rewrite Hperm. apply elem_of_seq. apply lookup_lt_Some in Hlk. lia.
Qed.
End Parallel.

Section CompleteAll.
Variable NewRequest : string -> string -> bool.
Variable unmarshalRuns : string -> option RunsAPIResponse.
Variable unmarshal : string -> option APIResponse.
Variable fetchNet : nat -> string -> Z -> DoResult.
Variable net : nat -> string -> Z -> DoResult.
Variables apiToken projectCode : string.

(** X24.  [CompleteAllInProgressRuns] does not panic on the fetch.  When
    it finishes, every run that it tried to complete was listed in
    progress by the service during the fetch, the two counters add up to
    the number of these runs, and no file other than the ledger has
    changed.  With an environment variable empty it fetches nothing and
    changes nothing. *)
Theorem complete_all_summary (fuel : nat) (schedule : list nat) (fs : FS) :
  let out :=
    CompleteAllInProgressRuns NewRequest unmarshalRuns unmarshal fetchNet net
      apiToken projectCode fuel schedule fs in
  out <> Panicked
  /\ (apiToken = "" \/ projectCode = "" -> out = Finished [] (mkSummary 0 0) fs)
  /\ forall inProgressRuns summary fs',
       out = Finished inProgressRuns summary fs' ->
       schedule ≡ₚ seq 0 (length inProgressRuns) ->
       (forall id, id ∈ inProgressRuns ->
          exists offsets,
            listedInProgress unmarshalRuns fetchNet projectCode offsets id)
       /\ successCount summary + errorCount summary
          = Z.of_nat (length inProgressRuns)
       /\ (forall f, f <> "errors.txt" -> files fs' !! f = files fs !! f).
Proof.
  intros out. subst out. unfold CompleteAllInProgressRuns.
  destruct (eqb apiToken "" || eqb projectCode "") eqn:Henv.
  { split; [discriminate|]. split; [reflexivity|].
    intros runs summary fs' [= <- <- <-] _.
    split; [intros id Hid; now apply elem_of_nil in Hid|]. now split. }
  assert (Hpanic : fetchAllInProgressRuns NewRequest unmarshalRuns fetchNet
                     apiToken projectCode fuel <> Panics)
    by apply fetchLoop_no_panic.
  assert (Hlisted : forall st id,
    fetchAllInProgressRuns NewRequest unmarshalRuns fetchNet apiToken projectCode
      fuel = Returns st ->
    id ∈ allInProgressRuns st ->
    listedInProgress unmarshalRuns fetchNet projectCode (requested st) id).
  { intros st id Hout. revert id.
    apply (fetchLoop_listed NewRequest unmarshalRuns fetchNet projectCode fuel
             (mkFetch 0 0 [] []) st); [|exact Hout].
    intros id Hid. now apply elem_of_nil in Hid. }
  destruct (fetchAllInProgressRuns NewRequest unmarshalRuns fetchNet apiToken
              projectCode fuel) as [| |st] eqn:Hfetch.
  - split; [discriminate|]. split; [|discriminate].
    intros Hunset. now rewrite (env_unset _ _ Hunset) in Henv.
  - congruence.
  - cbn zeta. split.
    { destruct (length (allInProgressRuns st) =? 0)%nat; [discriminate|].
      now destruct (completeRunsInParallel _ _ _ _ _ _ _ _). }
    split; [intros Hunset; now rewrite (env_unset _ _ Hunset) in Henv|].
    intros runs summary fs' Hout Hperm.
    destruct (length (allInProgressRuns st) =? 0)%nat eqn:Hlen.
    + injection Hout as <- <- <-. apply Nat.eqb_eq in Hlen.
      split; [intros id Hid; exists (requested st); now apply Hlisted|].
      split; [cbn; lia|reflexivity].
    + pose proof (parallel_fold NewRequest unmarshal net apiToken projectCode
                    (allInProgressRuns st) schedule (mkSummary 0 0, fs))
        as Hpar.
      unfold completeRunsInParallel in Hout.
      destruct (fold_left _ schedule (mkSummary 0 0, fs)) as [summary' fs''].
      injection Hout as <- <- <-. cbn zeta in Hpar.
      destruct Hpar as (Hsum & _ & _ & _ & Hother).
      cbn [fst snd successCount errorCount] in *.
      rewrite (completionOrder_all _ schedule Hperm) in Hsum.
      split; [intros id Hid; exists (requested st); now apply Hlisted|].
      split; [lia|assumption].
Qed.
End CompleteAll.

End CompleteAllExtras.

(** ** The completion of every run in progress on example services *)

Module CompleteAllExamples.
Import GoString GoText Files Http Complete.
Import CompleteAll CompleteAllExtras Scenarios ExtraScenarios.

Lemma parallel_completion_summary_witness :
  let out :=
    completeRunsInParallel requestOK parse completionService "token" "DEMO"
      [11; 13] [1%nat; 0%nat] filesBefore in
  successCount out.1 + errorCount out.1 = 2
  /\ errorCount out.1 = 1
  /\ ledger out.2
     = "Run ID 3: Test run not found" +:+ newline
       +:+ "Run ID 13: Test run not found" +:+ newline.
Proof.
  pose proof (parallel_completion_summary requestOK parse completionService
                "token" "DEMO" [11; 13] [1%nat; 0%nat] filesBefore) as H.
  cbn zeta in H. destruct H as (Hsum & Herr & _ & Hledger & _); [apply perm_swap|].
  split; [exact Hsum|]. split; [rewrite Herr; vm_compute; reflexivity|].
  rewrite Hledger by apply not_elem_of_empty. vm_compute. reflexivity.
Defined.

Lemma complete_all_summary_witness :
  exists summary fs',
    CompleteAllInProgressRuns requestOK parseRuns parse runsService
      completionService "token" "DEMO" 2 [1%nat; 0%nat] filesBefore
    = Finished [11; 13] summary fs'
    /\ successCount summary + errorCount summary = 2.
Proof.
  pose proof (complete_all_summary requestOK parseRuns parse runsService
                completionService "token" "DEMO" 2 [1%nat; 0%nat] filesBefore)
    as H.
  cbn zeta in H. destruct H as (_ & _ & H).
  eexists. eexists.
  match goal with
  | |- ?A /\ _ => assert (Hout : A) by (vm_compute; reflexivity)
  end.
  split; [exact Hout|].
  destruct (H _ _ _ Hout) as (_ & Hsum & _); [apply perm_swap|]. exact Hsum.
Defined.

End CompleteAllExamples.

(** ** Facts about the variant without the retrying executor *)

Module SimpleFacts.
Import GoString GoText Files Http Complete CompleteFacts CompletionFacts.
Import CompleteAll FetchFacts.

Section Fetch.
Variable NewRequest : string -> string -> bool.
Variable unmarshal : string -> option RunsAPIResponse.
Variable net : nat -> string -> DoResult.
Variable projectCode : string.

Lemma simple_step_page (st : Simple.FetchState) (x : Response)
    (entities : list Run.t) :
  NewRequest "GET" (runsURL projectCode (Simple.offset st)) = true ->
  net (length (Simple.requested st)) (runsURL projectCode (Simple.offset st))
  = (Some x, None) ->
  pageOf unmarshal x entities ->
  Simple.fetchStep NewRequest unmarshal net projectCode st
  = if Z.of_nat (length entities) <? limit
    then Simple.Break
           (Simple.mkFetch (Simple.offset st)
              (Simple.allInProgressRuns st ++ inProgress entities)
              (Simple.requested st ++ [Simple.offset st]))
    else Simple.Continue
           (Simple.mkFetch (addInt (Simple.offset st) limit)
              (Simple.allInProgressRuns st ++ inProgress entities)
              (Simple.requested st ++ [Simple.offset st])).
Proof.
  intros Hreq HDo (body & apiResp & Hbody & Hparse & Hstatus & Hent).
  unfold Simple.fetchStep. rewrite Hreq. cbn [negb].
  rewrite HDo, Hbody, Hparse, Hstatus, Hent. cbn [negb].
  now rewrite keepInProgress_fold.
Qed.

Lemma simple_step_stop (st : Simple.FetchState) :
  NewRequest "GET" (runsURL projectCode (Simple.offset st)) = true ->
  Simple.noPage unmarshal
    (net (length (Simple.requested st)) (runsURL projectCode (Simple.offset st))) ->
  Simple.fetchStep NewRequest unmarshal net projectCode st
  = Simple.Break
      (Simple.mkFetch (Simple.offset st) (Simple.allInProgressRuns st)
         (Simple.requested st ++ [Simple.offset st])).
Proof.
  intros Hreq Hno. unfold Simple.fetchStep. rewrite Hreq. cbn [negb].
  destruct (net (length (Simple.requested st))
              (runsURL projectCode (Simple.offset st))) as [res [msg|]];
    [now destruct res|].
  destruct Hno as [Herr|(x & [= ->] & Hnone)]; [now cbn in Herr|].
  destruct (Body x) as [body|] eqn:Hbody; [|reflexivity].
  destruct (unmarshal body) as [apiResp|] eqn:Hparse; [|reflexivity].
  destruct (Status apiResp) eqn:Hstatus; [|reflexivity].
  exfalso. apply (Hnone (RunsResult.Entities (Result apiResp))).
  now exists body, apiResp.
Qed.

(** The loop over full pages. *)
Lemma fetchLoop_full_pages (pages : nat -> list Run.t) (n m : nat) :
  (forall j, (j < n)%nat ->
     NewRequest "GET" (runsURL projectCode (limit * Z.of_nat j)) = true) ->
  (forall j, (j < n)%nat ->
     exists x, net j (runsURL projectCode (limit * Z.of_nat j)) = (Some x, None)
               /\ pageOf unmarshal x (pages j)
               /\ limit <= Z.of_nat (length (pages j))) ->
  limit * Z.of_nat n < 2 ^ 63 ->
  forall (j fuel : nat) (all req : list Z),
    length req = j -> (j + m)%nat = n ->
    Simple.fetchLoop NewRequest unmarshal net projectCode (m + fuel)
      (Simple.mkFetch (limit * Z.of_nat j) all req)
    = Simple.fetchLoop NewRequest unmarshal net projectCode fuel
        (Simple.mkFetch (limit * Z.of_nat n)
           (all ++ concat ((fun i => inProgress (pages i)) <$> seq j m))
           (req ++ ((fun i => limit * Z.of_nat i) <$> seq j m))).
Proof.
  intros Hreq Hnet Hbound.
  induction m as [|m IH]; intros j fuel all req Hlen Hj.
  - assert (j = n) as -> by lia. cbn. now rewrite !app_nil_r.
  - cbn [Nat.add Simple.fetchLoop].
    destruct (Hnet j ltac:(lia)) as (x & HDo & Hpage & Hfull).
    rewrite (simple_step_page _ x (pages j)).
    + cbn [Simple.offset Simple.allInProgressRuns Simple.requested].
      destruct (Z.ltb_spec (Z.of_nat (length (pages j))) limit) as [Hlt|_]; [lia|].
      assert (Hnext : addInt (limit * Z.of_nat j) limit = limit * Z.of_nat (S j)).
      { rewrite addInt_small; unfold limit in *; lia. }
      rewrite Hnext.
      rewrite (IH (S j) fuel (all ++ inProgress (pages j))
                 (req ++ [limit * Z.of_nat j])).
      * f_equal. f_equal.
        -- rewrite <- app_assoc. reflexivity.
        -- rewrite <- app_assoc. reflexivity.
      * rewrite length_app. simpl. lia.
      * lia.
    + apply Hreq. lia.
    + cbn [Simple.offset Simple.requested]. now rewrite Hlen.
    + assumption.
Qed.
End Fetch.

End SimpleFacts.

(** ** Properties of the variant without the retrying executor *)

Module SimpleExtras.
Import GoString GoText Files Http Complete CompleteFacts CompletionFacts.
Import CompleteAll FetchFacts SimpleFacts.

Section Call.
Variable NewRequest : string -> string -> bool.
Variable unmarshal : string -> option APIResponse.
Variable Do : string -> Z -> DoResult.
Variables apiToken projectCode : string.

End Call.

Section Fetch.
Variable NewRequest : string -> string -> bool.
Variable unmarshal : string -> option RunsAPIResponse.
Variable net : nat -> string -> DoResult.
Variables apiToken projectCode : string.

(** X26.  [fetchAllInProgressRuns] without the executor, on a service
    whose pages before page [n] are full.  When page [n] holds fewer than
    [limit] entities, it returns the runs in progress of the pages 0 to
    [n].  When the request for page [n] fails, or brings a body that
    cannot be read or parsed or an answer with the status [false], it
    returns the runs in progress of the pages before [n] only, as if
    there were no more pages. *)
Theorem simple_fetch_truncates (pages : nat -> list Run.t) (n fuel : nat) :
  (forall j, (j <= n)%nat ->
     NewRequest "GET" (runsURL projectCode (limit * Z.of_nat j)) = true) ->
  (forall j, (j < n)%nat ->
     exists x, net j (runsURL projectCode (limit * Z.of_nat j)) = (Some x, None)
               /\ pageOf unmarshal x (pages j)
               /\ limit <= Z.of_nat (length (pages j))) ->
  limit * Z.of_nat n < 2 ^ 63 ->
  (n < fuel)%nat ->
  let last := net n (runsURL projectCode (limit * Z.of_nat n)) in
  let run := Simple.fetchAllInProgressRuns NewRequest unmarshal net
               apiToken projectCode fuel in
  ((exists x, last = (Some x, None) /\ pageOf unmarshal x (pages n)
              /\ Z.of_nat (length (pages n)) < limit) ->
   exists st, run = Simple.Returned st
     /\ Simple.allInProgressRuns st
        = concat ((fun i => inProgress (pages i)) <$> seq 0 (S n)))
  /\ (Simple.noPage unmarshal last ->
      exists st, run = Simple.Returned st
        /\ Simple.allInProgressRuns st
           = concat ((fun i => inProgress (pages i)) <$> seq 0 n)).
Proof.
  intros Hreq Hnet Hbound Hfuel last run. subst last run.
  unfold Simple.fetchAllInProgressRuns.
  replace fuel with (n + S (fuel - S n))%nat by lia.
  rewrite (fetchLoop_full_pages NewRequest unmarshal net projectCode pages n n)
    with (j := O); [|intros j Hj; apply Hreq; lia|assumption..|reflexivity|lia].
  cbn [Simple.fetchLoop app]. split.
  - intros (x & HDo & Hpage & Hshort). eexists. split.
    + rewrite (simple_step_page _ _ _ _ _ x (pages n)).
      * destruct (Z.ltb_spec (Z.of_nat (length (pages n))) limit); [|lia].
        reflexivity.
      * apply Hreq. lia.
      * cbn [Simple.offset Simple.requested]. now rewrite length_fmap, length_seq.
      * assumption.
    + cbn [Simple.allInProgressRuns Simple.offset Simple.requested].
      rewrite seq_S, fmap_app, concat_app. cbn. now rewrite app_nil_r.
  - intros Hno. eexists. split.
    + rewrite simple_step_stop; [reflexivity|apply Hreq; lia|].
      cbn [Simple.offset Simple.requested]. now rewrite length_fmap, length_seq.
    + reflexivity.
Qed.
End Fetch.

End SimpleExtras.

(** ** The variant without the retrying executor on examples *)

Module SimpleExamples.
Import GoString GoText Files Http Complete.
Import CompleteAll SimpleExtras Scenarios ExtraScenarios.


Lemma simple_fetch_truncates_witness :
  exists st,
    Simple.fetchAllInProgressRuns requestOK parseRuns
      (fun i _ => match i with
                  | O => (Some (mkResponse 200 (Some "full")), None)
                  | _ => (None, Some "timeout")
                  end) "token" "DEMO" 2
    = Simple.Returned st
    /\ Simple.allInProgressRuns st = [].
Proof.
  destruct (simple_fetch_truncates requestOK parseRuns
              (fun i _ => match i with
                          | O => (Some (mkResponse 200 (Some "full")), None)
                          | _ => (None, Some "timeout")
                          end) "token" "DEMO"
              (fun _ => fullPage) 1 2) as [_ Hfail].
  - intros j Hj. reflexivity.
  - intros j Hj. assert (j = O) as -> by lia.
    exists (mkResponse 200 (Some "full")). split; [reflexivity|]. split.
    + exists "full", (mkRunsAPIResponse true (RunsResult.mk 103 103 100 fullPage)).
      repeat split.
    + vm_compute. discriminate.
  - reflexivity.
  - lia.
  - apply Hfail. left. discriminate.
Defined.

End SimpleExamples.

(** ** The selection stage run again *)

Module RerunExtras.
Import GoString GoText GoFmt Files Filter FilterIO FilterFacts FilterStageFacts.

(** X27.  [FilterResults] is idempotent: run again on the files that it
    left, it leaves them as they are, also when the second execution
    visits the maps in another order than the first. *)
Theorem filter_stage_idempotent
    (unmarshal : string -> option TestResult)
    (scanLines : string -> list string * bool)
    (rangeOrder1 rangeOrder2
       : gmap Z (list TestResult) -> list (Z * list TestResult))
    (fs : FS) :
  ListsEntries rangeOrder1 -> ListsEntries rangeOrder2 ->
  FilterResults unmarshal scanLines rangeOrder2
    (FilterResults unmarshal scanLines rangeOrder1 fs)
  = FilterResults unmarshal scanLines rangeOrder1 fs.
Proof.
  intros Hentries1 Hentries2. unfold FilterResults at 2.
  destruct (files fs !! "results.json") as [content|] eqn:Hlk.
  - destruct (scanLines content) as [lines scanErr] eqn:Hscan.
    destruct scanErr.
    + unfold FilterResults. now rewrite Hlk, Hscan.
    + unfold FilterResults.
      rewrite writeOutput_other by discriminate. rewrite Hlk, Hscan.
      rewrite (processResults_order_irrelevant rangeOrder2 rangeOrder1)
        by assumption.
      unfold writeOutput.
      destruct (decide ("filtered.txt" ∈ denied fs)) as [Hd|Hw].
      * now rewrite decide_True by assumption.
      * cbn [denied files]. rewrite decide_False by assumption.
        now rewrite insert_insert_eq.
  - unfold FilterResults. now rewrite Hlk.
Qed.

End RerunExtras.

(** ** The selection stage run twice on an example log *)

Module RerunExamples.
Import GoString GoText Files Filter FilterIO RerunExtras Scenarios ExtraScenarios.

Lemma backwards_lists_entries : ListsEntries visitBackwards.
Proof. intros m. apply reverse_Permutation. Defined.

Lemma forwards_lists_entries : ListsEntries map_to_list.
Proof. intros m. reflexivity. Defined.

Lemma filter_stage_idempotent_witness :
  files (FilterResults runLog logLines visitBackwards
           (FilterResults runLog logLines map_to_list twoRunFiles))
    !! "filtered.txt" = Some "101,205"
  /\ files (FilterResults runLog logLines map_to_list
              (FilterResults runLog logLines visitBackwards twoRunFiles))
       !! "filtered.txt" = Some "101,205".
Proof.
  split.
  - rewrite (filter_stage_idempotent runLog logLines map_to_list visitBackwards
               twoRunFiles forwards_lists_entries backwards_lists_entries).
    vm_compute. reflexivity.
  - rewrite (filter_stage_idempotent runLog logLines visitBackwards map_to_list
               twoRunFiles backwards_lists_entries forwards_lists_entries).
    vm_compute. reflexivity.
Defined.

End RerunExamples.
